(** * fragRebSim: tidal-disruption debris simulation

    A shallow embedding of the three source files of the package

      - [forces.py]           the galactic force field,
      - [dMdEdist.py]         the dM/dE distribution sampler,
      - [otherintegrator.py]  the class [RebSimIntegrator],

    followed by the properties proved about them.

    Conventions of the embedding.

      - Python [float]s and numpy [float64]s are idealised as real numbers
        ([R]); [/] on numpy values is Rocq's total division (numpy does not
        raise on a zero divisor), a Python [float / int] division that can
        raise [ZeroDivisionError] is written [py_div].  Where numpy
        divides by zero it yields [inf] or [nan], which [R] does not have:
        a statement about the value of such a quotient carries the
        hypothesis that the divisor is not zero.
      - Python [int]s are [Z]; list indices are [Z] as well, because Python
        accepts negative indices and the code computes [i - 1] from a
        position that can be [0].
      - A Python exception is a value of [exn]; a computation that can raise
        returns a [pyres]; a method that mutates [self] or the rebound
        simulation is a function [state -> pyres A * state], so that the
        state reached when an exception is raised half-way is still
        visible.
      - The random draws of [star_disrupt] are an explicit argument, and
        so is what the code takes from outside the three files: the
        conversion factors of astropy ([units]), the functions of
        [funcs.py] and the sampler object [self.dmde] ([externals]), the
        interpolating function of a scipy [interp1d] object.
      - The code is Python 2: [n / step] on integers is integer division.
      - Of [sim_integrate] the set-up of the simulation, the schedule, the
        loop over the scheduled times and its two scans are embedded; the
        integrator itself is outside the three files and is an argument
        of the loop: a function that returns the advanced particles or
        tells that [rebound.Escape] was raised. *)

From Stdlib Require Import Reals Lra Lia ZArith List Bool Sorted Permutation.
From Stdlib Require Import RNsatz.
Import ListNotations.

Open Scope Z_scope.

(* ================================================================= *)
(** * Part I: the program                                             *)
(* ================================================================= *)

(** ** The Python run time the code relies on *)

Module Py.

Inductive exn : Type :=
| IndexError
| ValueError
| StopIteration
| ZeroDivisionError
| RuntimeError.

Inductive pyres (A : Type) : Type :=
| Val (a : A)
| Exc (e : exn).
Arguments Val {A} a.
Arguments Exc {A} e.

Definition pbind {A B : Type} (r : pyres A) (k : A -> pyres B) : pyres B :=
  match r with
  | Val a => k a
  | Exc e => Exc e
  end.

Notation "'let*' x ':=' c 'in' k" := (pbind c (fun x => k))
  (at level 10, x pattern, c at level 100, k at level 200).

(** [len(l)] *)
Definition len {A : Type} (l : list A) : Z := Z.of_nat (length l).

(** The position a list index denotes: [0 <= i < len] is itself, a
    negative [i >= -len] counts from the end, anything else is out of
    range. *)
Definition norm_index (n : Z) (i : Z) : option nat :=
  if (0 <=? i) && (i <? n) then Some (Z.to_nat i)
  else if (i <? 0) && (- n <=? i) then Some (Z.to_nat (n + i))
  else None.

(** [l[i]] *)
Definition getitem {A : Type} (l : list A) (i : Z) : pyres A :=
  match norm_index (len l) i with
  | Some k =>
      match nth_error l k with
      | Some a => Val a
      | None => Exc IndexError
      end
  | None => Exc IndexError
  end.

Fixpoint set_nth {A : Type} (k : nat) (a : A) (l : list A) : list A :=
  match l, k with
  | [], _ => []
  | _ :: t, O => a :: t
  | h :: t, S k' => h :: set_nth k' a t
  end.

(** [l[i] = a] *)
Definition setitem {A : Type} (l : list A) (i : Z) (a : A) : pyres (list A) :=
  match norm_index (len l) i with
  | Some k => Val (set_nth k a l)
  | None => Exc IndexError
  end.

Definition remove_nth {A : Type} (k : nat) (l : list A) : list A :=
  firstn k l ++ skipn (S k) l.

(** [l.pop(i)]: the popped element and the list that remains. *)
Definition pop {A : Type} (l : list A) (i : Z) : pyres (A * list A) :=
  match norm_index (len l) i with
  | Some k =>
      match nth_error l k with
      | Some a => Val (a, remove_nth k l)
      | None => Exc IndexError
      end
  | None => Exc IndexError
  end.

(** [range(n)] *)
Definition range (n : Z) : list Z := map Z.of_nat (seq 0 (Z.to_nat n)).

(** [l[a:b]] for [0 <= a]. *)
Definition slice {A : Type} (l : list A) (a b : nat) : list A :=
  firstn (b - a) (skipn a l).

(** [next(ind for ind, v in enumerate(l) if P v)], counting from [ind]. *)
Fixpoint next_enumerate (P : Z -> bool) (l : list Z) (ind : Z) : pyres Z :=
  match l with
  | [] => Exc StopIteration
  | v :: t => if P v then Val ind else next_enumerate P t (ind + 1)
  end.

Fixpoint mapM {A B : Type} (f : A -> pyres B) (l : list A)
  : pyres (list B) :=
  match l with
  | [] => Val []
  | a :: t => let* b := f a in let* bs := mapM f t in Val (b :: bs)
  end.

Open Scope R_scope.

(** [sum(l)] *)
Definition sum (l : list R) : R := fold_left Rplus l 0.

(** [math.sqrt]: a negative argument is a [ValueError]. *)
Definition math_sqrt (x : R) : pyres R :=
  if Rlt_dec x 0 then Exc ValueError else Val (sqrt x).

(** [a / n] for a Python float [a] and a Python int [n]. *)
Definition py_div (a : R) (n : Z) : pyres R :=
  if (n =? 0)%Z then Exc ZeroDivisionError else Val (a / IZR n).

(** [np.linspace(start, stop, num)] (endpoint included). *)
Definition linspace (start stop : R) (num : Z) : pyres (list R) :=
  if (num <? 0)%Z then Exc ValueError
  else if (num =? 1)%Z then Val [start]
  else
    let step := (stop - start) / IZR (num - 1) in
    Val (map (fun k => start + IZR k * step) (range num)).

(** [a.argsort()]: the positions of [a] in ascending order of value, equal
    values in their original order (numpy sorts short arrays by
    insertion). *)
Fixpoint insert_by (d : list R) (k : nat) (l : list nat) : list nat :=
  match l with
  | [] => [k]
  | h :: t =>
      if Rle_dec (nth k d 0) (nth h d 0) then k :: h :: t
      else h :: insert_by d k t
  end.

Definition argsort (d : list R) : list nat :=
  fold_right (insert_by d) [] (seq 0 (length d)).

Close Scope R_scope.

End Py.

Import Py.

(** ** astropy's unit conversions

    The factors come from the [astropy.units] library; the program only
    multiplies by them. *)

Record units : Type := mkUnits {
  pc_to_AU : R;        (* (1.0 * u.pc).to('AU').value *)
  AU_to_km : R;        (* (1.0 * u.AU).to('km').value *)
  AU_to_Rsun : R;      (* (1.0 * u.AU).to('Rsun').value *)
  Rsun_to_AU : R;      (* (1.0 * u.Rsun).to('AU').value *)
  cgs_to_natural : R;  (* ((u.cm / u.second)**2).to(natural_u) *)
  kms_to_natural : R   (* (u.km / u.second).to(u.AU / (u.yr / 2 pi)) *)
}.

(** ** forces.py *)

Module sim_constants.
Open Scope R_scope.

Definition m_hole : R := 4.0e6.
Definition m_bulge : R := 3.76e9.
Definition m_disk : R := 6.0e10.
Definition m_halo : R := 1.0e12.

Definition r_halo : R := 4.125e9.

Definition ab : R := 2.0e7.
Definition ad : R := 5.7e8.
Definition bd : R := 6.2e7.

Definition rc (u : units) : R := 1.0 * pc_to_AU u.

Definition scale (u : units) : R := 1.0e3 * pc_to_AU u.
Definition AUtokm (u : units) : R := 1.0 * AU_to_km u.
Definition AUtoRsun (u : units) : R := 1.0 * AU_to_Rsun u.
Definition RsuntoAU (u : units) : R := 1.0 * Rsun_to_AU u.

Definition sf1 : R := 1.0e8.
Definition sf2 : R := 1.0e4.

End sim_constants.

Module Forces.
Open Scope R_scope.

Definition smoothing_func (r : R) : R :=
  (1.0 / PI) * atan ((r - sim_constants.sf1) / sim_constants.sf2) + 0.5.

Definition logterm (r : R) : R :=
  ln (1.0 + (r / sim_constants.r_halo)).

Definition rterm (r : R) : R :=
  (r + sim_constants.r_halo) * (r ^ 2).

Definition cluster_force (r coord : R) : R := 0.

Definition bulge_force (r coord : R) : R :=
  - sim_constants.m_bulge * coord / ((r ^ 2) * (sim_constants.ab + r)).

Definition disk_force (r coord rho2 zbd : R) : R :=
  - sim_constants.m_disk * coord /
    Rpower (rho2 + (sim_constants.ad + zbd) ^ 2) 1.5.

Definition halo_force (u : units) (r coord : R) : R :=
  let halo_scale :=
    if Rlt_dec r (10 * sim_constants.rc u) then 0 else 1 in
  - halo_scale * sim_constants.m_halo * coord *
    ((logterm r / r ^ 3) - (1.0 / rterm r)).

End Forces.

(** ** dMdEdist.py *)

Module dMdEdist.
Open Scope R_scope.

(** A [scipy.interpolate.interp1d] object: the interval its knots span and
    the interpolating function.  Calling it on an array raises
    [ValueError] when a point lies outside the interval
    ([bounds_error] is left at its default). *)
Record interp1d : Type := mkInterp {
  x_lo : R;
  x_hi : R;
  interp : R -> R
}.

Definition in_bounds (f : interp1d) (x : R) : bool :=
  if Rle_dec (x_lo f) x then (if Rle_dec x (x_hi f) then true else false)
  else false.

Definition call (f : interp1d) (x_new : list R) : pyres (list R) :=
  mapM (fun x => if in_bounds f x then Val (interp f x) else Exc ValueError)
       x_new.

(** The class attributes filled while the class body of [dMdEdist_init]
    runs. *)
Record dMdEdist_init : Type := mkTables {
  betas : list R;
  masses : list R;
  functions : list interp1d
}.

(** *** The per-file part of the class body (lines 34-57) *)

Definition step : nat := 10.

(** [for i, point in enumerate(a): if point > 0: x.append(a[i]);
    y.append(b[i])] *)
Fixpoint retain (a : list R) (i : Z) (b x y : list R)
  : pyres (list R * list R) :=
  match a with
  | [] => Val (x, y)
  | point :: a' =>
      if Rlt_dec 0 point then
        let* bi := getitem b i in
        retain a' (i + 1)%Z b (x ++ [point]) (y ++ [bi])
      else retain a' (i + 1)%Z b x y
  end.

(** One pass of [for i in range(n / step)]:
    [sum(x[step * i:(step * i) + step - 1]) / float(step)]. *)
Definition s_point (x : list R) (i : nat) : R :=
  let xsum := sum (slice x (step * i) ((step * i) + step - 1)) in
  xsum / INR step.

(** The list [s] (or [p_s]) when the loop ends; [n / step] is the integer
    division of Python 2. *)
Definition coarsen (x : list R) : list R :=
  let n := length x in
  map (s_point x) (seq 0 (n / step)).

(** [np.cumsum] *)
Fixpoint cumsum_from (acc : R) (l : list R) : list R :=
  match l with
  | [] => []
  | h :: t => (acc + h) :: cumsum_from (acc + h) t
  end.

Definition cumsum (l : list R) : list R := cumsum_from 0 l.

(** [max] of a sequence *)
Definition list_max (l : list R) : R :=
  match l with
  | [] => 0
  | h :: t => fold_left Rmax t h
  end.

(** [min] of a sequence *)
Definition list_min (l : list R) : R :=
  match l with
  | [] => 0
  | h :: t => fold_left Rmin t h
  end.

(** The knots handed to [interp1d(CDE, s)] for one file with rows [a] and
    [b]. *)
Definition curve (a b : list R) : pyres (list R * list R) :=
  let* (x, y) := retain a 0%Z b [] [] in
  let s := coarsen x ++ [0.0] in
  let p_s := coarsen y ++ [0.0] in
  let s := rev s in
  let p_s := rev p_s in
  let CDE := map (fun c => c / list_max (cumsum p_s)) (cumsum p_s) in
  Val (CDE, s).

(** [interp1d(x, y)]: the object spans the knots it is given; [values]
    stands for the piecewise-linear function scipy fits through them. *)
Definition interp1d_of (x y : list R) (values : R -> R) : interp1d :=
  mkInterp (list_min x) (list_max x) values.

(** *** [beta_interp] *)

(** The local variables of [beta_interp] when it returns. *)
Record blend : Type := mkBlend {
  bl_x1 : R; bl_x2 : R;
  bl_f1 : interp1d; bl_f2 : interp1d;
  bl_d1 : R; bl_d2 : R;
  bl_p1 : R; bl_p2 : R
}.

Definition beta_locals (T : dMdEdist_init) (beta : R) : pyres blend :=
  let diffs := map (fun b => Rabs (b - beta)) (betas T) in
  match firstn 2 (argsort diffs) with
  | [i; j] =>
      let* x1 := getitem (betas T) (Z.of_nat i) in
      let* x2 := getitem (betas T) (Z.of_nat j) in
      let* f1 := getitem (functions T) (Z.of_nat i) in
      let* f2 := getitem (functions T) (Z.of_nat j) in
      let* d1 := getitem diffs (Z.of_nat i) in
      let* d2 := getitem diffs (Z.of_nat j) in
      let d := d1 + d2 in
      let p2 := d1 / d in
      let p1 := d2 / d in
      Val (mkBlend x1 x2 f1 f2 d1 d2 p1 p2)
  | _ => Exc ValueError
  end.

(** The closure [f_new], applied to an array. *)
Definition f_new (bl : blend) (x : list R) : pyres (list R) :=
  let* v1 := call (bl_f1 bl) x in
  let* v2 := call (bl_f2 bl) x in
  Val (map (fun ab => bl_p1 bl * fst ab + bl_p2 bl * snd ab) (combine v1 v2)).

Definition beta_interp (T : dMdEdist_init) (beta : R)
  : pyres ((list R -> pyres (list R)) * R * R) :=
  let* bl := beta_locals T beta in
  Val (f_new bl, bl_x1 bl, bl_x2 bl).

(** *** [energy_spread] *)

(** The array [x_set] of [energy_spread]. *)
Definition x_set (nfrag : Z) : pyres (list R) :=
  let* bin_size := py_div 1.0 nfrag in
  let half := bin_size * 0.5 in
  linspace half (1.0 - half) (nfrag - 1).

Definition energy_spread (T : dMdEdist_init) (beta : R) (nfrag : Z)
  : pyres (list R) :=
  let* (beta_func, x1, x2) := beta_interp T beta in
  let* xs := x_set nfrag in
  beta_func xs.

End dMdEdist.

(** ** otherintegrator.py *)

(** The functions imported from [funcs.py] and the sampler object
    [self.dmde], whose class [dMdEdist] is not among the source files, are
    taken as they are called. *)
Record externals : Type := mkExternals {
  mstar_dist : R -> R;
  rstar_func : R -> R;
  r_tidal : R -> R -> R;
  beta_dist : R -> R;
  dmde_energy_spread : R -> Z -> pyres (list R)
}.

(** The values [star_disrupt] draws from the [random] module, in the order
    it draws them. *)
Record draws : Type := mkDraws {
  xstar : R;   (* rnd.random() *)
  u1 : R;      (* rnd.uniform(-1.0, 1.0) *)
  th1 : R;     (* rnd.uniform(0., 2. * np.pi) *)
  xbeta : R;   (* rnd.random() *)
  phi2 : R     (* rnd.uniform(0., 2. * np.pi) *)
}.

(** A particle of the rebound simulation. *)
Record particle : Type := mkParticle {
  p_m : R;
  p_x : R; p_y : R; p_z : R;
  p_vx : R; p_vy : R; p_vz : R
}.

Module RebSimIntegrator.

(** The attributes of [self] the methods below touch, and the particle
    array of the rebound simulation [reb_sim] they are handed. *)
Record state : Type := mkState {
  Nstars : Z;
  Nfrag : Z;
  posx : list (list (list R));
  posy : list (list (list R));
  posz : list (list (list R));
  star_masses : list R;
  star_radii : list R;
  tidal_radii : list R;
  orbital_vels : list R;
  sfindices : list Z;
  particles : list particle
}.

Definition set_posx (v : list (list (list R))) (s : state) : state :=
  mkState (Nstars s) (Nfrag s) v (posy s) (posz s) (star_masses s)
          (star_radii s) (tidal_radii s) (orbital_vels s) (sfindices s)
          (particles s).

Definition set_posy (v : list (list (list R))) (s : state) : state :=
  mkState (Nstars s) (Nfrag s) (posx s) v (posz s) (star_masses s)
          (star_radii s) (tidal_radii s) (orbital_vels s) (sfindices s)
          (particles s).

Definition set_posz (v : list (list (list R))) (s : state) : state :=
  mkState (Nstars s) (Nfrag s) (posx s) (posy s) v (star_masses s)
          (star_radii s) (tidal_radii s) (orbital_vels s) (sfindices s)
          (particles s).

Definition set_star_masses (v : list R) (s : state) : state :=
  mkState (Nstars s) (Nfrag s) (posx s) (posy s) (posz s) v
          (star_radii s) (tidal_radii s) (orbital_vels s) (sfindices s)
          (particles s).

Definition set_star_radii (v : list R) (s : state) : state :=
  mkState (Nstars s) (Nfrag s) (posx s) (posy s) (posz s) (star_masses s)
          v (tidal_radii s) (orbital_vels s) (sfindices s) (particles s).

Definition set_tidal_radii (v : list R) (s : state) : state :=
  mkState (Nstars s) (Nfrag s) (posx s) (posy s) (posz s) (star_masses s)
          (star_radii s) v (orbital_vels s) (sfindices s) (particles s).

Definition set_orbital_vels (v : list R) (s : state) : state :=
  mkState (Nstars s) (Nfrag s) (posx s) (posy s) (posz s) (star_masses s)
          (star_radii s) (tidal_radii s) v (sfindices s) (particles s).

Definition set_sfindices (v : list Z) (s : state) : state :=
  mkState (Nstars s) (Nfrag s) (posx s) (posy s) (posz s) (star_masses s)
          (star_radii s) (tidal_radii s) (orbital_vels s) v (particles s).

Definition set_particles (v : list particle) (s : state) : state :=
  mkState (Nstars s) (Nfrag s) (posx s) (posy s) (posz s) (star_masses s)
          (star_radii s) (tidal_radii s) (orbital_vels s) (sfindices s) v.

(** *** The state-and-exception monad of the methods *)

Definition M (A : Type) : Type := state -> pyres A * state.

Definition ret {A : Type} (a : A) : M A := fun s => (Val a, s).

Definition bind {A B : Type} (m : M A) (k : A -> M B) : M B :=
  fun s =>
    match m s with
    | (Val a, s') => k a s'
    | (Exc e, s') => (Exc e, s')
    end.

Definition raise {A : Type} (e : exn) : M A := fun s => (Exc e, s).

Definition lift {A : Type} (r : pyres A) : M A := fun s => (r, s).

Definition get {A : Type} (f : state -> A) : M A := fun s => (Val (f s), s).

Definition modify (f : state -> state) : M unit := fun s => (Val tt, f s).

Notation "x <- c ;; k" := (bind c (fun x => k))
  (at level 61, c at next level, right associativity).
Notation "c ;; k" := (bind c (fun _ => k))
  (at level 61, right associativity).

(** [for a in l: body(a)] *)
Fixpoint for_each {A : Type} (l : list A) (body : A -> M unit) : M unit :=
  match l with
  | [] => ret tt
  | a :: t => body a ;; for_each t body
  end.

(** *** [__init__] *)

Definition nested (Nstars Nfrag : Z) : list (list (list R)) :=
  map (fun _ => map (fun _ => []) (range Nfrag)) (range Nstars).

Definition init (Nstars Nfrag : Z) : state :=
  mkState Nstars Nfrag
          (nested Nstars Nfrag) (nested Nstars Nfrag) (nested Nstars Nfrag)
          [] [] [] [] [0] [].

(** *** The rebound simulation, as far as the class uses it *)

(** [reb_sim.N] *)
Definition N (s : state) : Z := len (particles s).

(** [reb_sim.add(...)] *)
Definition reb_add (p : particle) : M unit :=
  modify (fun s => set_particles (particles s ++ [p]) s).

(** [reb_sim.remove(index)]: the particles after [index] move down by one;
    an index that names no particle is refused. *)
Definition reb_remove (index : Z) : M unit :=
  fun s =>
    if (0 <=? index) && (index <? N s)
    then (Val tt, set_particles (remove_nth (Z.to_nat index) (particles s)) s)
    else (Exc RuntimeError, s).

(** [reb_sim = rebound.Simulation(); reb_sim.add(m=sc.m_hole)] at the start
    of [sim_integrate]. *)
Definition hole : particle :=
  mkParticle sim_constants.m_hole 0 0 0 0 0 0.

Definition sim_setup (s : state) : state := set_particles [hole] s.

(** *** [star_disrupt] *)

Open Scope R_scope.

(** A vector of three components, indexed [0], [1], [2]. *)
Record vec : Type := mkVec { v0 : R; v1 : R; v2 : R }.

(** [[k * c for c in v]] *)
Definition vscale (k : R) (v : vec) : vec :=
  mkVec (k * v0 v) (k * v1 v) (k * v2 v).

(** [[c / k for c in v]], on numpy values.  For [k = 0] numpy gives
    [nan] (or [inf]) components and Rocq's division gives [0]: in
    [star_disrupt] that is the case of [vel_direc] when [u1] is [1] or
    [-1] or the tidal radius is [0], and the statements about the
    velocity of a fragment exclude it. *)
Definition vdiv (v : vec) (k : R) : vec :=
  mkVec (v0 v / k) (v1 v / k) (v2 v / k).

(** [np.cross] *)
Definition cross (a b : vec) : vec :=
  mkVec (v1 a * v2 b - v2 a * v1 b)
        (v2 a * v0 b - v0 a * v2 b)
        (v0 a * v1 b - v1 a * v0 b).

(** [np.linalg.norm] *)
Definition norm (v : vec) : R :=
  sqrt (v0 v ^ 2 + v1 v ^ 2 + v2 v ^ 2).

(** The body of [for frag in tnrange(self.Nfrag, ...)]. *)
Definition add_fragment (vels rads : list R) (r_t : R)
           (star_direc vel_direc : vec) (frag : Z) : M unit :=
  vel <- lift (getitem vels frag) ;;
  let frag_velvec := vscale vel vel_direc in
  rad <- lift (getitem rads frag) ;;
  let frag_posvec := vscale (r_t + rad) star_direc in
  reb_add (mkParticle 0.0
                      (v0 frag_posvec) (v1 frag_posvec) (v2 frag_posvec)
                      (v0 frag_velvec) (v1 frag_velvec) (v2 frag_velvec)).

Definition star_disrupt (E : externals) (u : units) (d : draws) (time : R)
  : M unit :=
  let m_hole := sim_constants.m_hole in
  let m_star := mstar_dist E (xstar d) in
  modify (fun s => set_star_masses (star_masses s ++ [m_star]) s) ;;
  let r_star := rstar_func E m_star * sim_constants.RsuntoAU u in
  modify (fun s => set_star_radii (star_radii s ++ [r_star]) s) ;;
  nfrag <- get Nfrag ;;
  popped <- lift (pop (map (fun f => r_star * IZR f / IZR (nfrag + 1))
                           (range (nfrag + 1))) 0) ;;
  let rads := snd popped in
  let r_t := r_tidal E m_star r_star in
  modify (fun s => set_tidal_radii (tidal_radii s ++ [r_t]) s) ;;
  modify (fun s =>
            set_orbital_vels (orbital_vels s ++ [2.0 * m_hole / r_t]) s) ;;
  sq1 <- lift (math_sqrt (1.0 - (u1 d) ^ 2)) ;;
  let star_direc := mkVec (sq1 * cos (th1 d)) (sq1 * sin (th1 d)) (u1 d) in
  let star_vec := vscale r_t star_direc in
  let beta := beta_dist E (xbeta d) in
  NRGs <- lift (dmde_energy_spread E beta nfrag) ;;
  let nrg_scale :=
    / (r_star * sim_constants.AUtoRsun u) * Rpower m_star (2.0 / 3.0)
    * Rpower (m_hole / 1.0e6) (1.0 / 3.0) in
  let energies :=
    map (fun nrg => nrg_scale * nrg * cgs_to_natural u) NRGs in
  vels <- lift (mapM (fun g => math_sqrt ((2.0 * g) + (2.0 * m_hole / r_t)))
                     energies) ;;
  let x := v0 star_vec in
  let y := v1 star_vec in
  let z := v2 star_vec in
  let r := norm star_vec in
  sq2 <- lift (math_sqrt (2.0 - 2.0 * z / r)) ;;
  let randomvelvec :=
    mkVec
      ((x * (r - z + z * cos (phi2 d)) - r * y * sin (phi2 d)) /
       (r ^ 2 * sq2))
      ((y * (r - z + z * cos (phi2 d)) + r * x * sin (phi2 d)) /
       (r ^ 2 * sq2))
      (((r - z) * z - (x ^ 2 + y ^ 2) * cos (phi2 d)) /
       (r ^ 2 * sq2)) in
  let velocity_vec := cross star_vec randomvelvec in
  let n := norm velocity_vec in
  let vel_direc := vdiv velocity_vec n in
  for_each (range nfrag) (add_fragment vels rads r_t star_direc vel_direc) ;;
  n_particles <- get N ;;
  modify (fun s => set_sfindices (sfindices s ++ [(n_particles - 1)%Z]) s).

Close Scope R_scope.

(** *** [remove_fragment_record] *)

(** [next(ind for ind, v in enumerate(self.sfindices) if v > pi or v == pi)] *)
Definition owner (sf : list Z) (pi : Z) : pyres Z :=
  next_enumerate (fun v => (v >? pi) || (v =? pi)) sf 0.

(** [pos[star].pop(new_pi)] on one of the three trajectory arrays. *)
Definition pop_record (pos : list (list (list R))) (star new_pi : Z)
  : pyres (list (list (list R))) :=
  let* row := getitem pos star in
  let* popped := pop row new_pi in
  setitem pos star (snd popped).

(** [for j, index in enumerate(self.sfindices[i:]): self.sfindices[j+i] -= 1] *)
Definition decrement_from (i : Z) (sf : list Z) : list Z :=
  firstn (Z.to_nat i) sf ++ map (fun v => v - 1) (skipn (Z.to_nat i) sf).

Definition remove_fragment_record (particle_index : Z) : M unit :=
  let pi := particle_index in
  sf <- get sfindices ;;
  i <- lift (owner sf pi) ;;
  prev <- lift (getitem sf (i - 1)) ;;
  let start := prev + 1 in
  let new_pi := pi - start in
  let star := i - 1 in
  px <- get posx ;;
  px' <- lift (pop_record px star new_pi) ;;
  modify (set_posx px') ;;
  py <- get posy ;;
  py' <- lift (pop_record py star new_pi) ;;
  modify (set_posy py') ;;
  pz <- get posz ;;
  pz' <- lift (pop_record pz star new_pi) ;;
  modify (set_posz pz') ;;
  modify (fun s => set_sfindices (decrement_from i (sfindices s)) s).

(** *** [record_fragment_positions] *)

(** [pos[star][frag].append(v)] *)
Definition append_record (pos : list (list (list R))) (star frag : Z) (v : R)
  : pyres (list (list (list R))) :=
  let* row := getitem pos star in
  let* track := getitem row frag in
  let* row' := setitem row frag (track ++ [v]) in
  setitem pos star row'.

Definition record_fragment_positions (u : units) : M unit :=
  ps <- get particles ;;
  for_each (combine (range (len ps)) ps) (fun ip =>
    let '(pi, p) := ip in
    if pi =? 0 then ret tt
    else
      sf <- get sfindices ;;
      i <- lift (owner sf pi) ;;
      prev <- lift (getitem sf (i - 1)) ;;
      let frag := pi - prev - 1 in
      let star := i - 1 in
      px <- get posx ;;
      px' <- lift (append_record px star frag
                                 (p_x p / sim_constants.scale u)%R) ;;
      modify (set_posx px') ;;
      py <- get posy ;;
      py' <- lift (append_record py star frag
                                 (p_y p / sim_constants.scale u)%R) ;;
      modify (set_posy py') ;;
      pz <- get posz ;;
      pz' <- lift (append_record pz star frag
                                 (p_z p / sim_constants.scale u)%R) ;;
      modify (set_posz pz')).

(** *** The bound-velocity scan of [sim_integrate] (lines 230-251) *)

Open Scope R_scope.

Definition bound_vel (u : units) : R := 500 * kms_to_natural u.

(** [np.absolute(p.vx**2 + p.vy**2 + p.vz**2 - self.orbital_vels[star])] *)
Definition velinf2 (p : particle) (orbital_vel : R) : R :=
  Rabs (p_vx p ^ 2 + p_vy p ^ 2 + p_vz p ^ 2 - orbital_vel).

(** The body of the inner [try] for one [index]. *)
Definition bound_check (u : units) (index : Z) : M unit :=
  ps <- get particles ;;
  p <- lift (getitem ps index) ;;
  sf <- get sfindices ;;
  i <- lift (owner sf index) ;;
  let star := (i - 1)%Z in
  ovs <- get orbital_vels ;;
  ov <- lift (getitem ovs star) ;;
  velinf <- lift (math_sqrt (velinf2 p ov)) ;;
  if Rlt_dec velinf (bound_vel u) then
    reb_remove index ;;
    remove_fragment_record index ;;
    raise StopIteration
  else ret tt.

Close Scope R_scope.

(** [for index in range(reb_sim.N)], with [continue] for index 0 and
    [break] in the handler of [StopIteration]; any other exception leaves
    the loop. *)
Fixpoint bound_loop (u : units) (indices : list Z) : M unit :=
  match indices with
  | [] => ret tt
  | index :: rest =>
      if index =? 0 then bound_loop u rest
      else
        fun s =>
          match bound_check u index s with
          | (Val _, s') => bound_loop u rest s'
          | (Exc StopIteration, s') => (Val tt, s')
          | (Exc e, s') => (Exc e, s')
          end
  end.

Definition bound_scan (u : units) : M unit :=
  n <- get N ;;
  bound_loop u (range n).

End RebSimIntegrator.

Import RebSimIntegrator.

(** ** Vocabulary of the statements *)

Definition strictly_increasing (l : list Z) : Prop :=
  forall (i j : nat) (a b : Z),
    nth_error l i = Some a -> nth_error l j = Some b -> (i < j)%nat -> a < b.

Definition non_decreasing (l : list Z) : Prop :=
  forall (i j : nat) (a b : Z),
    nth_error l i = Some a -> nth_error l j = Some b -> (i < j)%nat -> a <= b.

(** The shape of a trajectory array: for every star, the number of time
    steps recorded for each of its fragments. *)
Definition shape (pos : list (list (list R))) : list (list nat) :=
  map (map (@length R)) pos.

(** The call pair by which [sim_integrate] removes a fragment:
    [reb_sim.remove(index)] followed by
    [self.remove_fragment_record(index)]. *)
Definition remove_fragment (index : Z) : M unit :=
  reb_remove index ;; remove_fragment_record index.

(** States reached from a fresh integrator, whose simulation holds the
    central body alone, by disruptions and removals of fragments that
    return normally; a removal is the call pair above or
    [remove_fragment_record] on its own.  Index [0] is the central body,
    not a fragment. *)
Inductive reachable (E : externals) (u : units) (Nstars0 Nfrag0 : Z)
  : state -> Prop :=
| reach_init :
    reachable E u Nstars0 Nfrag0 (sim_setup (init Nstars0 Nfrag0))
| reach_disrupt (s s' : state) (d : draws) (time : R) :
    reachable E u Nstars0 Nfrag0 s ->
    star_disrupt E u d time s = (Val tt, s') ->
    reachable E u Nstars0 Nfrag0 s'
| reach_remove (s s' : state) (index : Z) :
    reachable E u Nstars0 Nfrag0 s ->
    1 <= index ->
    remove_fragment index s = (Val tt, s') ->
    reachable E u Nstars0 Nfrag0 s'
| reach_remove_record (s s' : state) (index : Z) :
    reachable E u Nstars0 Nfrag0 s ->
    1 <= index ->
    remove_fragment_record index s = (Val tt, s') ->
    reachable E u Nstars0 Nfrag0 s'.

(** What every reachable state satisfies: the boundaries are ordered and
    start at the central body, there is one boundary per disrupted star,
    and no boundary names a particle the simulation does not hold. *)
Definition sf_core (s : state) : Prop :=
  non_decreasing (sfindices s) /\
  nth_error (sfindices s) 0 = Some 0 /\
  length (sfindices s) = S (length (star_masses s)) /\
  length (orbital_vels s) = length (star_masses s).

Definition sf_invariant (s : state) : Prop :=
  sf_core s /\ (forall v, In v (sfindices s) -> v <= N s - 1).

(** The quantity whose square root is the speed of a fragment of
    normalised energy [nrg] (line 120), as [star_disrupt] computes it
    from the draws. *)
Definition radicand (E : externals) (u : units) (d : draws) (nrg : R) : R :=
  let m_hole := sim_constants.m_hole in
  let m_star := mstar_dist E (xstar d) in
  let r_star := (rstar_func E m_star * sim_constants.RsuntoAU u)%R in
  let r_t := r_tidal E m_star r_star in
  let nrg_scale :=
    (/ (r_star * sim_constants.AUtoRsun u) * Rpower m_star (2.0 / 3.0)
     * Rpower (m_hole / 1.0e6) (1.0 / 3.0))%R in
  ((2.0 * (nrg_scale * nrg * cgs_to_natural u)) + (2.0 * m_hole / r_t))%R.

(** The row of the trajectory arrays the next disrupted star will use. *)
Definition next_star (s : state) : nat := (length (sfindices s) - 1)%nat.

(** A state in which the book-keeping is in step with the simulation and
    the row of the next star is still as [__init__] made it. *)
Definition ready (s : state) : Prop :=
  nth_error (sfindices s) (next_star s) = Some (N s - 1) /\
  (forall v, In v (sfindices s) -> v <= N s - 1) /\
  (forall pos, In pos [posx s; posy s; posz s] ->
     exists row, nth_error pos (next_star s) = Some row /\
                 len row = Nfrag s).

(** Removal indices that name, one after the other, a fragment among the
    [remaining] particles stored from index [lo] on. *)
Fixpoint valid_removals (lo : Z) (remaining : nat) (pis : list Z) : Prop :=
  match pis, remaining with
  | [], O => True
  | pi :: rest, S r =>
      lo <= pi < lo + Z.of_nat (S r) /\ valid_removals lo r rest
  | _, _ => False
  end.

(** The order [argsort] sorts positions by. *)
Definition key_le (d : list R) (a b : nat) : Prop :=
  (nth a d 0 <= nth b d 0)%R.

(** An interpolant whose knots span the whole range of a cumulative
    probability. *)
Definition covers_unit_interval (f : dMdEdist.interp1d) : Prop :=
  (dMdEdist.x_lo f <= 0 /\ 1 <= dMdEdist.x_hi f)%R.

(** ** Sample inputs *)

(** astropy's factors, rounded. *)
Definition sample_units : units :=
  mkUnits 206264.806 149597870.7 215.032 0.00465047 1.12723e-13 0.0335741.

(** A star of one solar mass and radius, whose tidal radius is 0.74 AU, and
    a sampler that hands back one zero energy per fragment, [Nfrag] in
    all, which is what [star_disrupt] needs to return.  It is not the
    sampler of dMdEdist.py, whose [energy_spread] hands back [Nfrag - 1]
    energies ([module_externals] below has that one): it serves to run
    the code past a disruption that returns. *)
Definition sample_externals : externals :=
  mkExternals (fun _ => 1%R) (fun _ => 1%R) (fun _ _ => 0.74%R)
              (fun _ => 1%R)
              (fun _ nfrag => Val (map (fun _ => 0%R) (range nfrag))).

Definition sample_draws : draws := mkDraws 0.5 0 0 0.5 0.

(** A fresh integrator for one star of one fragment, its simulation set
    up. *)
Definition fresh_1_1 : state := sim_setup (init 1 1).

(** A star that has one fragment left. *)
Definition one_fragment : state :=
  mkState 1 1 [[[]]] [[[]]] [[[]]] [1%R] [1%R] [0.74%R] [1%R] [0; 1]
          [hole; mkParticle 0 1 0 0 0 1 0].

Definition one_fragment_removed : state :=
  mkState 1 1 [[]] [[]] [[]] [1%R] [1%R] [0.74%R] [1%R] [0; 0]
          [hole; mkParticle 0 1 0 0 0 1 0].

(** Two tables, for beta 0.5 and 1.5. *)
Definition sample_tables : dMdEdist.dMdEdist_init :=
  dMdEdist.mkTables
    [0.5%R; 1.5%R] [0.5%R; 1%R]
    [dMdEdist.mkInterp 0 1 (fun x => x);
     dMdEdist.mkInterp 0 1 (fun x => (2 * x)%R)].

(** Two fragments of one star, both at rest. *)
Definition slow_1 : particle := mkParticle 0 1 0 0 0 0 0.
Definition slow_2 : particle := mkParticle 0 2 0 0 0 0 0.

Definition two_slow_fragments : state :=
  mkState 1 2 [[[]; []]] [[[]; []]] [[[]; []]] [1%R] [1%R] [0.74%R] [0%R]
          [0; 2] [hole; slow_1; slow_2].

Definition two_slow_fragments_scanned : state :=
  mkState 1 2 [[[]]] [[[]]] [[[]]] [1%R] [1%R] [0.74%R] [0%R]
          [0; 1] [hole; slow_2].

(** ** The code beyond the claims *)

(** ** The rest of forces.py: Python's float arithmetic, [migrationAccel] *)

(** The particles of rebound hold Python [float]s, and dividing one Python
    [float] by a zero one raises; a numpy operand never does. *)
Module ForcesPy.
Open Scope R_scope.

(** [a / b] for two Python floats. *)
Definition py_fdiv (a b : R) : pyres R :=
  if Req_dec_T b 0 then Exc ZeroDivisionError else Val (a / b).

(** [b ** 1.5] for a Python float [b]; a negative base is a [ValueError]
    in Python 2, the language of the code. *)
Definition py_pow_1_5 (b : R) : pyres R :=
  if Rlt_dec b 0 then Exc ValueError
  else if Req_dec_T b 0 then Val 0
  else Val (Rpower b 1.5).

Definition cluster_force (r coord : R) : pyres R := Val 0.

Definition bulge_force (r coord : R) : pyres R :=
  py_fdiv (- sim_constants.m_bulge * coord)
          ((r ^ 2) * (sim_constants.ab + r)).

Definition disk_force (r coord rho2 zbd : R) : pyres R :=
  let* den := py_pow_1_5 (rho2 + (sim_constants.ad + zbd) ^ 2) in
  py_fdiv (- sim_constants.m_disk * coord) den.

(** [logterm] goes through numpy, so [logterm(r) / r**3] does not raise;
    [1.0 / rterm(r)] divides Python floats. *)
Definition halo_force (u : units) (r coord : R) : pyres R :=
  let halo_scale :=
    if Rlt_dec r (10 * sim_constants.rc u) then 0 else 1 in
  let* inv_rterm := py_fdiv 1.0 (Forces.rterm r) in
  Val (- halo_scale * sim_constants.m_halo * coord *
       ((Forces.logterm r / r ^ 3) - inv_rterm)).

End ForcesPy.

(** A particle together with the acceleration the integrator accumulates
    for it ([p.ax], [p.ay], [p.az]). *)
Record forced : Type := mkForced {
  body : particle;
  f_ax : R;
  f_ay : R;
  f_az : R
}.

Module Accel.
Open Scope R_scope.

(** [cluster_force(r, c) + bulge_force(r, c) + disk_force(r, c, rho2, zbd)
    + halo_force(r, c)] *)
Definition force_sum (u : units) (r coord rho2 zbd : R) : pyres R :=
  let* fc := ForcesPy.cluster_force r coord in
  let* fb := ForcesPy.bulge_force r coord in
  let* fd := ForcesPy.disk_force r coord rho2 zbd in
  let* fh := ForcesPy.halo_force u r coord in
  Val (fc + fb + fd + fh).

(** The body of [for p in ps[1:]]. *)
Definition accelerate (u : units) (p : forced) : pyres forced :=
  let x2 := p_x (body p) ^ 2 in
  let y2 := p_y (body p) ^ 2 in
  let z2 := p_z (body p) ^ 2 in
  let* r := math_sqrt (x2 + y2 + z2) in
  let rho2 := x2 + y2 in
  let* zbd := math_sqrt (z2 + sim_constants.bd ^ 2) in
  let* fx := force_sum u r (p_x (body p)) rho2 zbd in
  let* fy := force_sum u r (p_y (body p)) rho2 zbd in
  let* fz := force_sum u r (p_z (body p)) rho2 zbd in
  Val (mkForced (body p) (f_ax p + fx) (f_ay p + fy) (f_az p + fz)).

(** The loop, with the particles as they are when it ends or raises. *)
Fixpoint accelerate_all (u : units) (ps : list forced)
  : pyres unit * list forced :=
  match ps with
  | [] => (Val tt, [])
  | p :: rest =>
      match accelerate u p with
      | Val p' =>
          let (out, rest') := accelerate_all u rest in (out, p' :: rest')
      | Exc e => (Exc e, p :: rest)
      end
  end.

(** [migrationAccel]: every particle but the first. *)
Definition migrationAccel (u : units) (ps : list forced)
  : pyres unit * list forced :=
  match ps with
  | [] => (Val tt, [])
  | central :: fragments =>
      let (out, fragments') := accelerate_all u fragments in
      (out, central :: fragments')
  end.

(** The force per unit mass along one axis at the place of [b], as the
    four components of forces.py give it over the reals. *)
Definition field (u : units) (b : particle) (coord : R) : R :=
  let r := sqrt (p_x b ^ 2 + p_y b ^ 2 + p_z b ^ 2) in
  let rho2 := p_x b ^ 2 + p_y b ^ 2 in
  let zbd := sqrt (p_z b ^ 2 + sim_constants.bd ^ 2) in
  Forces.cluster_force r coord + Forces.bulge_force r coord
  + Forces.disk_force r coord rho2 zbd + Forces.halo_force u r coord.

Definition at_origin (b : particle) : Prop :=
  p_x b = 0 /\ p_y b = 0 /\ p_z b = 0.

(** What [accelerate] makes of a particle away from the origin. *)
Definition accelerated (u : units) (p : forced) : forced :=
  mkForced (body p)
           (f_ax p + field u (body p) (p_x (body p)))
           (f_ay p + field u (body p) (p_y (body p)))
           (f_az p + field u (body p) (p_z (body p))).

End Accel.

(** ** The rest of otherintegrator.py: [sim_integrate] *)

(** What [reb_sim.integrate(time, exact_finish_time=1)] does to the
    particles: it returns, or it raises [rebound.Escape]. *)
Inductive advance : Type :=
| Advanced (ps : list particle)
| Escaped (ps : list particle).

Module SimIntegrate.
Open Scope R_scope.

(** [self.Nout] and [self.max_time]. *)
Record config : Type := mkConfig {
  Nout : Z;
  max_time : R
}.

(** The values [__init__] gives them. *)
Definition default_config : config := mkConfig 10000 (1.0e6 * 2.0 * PI).

Definition set_Nout (new_Nout : Z) (c : config) : config :=
  mkConfig new_Nout (max_time c).

Definition set_Nstars (new_Nstars : Z) (s : state) : state :=
  mkState new_Nstars (Nfrag s) (posx s) (posy s) (posz s) (star_masses s)
          (star_radii s) (tidal_radii s) (orbital_vels s) (sfindices s)
          (particles s).

Definition set_Nfrag (new_Nfrag : Z) (s : state) : state :=
  mkState (Nstars s) new_Nfrag (posx s) (posy s) (posz s) (star_masses s)
          (star_radii s) (tidal_radii s) (orbital_vels s) (sfindices s)
          (particles s).

(** [np.log10] *)
Definition log10 (x : R) : R := ln x / ln 10.

(** [times]: [np.logspace(-17.0, stop, self.Nout - 1)] with [0] put in
    front by [np.insert(times, 0.0, 0)]; the position [0.0] is taken as
    the index [0], as the numpy of the code's time does. *)
Definition times (c : config) : pyres (list R) :=
  let stop := log10 (max_time c) in
  let* exponents := linspace (-17.0) stop (Nout c - 1) in
  Val (0 :: map (Rpower 10) exponents).

(** [1.0e4 * 2 * np.pi], the time between two disruptions. *)
Definition interval : R := 1.0e4 * 2 * PI.

Definition epsilon : R := 0.1 * (1.0e4 * 2 * PI).

Definition exit_max_distance (u : units) : R := 15.0 * sim_constants.scale u.

(** [a % m] on floats, for [m > 0]. *)
Definition py_fmod (a m : R) : R := a - IZR (Int_part (a / m)) * m.

(** The condition of [if] at lines 222-224. *)
Definition disruption_due (time : R) (star_count nstars : Z) : bool :=
  (if Rlt_dec (py_fmod time interval) epsilon then true else false)
  && (if Rlt_dec interval time then true else false)
  && negb (star_count =? nstars)%Z.

(** The body of the [try] of the handler of [rebound.Escape], for one
    [j]. *)
Definition escape_check (u : units) (j : Z) : M unit :=
  ps <- get particles ;;
  p <- lift (getitem ps j) ;;
  let d2 := p_x p * p_x p + p_y p * p_y p + p_z p * p_z p in
  if Rlt_dec (exit_max_distance u ^ 2) d2 then
    reb_remove j ;;
    remove_fragment_record j ;;
    raise StopIteration
  else ret tt.

(** [for j in range(reb_sim.N)] of the handler: no index is skipped. *)
Fixpoint escape_loop (u : units) (indices : list Z) : M unit :=
  match indices with
  | [] => ret tt
  | j :: rest =>
      fun s =>
        match escape_check u j s with
        | (Val _, s') => escape_loop u rest s'
        | (Exc StopIteration, s') => (Val tt, s')
        | (Exc e, s') => (Exc e, s')
        end
  end.

Definition escape_scan (u : units) : M unit :=
  n <- get N ;;
  escape_loop u (range n).

(** One pass of [for ti, time in enumerate(tqdm(times))]; the value is
    [star_count] when the pass ends. *)
Definition iteration (E : externals) (u : units)
           (integrate : R -> list particle -> advance)
           (d : draws) (time : R) (star_count : Z) : M Z :=
  fun s =>
    match integrate time (particles s) with
    | Advanced ps =>
        (star_count' <-
           (if disruption_due time star_count (Nstars s)
            then star_disrupt E u d time ;; ret (star_count + 1)%Z
            else ret star_count) ;;
         bound_scan u ;;
         record_fragment_positions u ;;
         ret star_count') (set_particles ps s)
    | Escaped ps =>
        (escape_scan u ;;
         record_fragment_positions u ;;
         ret star_count) (set_particles ps s)
    end.

(** The loop over the scheduled times; [later ti] holds the draws of the
    disruption of pass [ti], if there is one. *)
Fixpoint integration_loop (E : externals) (u : units)
         (integrate : R -> list particle -> advance)
         (later : nat -> draws) (ti : nat) (ts : list R) (star_count : Z)
  : M Z :=
  match ts with
  | [] => ret star_count
  | time :: rest =>
      star_count' <- iteration E u integrate (later ti) time star_count ;;
      integration_loop E u integrate later (S ti) rest star_count'
  end.

Definition sim_integrate (E : externals) (u : units)
           (integrate : R -> list particle -> advance) (c : config)
           (first : draws) (later : nat -> draws) : M unit :=
  modify sim_setup ;;
  ts <- lift (times c) ;;
  star_disrupt E u first 0 ;;
  _ <- integration_loop E u integrate later 0 ts 1%Z ;;
  ret tt.

End SimIntegrate.
(** ** Vocabulary of the statements about [sim_integrate] *)

(** The rows of a trajectory array agree with the boundaries: the row of a
    disrupted star holds one track per fragment the star still has, the
    row of a star not yet disrupted holds [nfrag] tracks. *)
Definition rows_match (nfrag : Z) (sf : list Z)
           (pos : list (list (list R))) : Prop :=
  forall (k : nat) (row : list (list R)),
    nth_error pos k = Some row ->
    match nth_error sf k, nth_error sf (S k) with
    | Some a, Some b => len row = b - a
    | _, _ => len row = nfrag
    end.

(** The book-keeping of the integrator is in step with its simulation. *)
Definition kept (s : state) : Prop :=
  sf_core s /\
  nth_error (sfindices s) (next_star s) = Some (N s - 1) /\
  (exists p, nth_error (particles s) 0 = Some p /\ Accel.at_origin p) /\
  0 <= Nfrag s /\
  (next_star s <= Z.to_nat (Nstars s))%nat /\
  (forall pos, In pos [posx s; posy s; posz s] ->
     length pos = Z.to_nat (Nstars s) /\
     rows_match (Nfrag s) (sfindices s) pos).

(** What the class relies on from the integrator: it neither adds nor
    drops particles and leaves the central body where it is. *)
Definition moved (a : advance) : list particle :=
  match a with
  | Advanced ps => ps
  | Escaped ps => ps
  end.

Definition integrator_ok (integrate : R -> list particle -> advance) : Prop :=
  forall (t : R) (ps : list particle),
    length (moved (integrate t ps)) = length ps /\
    nth_error (moved (integrate t ps)) 0 = nth_error ps 0.

(** The body of the loop of [record_fragment_positions], for one pair of
    [enumerate(reb_sim.particles)]. *)
Definition record_one (u : units) (ip : Z * particle) : M unit :=
  let '(pi, p) := ip in
  if pi =? 0 then ret tt
  else
    sf <- get sfindices ;;
    i <- lift (owner sf pi) ;;
    prev <- lift (getitem sf (i - 1)) ;;
    let frag := pi - prev - 1 in
    let star := i - 1 in
    px <- get posx ;;
    px' <- lift (append_record px star frag
                               (p_x p / sim_constants.scale u)%R) ;;
    modify (set_posx px') ;;
    py <- get posy ;;
    py' <- lift (append_record py star frag
                               (p_y p / sim_constants.scale u)%R) ;;
    modify (set_posy py') ;;
    pz <- get posz ;;
    pz' <- lift (append_record pz star frag
                               (p_z p / sim_constants.scale u)%R) ;;
    modify (set_posz pz').

(** The number of positions a trajectory array holds. *)
Definition samples (pos : list (list (list R))) : nat :=
  list_sum (map (fun row => list_sum (map (@length R) row)) pos).

(** An integrator that leaves every particle where it is. *)
Definition stand_still (t : R) (ps : list particle) : advance := Advanced ps.

(** [d2 > reb_sim.exit_max_distance**2] of the [rebound.Escape]
    handler. *)
Definition beyond (u : units) (p : particle) : bool :=
  if Rlt_dec (SimIntegrate.exit_max_distance u ^ 2)
             (p_x p * p_x p + p_y p * p_y p + p_z p * p_z p)%R
  then true else false.

(** A state in which the second fragment has left the region. *)
Definition far_away : particle := mkParticle 0 1.0e12 0 0 0 0 0.

Definition one_escaped : state :=
  set_particles [hole; slow_1; far_away] two_slow_fragments.

(** The sample functions, with the energies drawn by
    [dMdEdist.energy_spread] from the sample tables. *)
Definition module_externals : externals :=
  mkExternals (fun _ => 1%R) (fun _ => 1%R) (fun _ _ => 0.74%R)
              (fun _ => 1%R)
              (dMdEdist.energy_spread sample_tables).

(** [point > 0] of the class body of [dMdEdist_init]. *)
Definition is_positive (point : R) : bool :=
  if Rlt_dec 0 point then true else false.

(** ** The sampler of the repository *)


(** The states an integrator is in after any sequence of calls of
    [star_disrupt], of the call pair that removes a fragment and of
    [remove_fragment_record] on a fragment index, whether a call returns
    or raises; [reachable] keeps the calls that return. *)
Inductive visited (E : externals) (u : units) (Nstars0 Nfrag0 : Z)
  : state -> Prop :=
| visit_init :
    visited E u Nstars0 Nfrag0 (sim_setup (init Nstars0 Nfrag0))
| visit_disrupt (s s' : state) (d : draws) (time : R) (r : pyres unit) :
    visited E u Nstars0 Nfrag0 s ->
    star_disrupt E u d time s = (r, s') ->
    visited E u Nstars0 Nfrag0 s'
| visit_remove (s s' : state) (index : Z) (r : pyres unit) :
    visited E u Nstars0 Nfrag0 s ->
    1 <= index ->
    remove_fragment index s = (r, s') ->
    visited E u Nstars0 Nfrag0 s'
| visit_remove_record (s s' : state) (index : Z) (r : pyres unit) :
    visited E u Nstars0 Nfrag0 s ->
    1 <= index ->
    remove_fragment_record index s = (r, s') ->
    visited E u Nstars0 Nfrag0 s'.


(** A computation that changes [sfindices] only when it returns. *)
Definition keeps_sfindices_on_error {A : Type} (c : M A) : Prop :=
  forall (s s' : state) (e : exn),
    c s = (Exc e, s') -> sfindices s' = sfindices s.

(** ** Vocabulary of the statements about the trajectory arrays *)

(** [pos[k][f]], when there is such a track. *)
Definition track (pos : list (list (list R))) (k f : nat) : option (list R) :=
  match nth_error pos k with
  | Some row => nth_error row f
  | None => None
  end.

(** The particle of index [pi] is the fragment [f] of the star of row [k]:
    [record_fragment_positions] finds [star = k] and [frag = f] for it. *)
Definition lands (sf : list Z) (k f : nat) (pi : Z) : bool :=
  negb (pi =? 0) &&
  match owner sf pi, nth_error sf k with
  | Val i, Some a => (i =? Z.of_nat (S k)) && (pi - a - 1 =? Z.of_nat f)
  | _, _ => false
  end.

(** The coordinates [record_fragment_positions] appends to the track
    [pos[k][f]] while it goes through the pairs [l]; [c] picks the
    coordinate. *)
Definition appended (c : particle -> R) (u : units) (sf : list Z)
           (l : list (Z * particle)) (k f : nat) : list R :=
  map (fun ip => (c (snd ip) / sim_constants.scale u)%R)
      (filter (fun ip => lands sf k f (fst ip)) l).

(* ================================================================= *)
(** * Part II: properties                                             *)
(* ================================================================= *)

(** ** Python lists *)

Lemma len_nonneg {A : Type} (l : list A) : 0 <= len l.
Proof. unfold len. lia. Qed.

Lemma norm_index_nonneg (n i : Z) :
  0 <= i < n -> norm_index n i = Some (Z.to_nat i).
Proof.
  intros H. unfold norm_index.
  replace ((0 <=? i) && (i <? n)) with true; [reflexivity|].
  symmetry. apply andb_true_intro. split; lia.
Qed.

Lemma getitem_nonneg {A : Type} (l : list A) (i : Z) (a : A) :
  0 <= i -> nth_error l (Z.to_nat i) = Some a -> getitem l i = Val a.
Proof.
  intros Hi H. unfold getitem.
  assert (Hlt : (Z.to_nat i < length l)%nat)
    by (apply nth_error_Some; congruence).
  rewrite norm_index_nonneg by (unfold len; lia).
  now rewrite H.
Qed.

Lemma getitem_Val_nonneg {A : Type} (l : list A) (i : Z) (a : A) :
  0 <= i -> getitem l i = Val a -> nth_error l (Z.to_nat i) = Some a.
Proof.
  intros Hi. unfold getitem, norm_index.
  destruct ((0 <=? i) && (i <? len l)) eqn:H1.
  - destruct (nth_error l (Z.to_nat i)); congruence.
  - replace (i <? 0) with false by lia. simpl. discriminate.
Qed.

Lemma nth_error_set_nth {A : Type} (k j : nat) (a : A) (l : list A) :
  nth_error (set_nth k a l) j =
  if Nat.eqb j k then (if Nat.ltb k (length l) then Some a else None)
  else nth_error l j.
Proof.
  revert k j. induction l as [|h t IH]; intros k j.
  - simpl. destruct (Nat.eqb j k), j, k; reflexivity.
  - destruct k, j; simpl; try reflexivity.
    rewrite IH. destruct (Nat.eqb j k); reflexivity.
Qed.

Lemma length_remove_nth {A : Type} (k : nat) (l : list A) :
  (k < length l)%nat -> S (length (remove_nth k l)) = length l.
Proof.
  intros H. unfold remove_nth.
  rewrite length_app, length_firstn, length_skipn. lia.
Qed.

Lemma length_range (n : Z) : length (range n) = Z.to_nat n.
Proof. unfold range. now rewrite length_map, length_seq. Qed.
Lemma next_enumerate_Val (P : Z -> bool) (l : list Z) (k i : Z) :
  next_enumerate P l k = Val i ->
  exists n : nat,
    i = k + Z.of_nat n /\
    (exists v, nth_error l n = Some v /\ P v = true) /\
    (forall m v, (m < n)%nat -> nth_error l m = Some v -> P v = false).
Proof.
  revert k. induction l as [|h t IH]; intros k H; simpl in H.
  - discriminate.
  - destruct (P h) eqn:Ph.
    + inversion H; subst. exists 0%nat. split; [lia|]. split.
      * exists h. auto.
      * intros m v Hm. lia.
    + apply IH in H as (n & Hi & (v & Hv & Pv) & Hbefore).
      exists (S n). split; [lia|]. split.
      * exists v. auto.
      * intros [|m] w Hm Hw; simpl in Hw.
        -- congruence.
        -- apply (Hbefore m); [lia | assumption].
Qed.

Lemma next_enumerate_Exc (P : Z -> bool) (l : list Z) (k : Z) (e : exn) :
  next_enumerate P l k = Exc e -> e = StopIteration.
Proof.
  revert k. induction l as [|h t IH]; intros k H; simpl in H.
  - congruence.
  - destruct (P h); [discriminate | eauto].
Qed.

Lemma owner_Val (sf : list Z) (pi i : Z) :
  owner sf pi = Val i ->
  0 <= i /\
  (exists v, nth_error sf (Z.to_nat i) = Some v /\ pi <= v) /\
  (forall m v, (m < Z.to_nat i)%nat -> nth_error sf m = Some v -> v < pi).
Proof.
  unfold owner. intros H.
  apply next_enumerate_Val in H as (n & Hi & (v & Hv & Pv) & Hbefore).
  simpl in Hi. subst i. rewrite Nat2Z.id. split; [lia|]. split.
  - exists v. split; [assumption|]. apply orb_prop in Pv. lia.
  - intros m w Hm Hw. specialize (Hbefore m w Hm Hw).
    apply orb_false_elim in Hbefore. lia.
Qed.

Lemma length_decrement_from (i : Z) (sf : list Z) :
  length (decrement_from i sf) = length sf.
Proof.
  unfold decrement_from.
  rewrite length_app, length_map, <- length_app, firstn_skipn. reflexivity.
Qed.

Lemma nth_error_decrement_from (i : Z) (sf : list Z) (j : nat) :
  nth_error (decrement_from i sf) j =
  if (j <? Z.to_nat i)%nat then nth_error sf j
  else option_map (fun v => v - 1) (nth_error sf j).
Proof.
  unfold decrement_from. set (n := Z.to_nat i).
  destruct (Nat.ltb_spec j n) as [Hlt|Hge].
  - destruct (Nat.lt_ge_cases j (length sf)) as [Hj|Hj].
    + rewrite nth_error_app1 by (rewrite length_firstn; lia).
      now rewrite nth_error_firstn, (proj2 (Nat.ltb_lt j n)).
    + rewrite (proj2 (nth_error_None sf j)) by lia.
      apply nth_error_None.
      rewrite length_app, length_map, <- length_app, firstn_skipn. lia.
  - destruct (Nat.lt_ge_cases n (length sf)) as [Hn|Hn].
    + rewrite nth_error_app2 by (rewrite length_firstn; lia).
      rewrite length_firstn, Nat.min_l by lia.
      rewrite nth_error_map, nth_error_skipn.
      replace (n + (j - n))%nat with j by lia. reflexivity.
    + rewrite firstn_all2, skipn_all2 by lia. simpl. rewrite app_nil_r.
      rewrite (proj2 (nth_error_None sf j)) by lia. reflexivity.
Qed.
Lemma getitem_Exc {A : Type} (l : list A) (i : Z) (e : exn) :
  getitem l i = Exc e -> e = IndexError.
Proof.
  unfold getitem. destruct (norm_index (len l) i) as [k|]; [|congruence].
  destruct (nth_error l k); congruence.
Qed.

Lemma pop_Exc {A : Type} (l : list A) (i : Z) (e : exn) :
  pop l i = Exc e -> e = IndexError.
Proof.
  unfold pop. destruct (norm_index (len l) i) as [k|]; [|congruence].
  destruct (nth_error l k); congruence.
Qed.

Lemma setitem_Exc {A : Type} (l : list A) (i : Z) (a : A) (e : exn) :
  setitem l i a = Exc e -> e = IndexError.
Proof.
  unfold setitem. destruct (norm_index (len l) i); congruence.
Qed.

Lemma pop_record_Exc (pos : list (list (list R))) (star k : Z) (e : exn) :
  pop_record pos star k = Exc e -> e = IndexError.
Proof.
  unfold pop_record, pbind.
  destruct (getitem pos star) as [row|e0] eqn:Hrow.
  - destruct (pop row k) as [popped|e1] eqn:Hpop.
    + apply setitem_Exc.
    + intros H. inversion H; subst. eapply pop_Exc; eassumption.
  - intros H. inversion H; subst. eapply getitem_Exc; eassumption.
Qed.

Lemma pop_record_Val (pos pos' : list (list (list R))) (star k : Z) :
  pop_record pos star k = Val pos' ->
  exists (n m : nat) (row : list (list R)),
    norm_index (len pos) star = Some n /\
    nth_error pos n = Some row /\
    norm_index (len row) k = Some m /\
    (m < length row)%nat /\
    pos' = set_nth n (remove_nth m row) pos.
Proof.
  unfold pop_record, pbind, getitem, pop, setitem.
  destruct (norm_index (len pos) star) as [n|] eqn:Hn; [|discriminate].
  destruct (nth_error pos n) as [row|] eqn:Hrow; [|discriminate].
  destruct (norm_index (len row) k) as [m|] eqn:Hm; [|discriminate].
  destruct (nth_error row m) as [x|] eqn:Hx; [|discriminate].
  simpl. intros H. inversion H; subst.
  exists n, m, row. repeat split; try assumption.
  apply nth_error_Some. congruence.
Qed.

Lemma decrement_from_non_decreasing (sf : list Z) (pi i : Z) :
  non_decreasing sf -> owner sf pi = Val i ->
  non_decreasing (decrement_from i sf).
Proof.
  intros Hsf Hown a b x y Ha Hb Hab.
  apply owner_Val in Hown as (Hi & (v & Hv & Hpv) & Hbefore).
  rewrite nth_error_decrement_from in Ha, Hb.
  destruct (Nat.ltb_spec a (Z.to_nat i)) as [Ha'|Ha'];
    destruct (Nat.ltb_spec b (Z.to_nat i)) as [Hb'|Hb']; try lia.
  - eapply Hsf; eassumption.
  - destruct (nth_error sf b) as [y0|] eqn:Hy0; [|discriminate].
    simpl in Hb. inversion Hb; subst y.
    specialize (Hbefore a x Ha' Ha).
    assert (v <= y0).
    { destruct (Nat.eq_dec (Z.to_nat i) b) as [Heq|Hne].
      - rewrite Heq in Hv. assert (v = y0) by congruence. lia.
      - apply (Hsf (Z.to_nat i) b); auto. lia. }
    lia.
  - destruct (nth_error sf a) as [x0|] eqn:Hx0; [|discriminate].
    destruct (nth_error sf b) as [y0|] eqn:Hy0; [|discriminate].
    simpl in Ha, Hb. inversion Ha; inversion Hb; subst.
    specialize (Hsf a b x0 y0 Hx0 Hy0 Hab). lia.
Qed.

Lemma decrement_from_head (sf : list Z) (pi i : Z) :
  1 <= pi -> nth_error sf 0 = Some 0 -> owner sf pi = Val i ->
  1 <= i /\ nth_error (decrement_from i sf) 0 = Some 0.
Proof.
  intros Hpi H0 Hown.
  apply owner_Val in Hown as (Hi & (v & Hv & Hpv) & Hbefore).
  assert (Hi1 : 1 <= i).
  { destruct (Z.eq_dec i 0) as [->|]; [|lia].
    change (Z.to_nat 0) with 0%nat in Hv.
    assert (v = 0) by congruence. lia. }
  split; [assumption|].
  rewrite nth_error_decrement_from.
  destruct (Nat.ltb_spec 0 (Z.to_nat i)); [assumption|lia].
Qed.

(** ** [remove_fragment_record] *)

Lemma remove_fragment_record_Val (pi : Z) (s s' : state) :
  remove_fragment_record pi s = (Val tt, s') ->
  exists i prev px py pz,
    owner (sfindices s) pi = Val i /\
    getitem (sfindices s) (i - 1) = Val prev /\
    pop_record (posx s) (i - 1) (pi - (prev + 1)) = Val px /\
    pop_record (posy s) (i - 1) (pi - (prev + 1)) = Val py /\
    pop_record (posz s) (i - 1) (pi - (prev + 1)) = Val pz /\
    s' = mkState (Nstars s) (Nfrag s) px py pz (star_masses s)
                 (star_radii s) (tidal_radii s) (orbital_vels s)
                 (decrement_from i (sfindices s)) (particles s).
Proof.
  unfold remove_fragment_record, bind, get, lift, modify. simpl.
  destruct (owner (sfindices s) pi) as [i|e] eqn:Hi; [|discriminate].
  destruct (getitem (sfindices s) (i - 1)) as [prev|e] eqn:Hp; [|discriminate].
  destruct (pop_record (posx s) _ _) as [px|e] eqn:Hx; [|discriminate].
  simpl.
  destruct (pop_record (posy s) _ _) as [py|e] eqn:Hy; [|discriminate].
  simpl.
  destruct (pop_record (posz s) _ _) as [pz|e] eqn:Hz; [|discriminate].
  simpl. intros H. inversion H; subst.
  exists i, prev, px, py, pz. repeat split; assumption.
Qed.

Lemma remove_fragment_record_Exc (pi : Z) (s s' : state) (e : exn) :
  remove_fragment_record pi s = (Exc e, s') ->
  (e = StopIteration \/ e = IndexError) /\
  sfindices s' = sfindices s /\ particles s' = particles s /\
  orbital_vels s' = orbital_vels s.
Proof.
  unfold remove_fragment_record, bind, get, lift, modify. simpl.
  destruct (owner (sfindices s) pi) as [i|e0] eqn:Hi.
  2:{ intros H. inversion H; subst.
      apply next_enumerate_Exc in Hi. auto. }
  destruct (getitem (sfindices s) (i - 1)) as [prev|e0] eqn:Hp.
  2:{ intros H. inversion H; subst. apply getitem_Exc in Hp. auto. }
  destruct (pop_record (posx s) _ _) as [px|e0] eqn:Hx.
  2:{ intros H. inversion H; subst. apply pop_record_Exc in Hx. auto. }
  simpl.
  destruct (pop_record (posy s) _ _) as [py|e0] eqn:Hy.
  2:{ intros H. inversion H; subst. apply pop_record_Exc in Hy. auto. }
  simpl.
  destruct (pop_record (posz s) _ _) as [pz|e0] eqn:Hz.
  2:{ intros H. inversion H; subst. apply pop_record_Exc in Hz. auto. }
  simpl. discriminate.
Qed.

(** ** [reb_sim.remove] *)

Lemma reb_remove_Val (index : Z) (s s' : state) :
  reb_remove index s = (Val tt, s') ->
  0 <= index < N s /\
  s' = set_particles (remove_nth (Z.to_nat index) (particles s)) s /\
  N s' = N s - 1.
Proof.
  unfold reb_remove.
  destruct ((0 <=? index) && (index <? N s)) eqn:Hb; [|discriminate].
  apply andb_prop in Hb as [Ha Hb]. intros H. inversion H; subst.
  split; [lia|]. split; [reflexivity|].
  unfold N, len in *. simpl.
  assert (Hlt : (Z.to_nat index < length (particles s))%nat) by lia.
  apply length_remove_nth in Hlt. lia.
Qed.

Lemma reb_remove_Exc (index : Z) (s s' : state) (e : exn) :
  reb_remove index s = (Exc e, s') -> e = RuntimeError /\ s' = s.
Proof.
  unfold reb_remove.
  destruct ((0 <=? index) && (index <? N s)); [discriminate|].
  intros H. inversion H; auto.
Qed.

(** ** Inversion of the monad's operations *)

Lemma bind_Val {A B : Type} (m : M A) (k : A -> M B) (s s' : state) (b : B) :
  bind m k s = (Val b, s') ->
  exists a s1, m s = (Val a, s1) /\ k a s1 = (Val b, s').
Proof.
  unfold bind. destruct (m s) as [[a|e] s1]; [eauto | discriminate].
Qed.

Lemma modify_Val (f : state -> state) (s s' : state) (x : unit) :
  modify f s = (Val x, s') -> s' = f s.
Proof. unfold modify. congruence. Qed.

Lemma get_Val {A : Type} (f : state -> A) (s s' : state) (a : A) :
  get f s = (Val a, s') -> a = f s /\ s' = s.
Proof. unfold get. intros H. inversion H; auto. Qed.

Lemma lift_Val {A : Type} (r : pyres A) (s s' : state) (a : A) :
  lift r s = (Val a, s') -> r = Val a /\ s' = s.
Proof. unfold lift. intros H. inversion H; auto. Qed.

Ltac minv :=
  repeat match goal with
  | H : bind _ _ _ = (Val _, _) |- _ =>
      apply bind_Val in H; destruct H as (? & ? & ? & H); cbv beta in H
  | H : modify _ _ = (Val _, _) |- _ => apply modify_Val in H; subst
  | H : get _ _ = (Val _, _) |- _ =>
      apply get_Val in H; destruct H as [? ?]; subst
  | H : lift _ _ = (Val _, _) |- _ =>
      apply lift_Val in H; destruct H as [H ?]; subst
  end.

(** ** [star_disrupt] *)

Lemma add_fragment_Val (vels rads : list R) (r_t : R) (sd vd : vec)
      (frag : Z) (s s' : state) :
  add_fragment vels rads r_t sd vd frag s = (Val tt, s') ->
  exists p, s' = set_particles (particles s ++ [p]) s.
Proof.
  unfold add_fragment, reb_add. intros H. minv. eauto.
Qed.

Lemma add_fragments_Val (vels rads : list R) (r_t : R) (sd vd : vec)
      (frags : list Z) (s s' : state) :
  for_each frags (add_fragment vels rads r_t sd vd) s = (Val tt, s') ->
  exists new,
    length new = length frags /\
    s' = set_particles (particles s ++ new) s.
Proof.
  revert s. induction frags as [|frag rest IH]; intros s; simpl.
  - unfold ret. intros H. inversion H; subst. exists []. split; [reflexivity|].
    rewrite app_nil_r. destruct s'; reflexivity.
  - intros H. apply bind_Val in H as ([] & s1 & H1 & H).
    apply add_fragment_Val in H1 as [p ->].
    apply IH in H as (new & Hlen & ->). exists (p :: new). split.
    + simpl. congruence.
    + simpl. rewrite <- app_assoc. reflexivity.
Qed.

Lemma star_disrupt_Val (E : externals) (u : units) (d : draws) (time : R)
      (s s' : state) :
  star_disrupt E u d time s = (Val tt, s') ->
  exists (m_star r_star r_t ov : R) (new : list particle),
    0 <= Nfrag s /\
    len new = Nfrag s /\
    s' = mkState (Nstars s) (Nfrag s) (posx s) (posy s) (posz s)
                 (star_masses s ++ [m_star]) (star_radii s ++ [r_star])
                 (tidal_radii s ++ [r_t]) (orbital_vels s ++ [ov])
                 (sfindices s ++ [N s + Nfrag s - 1])
                 (particles s ++ new).
Proof.
  unfold star_disrupt. cbv zeta. intros H. minv.
  repeat match goal with x : unit |- _ => destruct x end.
  match goal with
  | H : for_each _ _ _ = _ |- _ =>
      apply add_fragments_Val in H; destruct H as (new & Hlen & ->)
  end.
  rewrite length_range in Hlen. simpl in *.
  assert (Hnf : 0 <= Nfrag s).
  { destruct (Z.lt_ge_cases (Nfrag s) 0) as [Hneg|]; [|assumption].
    exfalso.
    match goal with Hpop : pop _ 0 = Val _ |- _ =>
      unfold pop, range in Hpop;
      replace (Z.to_nat (Nfrag s + 1)) with 0%nat in Hpop by lia;
      simpl in Hpop; discriminate
    end. }
  do 4 eexists. exists new. split; [assumption|]. split.
  - unfold len. lia.
  - unfold set_sfindices, set_particles. simpl.
    f_equal. f_equal. f_equal. unfold N, len. simpl.
    rewrite length_app. lia.
Qed.

(** ** Forward rules: when the operations return *)

Lemma next_enumerate_app_last (P : Z -> bool) (l : list Z) (x k : Z) :
  (forall v, In v l -> P v = false) -> P x = true ->
  next_enumerate P (l ++ [x]) k = Val (k + len l).
Proof.
  revert k. induction l as [|h t IH]; intros k Hl Hx; simpl.
  - rewrite Hx. f_equal. unfold len. simpl. lia.
  - rewrite (Hl h) by (left; reflexivity).
    rewrite IH by (intros; auto using in_cons).
    f_equal. unfold len. simpl length. lia.
Qed.

Lemma owner_app_last (sf : list Z) (x pi : Z) :
  (forall v, In v sf -> v < pi) -> pi <= x ->
  owner (sf ++ [x]) pi = Val (len sf).
Proof.
  intros Hsf Hx. unfold owner.
  rewrite next_enumerate_app_last; [reflexivity| |].
  - intros v Hv. specialize (Hsf v Hv). apply orb_false_intro; lia.
  - apply orb_true_intro.
    destruct (Z.eq_dec x pi); [right|left]; lia.
Qed.

Lemma decrement_from_app_last (sf : list Z) (x : Z) :
  decrement_from (len sf) (sf ++ [x]) = sf ++ [x - 1].
Proof.
  unfold decrement_from, len. rewrite Nat2Z.id.
  rewrite firstn_app, firstn_all, Nat.sub_diag. simpl.
  rewrite skipn_app, skipn_all, Nat.sub_diag. simpl.
  now rewrite app_nil_r.
Qed.

Lemma set_nth_same {A : Type} (n : nat) (a : A) (l : list A) :
  nth_error l n = Some a -> set_nth n a l = l.
Proof.
  revert n. induction l as [|h t IH]; intros [|n] H; simpl in *;
    try discriminate.
  - congruence.
  - f_equal. auto.
Qed.

Lemma set_nth_set_nth {A : Type} (n : nat) (a b : A) (l : list A) :
  set_nth n a (set_nth n b l) = set_nth n a l.
Proof.
  revert n. induction l as [|h t IH]; intros [|n]; simpl; try reflexivity.
  f_equal. apply IH.
Qed.

Lemma nth_error_set_nth_eq {A : Type} (n : nat) (a : A) (l : list A) :
  (n < length l)%nat -> nth_error (set_nth n a l) n = Some a.
Proof.
  intros H. rewrite nth_error_set_nth, Nat.eqb_refl.
  now rewrite (proj2 (Nat.ltb_lt _ _) H).
Qed.

Lemma pop_record_ok (pos : list (list (list R))) (n : nat)
      (row : list (list R)) (k : Z) :
  nth_error pos n = Some row -> 0 <= k < len row ->
  pop_record pos (Z.of_nat n) k =
  Val (set_nth n (remove_nth (Z.to_nat k) row) pos).
Proof.
  intros Hrow Hk. unfold pop_record, pbind.
  rewrite (getitem_nonneg pos (Z.of_nat n) row)
    by (rewrite ?Nat2Z.id; auto; lia).
  destruct (nth_error row (Z.to_nat k)) as [x|] eqn:Hx.
  2:{ apply nth_error_None in Hx. unfold len in Hk. lia. }
  unfold pop. rewrite norm_index_nonneg by assumption. rewrite Hx.
  unfold setitem. simpl snd.
  rewrite norm_index_nonneg.
  - now rewrite Nat2Z.id.
  - assert (n < length pos)%nat by (apply nth_error_Some; congruence).
    unfold len. lia.
Qed.

Lemma remove_fragment_record_ok (pi i prev : Z) (s : state)
      (px py pz : list (list (list R))) :
  owner (sfindices s) pi = Val i ->
  getitem (sfindices s) (i - 1) = Val prev ->
  pop_record (posx s) (i - 1) (pi - (prev + 1)) = Val px ->
  pop_record (posy s) (i - 1) (pi - (prev + 1)) = Val py ->
  pop_record (posz s) (i - 1) (pi - (prev + 1)) = Val pz ->
  remove_fragment_record pi s =
  (Val tt,
   mkState (Nstars s) (Nfrag s) px py pz (star_masses s) (star_radii s)
           (tidal_radii s) (orbital_vels s)
           (decrement_from i (sfindices s)) (particles s)).
Proof.
  intros Hown Hprev Hx Hy Hz.
  unfold remove_fragment_record, bind, get, lift, modify. simpl.
  rewrite Hown, Hprev, Hx. simpl. rewrite Hy. simpl. rewrite Hz.
  reflexivity.
Qed.

Lemma reb_remove_ok (index : Z) (s : state) :
  0 <= index < N s ->
  reb_remove index s =
  (Val tt, set_particles (remove_nth (Z.to_nat index) (particles s)) s).
Proof.
  intros H. unfold reb_remove.
  replace ((0 <=? index) && (index <? N s)) with true; [reflexivity|].
  symmetry. apply andb_true_intro. split; lia.
Qed.

(** ** The boundary list stays ordered *)

Lemma non_decreasing_app (l : list Z) (x : Z) :
  non_decreasing l -> (forall v, In v l -> v <= x) ->
  non_decreasing (l ++ [x]).
Proof.
  intros Hl Hx i j a b Ha Hb Hij.
  destruct (Nat.lt_ge_cases j (length l)) as [Hj|Hj].
  - rewrite nth_error_app1 in Ha, Hb by lia. eapply Hl; eassumption.
  - assert (Hjl : j = length l).
    { assert (j < length (l ++ [x]))%nat
        by (apply nth_error_Some; congruence).
      rewrite length_app in *. simpl in *. lia. }
    subst j. rewrite nth_error_app1 in Ha by lia.
    rewrite nth_error_app2, Nat.sub_diag in Hb by lia.
    simpl in Hb. inversion Hb; subst. apply Hx.
    eapply nth_error_In; eassumption.
Qed.

Lemma decrement_from_bound (sf : list Z) (pi i B : Z) :
  owner sf pi = Val i ->
  (forall v, In v sf -> v <= B) ->
  forall v, In v (decrement_from i sf) -> v <= B - 1.
Proof.
  intros Hown Hb v Hv.
  apply owner_Val in Hown as (Hi & (w & Hw & Hpw) & Hbefore).
  apply In_nth_error in Hv as [j Hj].
  rewrite nth_error_decrement_from in Hj.
  assert (HwB : w <= B) by (apply Hb; eapply nth_error_In; eassumption).
  destruct (Nat.ltb_spec j (Z.to_nat i)) as [Hlt|Hge].
  - specialize (Hbefore j v Hlt Hj). lia.
  - destruct (nth_error sf j) as [x|] eqn:Hx; [|discriminate].
    simpl in Hj. inversion Hj; subst.
    assert (x <= B) by (apply Hb; eapply nth_error_In; eassumption). lia.
Qed.

Lemma sf_invariant_init (Nstars0 Nfrag0 : Z) :
  sf_invariant (sim_setup (init Nstars0 Nfrag0)).
Proof.
  unfold sf_invariant, sf_core, sim_setup, init, N, len. simpl.
  repeat split; try reflexivity.
  - intros [|i] [|j] a b Ha Hb Hij; simpl in *; try lia;
      destruct j; discriminate.
  - intros v [<-|[]]. lia.
Qed.

Lemma sf_invariant_disrupt (E : externals) (u : units) (d : draws)
      (time : R) (s s' : state) :
  sf_invariant s -> star_disrupt E u d time s = (Val tt, s') ->
  sf_invariant s'.
Proof.
  intros ((Hnd & H0 & Hlen & Hov) & Hb) H.
  apply star_disrupt_Val in H
    as (m_star & r_star & r_t & ov & new & Hnf & Hnew & ->).
  unfold sf_invariant, sf_core, N, len in *. simpl.
  rewrite !length_app. simpl. repeat split.
  - apply non_decreasing_app; [assumption|].
    intros v Hv. specialize (Hb v Hv). lia.
  - destruct (sfindices s); [discriminate | assumption].
  - lia.
  - lia.
  - intros v Hv. apply in_app_or in Hv as [Hv|[<-|[]]].
    + specialize (Hb v Hv). lia.
    + lia.
Qed.

Lemma sf_core_remove_record (index B : Z) (s s' : state) :
  1 <= index -> sf_core s ->
  (forall v, In v (sfindices s) -> v <= B) ->
  remove_fragment_record index s = (Val tt, s') ->
  sf_core s' /\ particles s' = particles s /\
  (forall v, In v (sfindices s') -> v <= B - 1).
Proof.
  intros Hidx (Hnd & H0 & Hlen & Hov) Hb H.
  apply remove_fragment_record_Val in H
    as (i & prev & px & py & pz & Hown & Hprev & Hx & Hy & Hz & ->).
  unfold sf_core. simpl. repeat split; try assumption.
  - eapply decrement_from_non_decreasing; eassumption.
  - eapply decrement_from_head; eassumption.
  - rewrite length_decrement_from. assumption.
  - eapply decrement_from_bound; eassumption.
Qed.

Lemma reachable_sf_invariant (E : externals) (u : units)
      (Nstars0 Nfrag0 : Z) (s : state) :
  reachable E u Nstars0 Nfrag0 s -> sf_invariant s.
Proof.
  induction 1 as [|s s' d time Hr IH Hd|s s' index Hr IH Hi Hrm
                  |s s' index Hr IH Hi Hrm].
  - apply sf_invariant_init.
  - eapply sf_invariant_disrupt; eassumption.
  - unfold remove_fragment in Hrm.
    apply bind_Val in Hrm as ([] & s1 & H1 & H2).
    apply reb_remove_Val in H1 as (Hrange & -> & HN).
    destruct IH as (Hcore & Hb).
    apply (sf_core_remove_record index (N s - 1)) in H2;
      [|assumption|exact Hcore|exact Hb].
    destruct H2 as (Hcore' & Hps & Hb'). split; [assumption|].
    intros v Hv. specialize (Hb' v Hv).
    unfold N in *. rewrite Hps. lia.
  - destruct IH as (Hcore & Hb).
    apply (sf_core_remove_record index (N s - 1)) in Hrm;
      [|assumption|exact Hcore|exact Hb].
    destruct Hrm as (Hcore' & Hps & Hb'). split; [assumption|].
    intros v Hv. specialize (Hb' v Hv).
    unfold N in *. rewrite Hps. lia.
Qed.


(** ** [star_disrupt] returns *)

Lemma bind_lift_Val {A B : Type} (r : pyres A) (a : A) (k : A -> M B)
      (s : state) :
  r = Val a -> bind (lift r) k s = k a s.
Proof. intros ->. reflexivity. Qed.

Lemma math_sqrt_ok (x : R) : (0 <= x)%R -> math_sqrt x = Val (sqrt x).
Proof.
  intros H. unfold math_sqrt. destruct (Rlt_dec x 0); [lra | reflexivity].
Qed.

Lemma mapM_ok {A B : Type} (f : A -> pyres B) (g : A -> B) (l : list A) :
  (forall a, In a l -> f a = Val (g a)) -> mapM f l = Val (map g l).
Proof.
  induction l as [|h t IH]; intros H; simpl; [reflexivity|].
  rewrite (H h) by (left; reflexivity). simpl.
  rewrite IH by (intros; apply H; right; assumption). reflexivity.
Qed.

Lemma pop_0 {A : Type} (h : A) (t : list A) : pop (h :: t) 0 = Val (h, t).
Proof.
  unfold pop. rewrite norm_index_nonneg.
  - reflexivity.
  - unfold len. simpl length. lia.
Qed.

Lemma range_succ (n : Z) :
  0 <= n -> range (n + 1) = 0 :: map (fun k => k + 1) (range n).
Proof.
  intros H. unfold range.
  replace (Z.to_nat (n + 1)) with (S (Z.to_nat n)) by lia.
  simpl. f_equal. rewrite <- seq_shift, !map_map.
  apply map_ext. intros a. lia.
Qed.

Lemma In_range (n k : Z) : In k (range n) <-> 0 <= k < n.
Proof.
  unfold range. rewrite in_map_iff. split.
  - intros (m & <- & Hm). apply in_seq in Hm. lia.
  - intros H. exists (Z.to_nat k). split; [lia|]. apply in_seq. lia.
Qed.

Lemma length_len_map {A B : Type} (f : A -> B) (l : list A) :
  len (map f l) = len l.
Proof. unfold len. now rewrite length_map. Qed.

Lemma len_range (n : Z) : 0 <= n -> len (range n) = n.
Proof. intros H. unfold len. rewrite length_range. lia. Qed.

Lemma getitem_in_range {A : Type} (l : list A) (i : Z) :
  0 <= i < len l -> exists a, getitem l i = Val a.
Proof.
  intros H. unfold getitem. rewrite norm_index_nonneg by assumption.
  destruct (nth_error l (Z.to_nat i)) as [a|] eqn:Ha; [eauto|].
  apply nth_error_None in Ha. unfold len in H. lia.
Qed.

Lemma add_fragments_ok (vels rads : list R) (r_t : R) (sd vd : vec)
      (frags : list Z) (s : state) :
  (forall f, In f frags -> 0 <= f < len vels /\ f < len rads) ->
  exists s', for_each frags (add_fragment vels rads r_t sd vd) s = (Val tt, s').
Proof.
  revert s. induction frags as [|frag rest IH]; intros s H; simpl.
  - eexists. reflexivity.
  - destruct (H frag (or_introl eq_refl)) as [Hv Hr].
    destruct (getitem_in_range vels frag Hv) as [vel Hvel].
    destruct (getitem_in_range rads frag) as [rad Hrad]; [lia|].
    unfold bind at 1. unfold add_fragment at 1.
    rewrite (bind_lift_Val _ _ _ _ Hvel). cbv zeta.
    rewrite (bind_lift_Val _ _ _ _ Hrad).
    unfold reb_add, modify.
    apply IH. intros f Hf. apply H. right. assumption.
Qed.

Open Scope R_scope.

Lemma ratio_le_1 (x y z : R) : z / sqrt (x ^ 2 + y ^ 2 + z ^ 2) <= 1.
Proof.
  set (q := x ^ 2 + y ^ 2 + z ^ 2).
  assert (Hq : 0 <= q) by (unfold q; nra).
  pose proof (sqrt_pos q) as Hr.
  pose proof (sqrt_sqrt q Hq) as Hrr.
  assert (Hz : z <= sqrt q) by (unfold q in *; nra).
  destruct (Req_dec (sqrt q) 0) as [H0|H0].
  - assert (z = 0) by (unfold q in *; nra). subst z.
    unfold Rdiv. rewrite Rmult_0_l. lra.
  - apply (Rmult_le_reg_r (sqrt q)); [lra|].
    unfold Rdiv. rewrite Rmult_assoc, Rinv_l by assumption. lra.
Qed.

Close Scope R_scope.

Lemma bind_ok {A B : Type} (m : M A) (k : A -> M B) (s s1 : state)
      (a : A) (b : B) :
  m s = (Val a, s1) ->
  (exists s', k a s1 = (Val b, s')) ->
  exists s', bind m k s = (Val b, s').
Proof. intros Hm [s' Hk]. exists s'. unfold bind. now rewrite Hm. Qed.

Lemma lift_ok {A : Type} (r : pyres A) (a : A) (s : state) :
  r = Val a -> lift r s = (Val a, s).
Proof. intros ->. reflexivity. Qed.

Lemma star_disrupt_ok (E : externals) (u : units) (d : draws) (time : R)
      (s : state) (NRGs : list R) :
  0 <= Nfrag s ->
  (u1 d ^ 2 <= 1)%R ->
  dmde_energy_spread E (beta_dist E (xbeta d)) (Nfrag s) = Val NRGs ->
  Nfrag s <= len NRGs ->
  (forall nrg, In nrg NRGs -> (0 <= radicand E u d nrg)%R) ->
  exists s', star_disrupt E u d time s = (Val tt, s').
Proof.
  intros Hnf Hu1 Hspread Hlen Hrad.
  unfold star_disrupt. cbv zeta.
  eapply bind_ok; [reflexivity|cbv beta].
  eapply bind_ok; [reflexivity|cbv beta].
  eapply bind_ok; [reflexivity|cbv beta].
  cbn [Nfrag set_star_radii set_star_masses].
  rewrite (range_succ _ Hnf). cbn [map].
  eapply bind_ok; [apply lift_ok, pop_0|cbv beta]. cbn [snd].
  eapply bind_ok; [reflexivity|cbv beta].
  eapply bind_ok; [reflexivity|cbv beta].
  eapply bind_ok; [apply lift_ok, math_sqrt_ok; lra|cbv beta].
  eapply bind_ok; [apply lift_ok, Hspread|cbv beta].
  eapply bind_ok.
  { apply lift_ok, mapM_ok. intros g Hg. apply math_sqrt_ok.
    apply in_map_iff in Hg as (nrg & <- & Hin). apply (Hrad nrg Hin). }
  cbv beta.
  eapply bind_ok.
  { apply lift_ok, math_sqrt_ok. unfold norm.
    match goal with
    | |- (0 <= 2.0 - 2.0 * ?z / sqrt (?x ^ 2 + ?y ^ 2 + ?z ^ 2))%R =>
        pose proof (ratio_le_1 x y z) as Hz
    end.
    unfold Rdiv in *. lra. }
  cbv beta.
  match goal with
  | |- exists _, bind (for_each ?l (add_fragment ?a ?b ?c ?e ?f)) _ ?st = _ =>
      destruct (add_fragments_ok a b c e f l st) as [s1 Hs1]
  end.
  { intros f Hf. apply In_range in Hf.
    rewrite !length_len_map, len_range by assumption. lia. }
  eapply bind_ok; [exact Hs1|cbv beta].
  eapply bind_ok; [reflexivity|cbv beta].
  eexists. reflexivity.
Qed.

(** ** Disrupting a star and removing all its fragments *)

Lemma remove_fragment_ok (pi i prev : Z) (s : state)
      (px py pz : list (list (list R))) :
  0 <= pi < N s ->
  owner (sfindices s) pi = Val i ->
  getitem (sfindices s) (i - 1) = Val prev ->
  pop_record (posx s) (i - 1) (pi - (prev + 1)) = Val px ->
  pop_record (posy s) (i - 1) (pi - (prev + 1)) = Val py ->
  pop_record (posz s) (i - 1) (pi - (prev + 1)) = Val pz ->
  remove_fragment pi s =
  (Val tt,
   mkState (Nstars s) (Nfrag s) px py pz (star_masses s) (star_radii s)
           (tidal_radii s) (orbital_vels s)
           (decrement_from i (sfindices s))
           (remove_nth (Z.to_nat pi) (particles s))).
Proof.
  intros Hpi Hown Hprev Hx Hy Hz. unfold remove_fragment, bind.
  rewrite (reb_remove_ok _ _ Hpi).
  rewrite (remove_fragment_record_ok pi i prev _ px py pz); auto.
Qed.

Lemma length_0_nil {A : Type} (l : list A) : length l = 0%nat -> l = [].
Proof. destruct l; [reflexivity | discriminate]. Qed.

Lemma remove_all_fragments (s : state) (pis : list Z) :
  nth_error (sfindices s) (next_star s) = Some (N s - 1) ->
  (forall v, In v (sfindices s) -> v <= N s - 1) ->
  (next_star s < length (posx s))%nat ->
  (next_star s < length (posy s))%nat ->
  (next_star s < length (posz s))%nat ->
  forall (rem : nat) (t : state) (rx ry rz : list (list R)),
    valid_removals (N s) rem pis ->
    sfindices t = sfindices s ++ [N s - 1 + Z.of_nat rem] ->
    N t = N s + Z.of_nat rem ->
    posx t = set_nth (next_star s) rx (posx s) -> length rx = rem ->
    posy t = set_nth (next_star s) ry (posy s) -> length ry = rem ->
    posz t = set_nth (next_star s) rz (posz s) -> length rz = rem ->
    exists t',
      for_each pis remove_fragment t = (Val tt, t') /\
      sfindices t' = sfindices s ++ [N s - 1] /\
      N t' = N s /\
      posx t' = set_nth (next_star s) [] (posx s) /\
      posy t' = set_nth (next_star s) [] (posy s) /\
      posz t' = set_nth (next_star s) [] (posz s) /\
      star_masses t' = star_masses t /\
      orbital_vels t' = orbital_vels t /\
      Nstars t' = Nstars t /\ Nfrag t' = Nfrag t.
Proof.
  intros Hlast Hbound Hpx Hpy Hpz.
  assert (Hne : (0 < length (sfindices s))%nat).
  { revert Hlast. unfold next_star.
    destruct (sfindices s); simpl; [discriminate | lia]. }
  assert (Hstar : Z.of_nat (next_star s) = len (sfindices s) - 1)
    by (unfold next_star, len; lia).
  induction pis as [|pi rest IH]; intros rem t rx ry rz Hvalid Hsf HN
      Hx Hrx Hy Hry Hz Hrz.
  - destruct rem; [|contradiction]. exists t. simpl.
    apply length_0_nil in Hrx, Hry, Hrz. subst rx ry rz.
    repeat split; try assumption; try reflexivity.
    + rewrite Hsf. do 2 f_equal. lia.
    + lia.
  - destruct rem as [|r]; [contradiction|]. destruct Hvalid as [Hpi Hrest].
    assert (Hown : owner (sfindices t) pi = Val (len (sfindices s))).
    { rewrite Hsf. apply owner_app_last.
      - intros v Hv. specialize (Hbound v Hv). lia.
      - lia. }
    assert (Hprev : getitem (sfindices t) (len (sfindices s) - 1)
                    = Val (N s - 1)).
    { rewrite Hsf. apply getitem_nonneg; [unfold len; lia|].
      rewrite <- Hstar, Nat2Z.id.
      rewrite nth_error_app1 by (unfold next_star; lia). assumption. }
    assert (Hpop : forall (pos0 : list (list (list R))) (row : list (list R)),
               (next_star s < length pos0)%nat -> length row = S r ->
               pop_record (set_nth (next_star s) row pos0)
                          (len (sfindices s) - 1) (pi - (N s - 1 + 1)) =
               Val (set_nth (next_star s)
                            (remove_nth (Z.to_nat (pi - (N s - 1 + 1))) row)
                            pos0)).
    { intros pos0 row Hlt Hrow. rewrite <- Hstar.
      rewrite (pop_record_ok _ _ row).
      - now rewrite set_nth_set_nth.
      - now apply nth_error_set_nth_eq.
      - unfold len. lia. }
    pose proof (Hpop (posx s) rx Hpx Hrx) as Hpopx.
    pose proof (Hpop (posy s) ry Hpy Hry) as Hpopy.
    pose proof (Hpop (posz s) rz Hpz Hrz) as Hpopz.
    rewrite <- Hx in Hpopx. rewrite <- Hy in Hpopy. rewrite <- Hz in Hpopz.
    assert (HpiN : 0 <= pi < N t) by (pose proof (len_nonneg (particles s));
                                       unfold N in *; lia).
    pose proof (remove_fragment_ok pi _ _ t _ _ _ HpiN Hown Hprev
                                   Hpopx Hpopy Hpopz) as Hstep.
    simpl. unfold bind at 1. rewrite Hstep.
    match goal with
    | |- exists t', for_each _ _ ?t1 = _ /\ _ =>
        destruct (IH r t1
                     (remove_nth (Z.to_nat (pi - (N s - 1 + 1))) rx)
                     (remove_nth (Z.to_nat (pi - (N s - 1 + 1))) ry)
                     (remove_nth (Z.to_nat (pi - (N s - 1 + 1))) rz))
          as (t' & Hrun & Hrest')
    end; simpl; try assumption; try reflexivity.
    + rewrite Hsf, decrement_from_app_last. do 2 f_equal. lia.
    + unfold N in *. simpl.
      assert (Hl : (Z.to_nat pi < length (particles t))%nat)
        by (unfold len in *; lia).
      apply length_remove_nth in Hl. unfold len in *. lia.
    + assert (Hl : (Z.to_nat (pi - (N s - 1 + 1)) < length rx)%nat) by lia.
      apply length_remove_nth in Hl. lia.
    + assert (Hl : (Z.to_nat (pi - (N s - 1 + 1)) < length ry)%nat) by lia.
      apply length_remove_nth in Hl. lia.
    + assert (Hl : (Z.to_nat (pi - (N s - 1 + 1)) < length rz)%nat) by lia.
      apply length_remove_nth in Hl. lia.
    + exists t'. split; [exact Hrun|]. exact Hrest'.
Qed.

(** ** Disruption followed by removal, on the sample inputs *)

Lemma ready_init (Nstars0 Nfrag0 : Z) :
  1 <= Nstars0 -> 0 <= Nfrag0 -> ready (sim_setup (init Nstars0 Nfrag0)).
Proof.
  intros Hs Hf. unfold ready, next_star, sim_setup, init, N, len. simpl.
  repeat split.
  - intros v [<-|[]]. lia.
  - intros pos Hpos.
    assert (Hpos' : pos = nested Nstars0 Nfrag0)
      by (destruct Hpos as [<-|[<-|[<-|[]]]]; reflexivity).
    subst pos. unfold nested.
    assert (Hr : range Nstars0 = 0 :: map (fun k => k + 1) (range (Nstars0 - 1))).
    { rewrite <- range_succ by lia. f_equal. lia. }
    rewrite Hr. simpl. eexists. split; [reflexivity|].
    rewrite length_map, length_range. lia.
Qed.

Lemma disrupt_remove_all_state (E : externals) (u : units) (d : draws)
      (time : R) (s s1 : state) (pis : list Z) :
  ready s ->
  star_disrupt E u d time s = (Val tt, s1) ->
  valid_removals (N s) (Z.to_nat (Nfrag s)) pis ->
  exists s2,
    for_each pis remove_fragment s1 = (Val tt, s2) /\
    sfindices s1 = sfindices s ++ [N s + Nfrag s - 1] /\
    sfindices s2 = sfindices s ++ [N s - 1] /\
    N s2 = N s /\
    posx s2 = set_nth (next_star s) [] (posx s) /\
    posy s2 = set_nth (next_star s) [] (posy s) /\
    posz s2 = set_nth (next_star s) [] (posz s).
Proof.
  intros (Hlast & Hbound & Hrows) Hd Hvalid.
  apply star_disrupt_Val in Hd
    as (m_star & r_star & r_t & ov & new & Hnf & Hnew & ->).
  destruct (Hrows (posx s)) as (rx & Hrx & Hlx); [simpl; auto|].
  destruct (Hrows (posy s)) as (ry & Hry & Hly); [simpl; auto|].
  destruct (Hrows (posz s)) as (rz & Hrz & Hlz); [simpl; auto|].
  assert (Hlt : forall (pos : list (list (list R))) row,
             nth_error pos (next_star s) = Some row ->
             (next_star s < length pos)%nat)
    by (intros pos row H; apply nth_error_Some; congruence).
  destruct (remove_all_fragments s pis Hlast Hbound
              (Hlt _ _ Hrx) (Hlt _ _ Hry) (Hlt _ _ Hrz)
              (Z.to_nat (Nfrag s))
              (mkState (Nstars s) (Nfrag s) (posx s) (posy s) (posz s)
                 (star_masses s ++ [m_star]) (star_radii s ++ [r_star])
                 (tidal_radii s ++ [r_t]) (orbital_vels s ++ [ov])
                 (sfindices s ++ [N s + Nfrag s - 1])
                 (particles s ++ new))
              rx ry rz Hvalid)
    as (s2 & Hrun & Hsf & HN & Hx & Hy & Hz & _); simpl.
  - do 2 f_equal. lia.
  - unfold N, len in *. simpl. rewrite length_app. lia.
  - symmetry. now apply set_nth_same.
  - unfold len in *. lia.
  - symmetry. now apply set_nth_same.
  - unfold len in *. lia.
  - symmetry. now apply set_nth_same.
  - unfold len in *. lia.
  - exists s2. repeat split; assumption.
Qed.

Lemma sample_disrupt_ok (s : state) :
  0 <= Nfrag s ->
  exists s', star_disrupt sample_externals sample_units sample_draws 0 s
             = (Val tt, s').
Proof.
  intros Hnf.
  apply (star_disrupt_ok _ _ _ _ _ (map (fun _ => 0%R) (range (Nfrag s)))).
  - assumption.
  - simpl. lra.
  - reflexivity.
  - rewrite length_len_map, len_range by assumption. lia.
  - intros nrg Hin. apply in_map_iff in Hin as (k & <- & _).
    unfold radicand. cbv zeta. cbn [r_tidal sample_externals cgs_to_natural].
    rewrite Rmult_0_r, Rmult_0_l, Rmult_0_r.
    unfold sim_constants.m_hole. lra.
Qed.

Lemma sample_run :
  exists s1 s2,
    star_disrupt sample_externals sample_units sample_draws 0 fresh_1_1
    = (Val tt, s1) /\
    remove_fragment 1 s1 = (Val tt, s2) /\
    sfindices s1 = [0; 1] /\
    sfindices s2 = [0; 0] /\
    N s2 = 1 /\
    posx s2 = [[]] /\ posy s2 = [[]] /\ posz s2 = [[]].
Proof.
  destruct (sample_disrupt_ok fresh_1_1) as [s1 Hs1]; [simpl; lia|].
  destruct (disrupt_remove_all_state _ _ _ _ fresh_1_1 s1 [1]
              (ready_init 1 1 ltac:(lia) ltac:(lia)) Hs1)
    as (s2 & Hrun & Hsf1 & Hsf2 & HN & Hx & Hy & Hz).
  { simpl. unfold N, len. simpl. lia. }
  exists s1, s2. simpl in Hrun.
  apply bind_Val in Hrun as ([] & s' & Hrm & Hret).
  unfold ret in Hret. inversion Hret; subst s'.
  repeat split; assumption.
Qed.

(** ** A spectrum shorter than the number of fragments *)

Lemma bind_eq {A B : Type} (m : M A) (k : A -> M B) (s s1 : state) (a : A) :
  m s = (Val a, s1) -> bind m k s = k a s1.
Proof. intros H. unfold bind. now rewrite H. Qed.

Lemma bind_raise_eq {A B : Type} (m : M A) (k : A -> M B) (s s1 : state)
      (e : exn) :
  m s = (Exc e, s1) -> bind m k s = (Exc e, s1).
Proof. intros H. unfold bind. now rewrite H. Qed.

Lemma getitem_beyond {A : Type} (l : list A) (i : Z) :
  len l <= i -> getitem l i = Exc IndexError.
Proof.
  intros H. pose proof (len_nonneg l). unfold getitem, norm_index.
  replace (i <? len l) with false by lia.
  replace (i <? 0) with false by lia.
  rewrite andb_false_r. reflexivity.
Qed.

Lemma add_fragments_short (vels rads : list R) (r_t : R) (sd vd : vec)
      (n : nat) :
  forall (a : nat) (s : state),
    (a <= length vels)%nat -> (length vels < a + n)%nat ->
    (a + n <= length rads)%nat ->
    exists new,
      length new = (length vels - a)%nat /\
      for_each (map Z.of_nat (seq a n)) (add_fragment vels rads r_t sd vd) s
      = (Exc IndexError, set_particles (particles s ++ new) s).
Proof.
  induction n as [|n IH]; intros a s Ha Hshort Hrads; [lia|].
  simpl. destruct (Nat.eq_dec a (length vels)) as [Heq|Hne].
  - exists []. split; [simpl; lia|].
    apply bind_raise_eq. unfold add_fragment.
    apply bind_raise_eq. unfold lift.
    rewrite getitem_beyond by (unfold len; lia).
    rewrite app_nil_r. destruct s; reflexivity.
  - destruct (getitem_in_range vels (Z.of_nat a)) as [vel Hvel];
      [unfold len; lia|].
    destruct (getitem_in_range rads (Z.of_nat a)) as [rad Hrad];
      [unfold len; lia|].
    erewrite bind_eq.
    2:{ unfold add_fragment.
        erewrite bind_eq by (apply lift_ok, Hvel). cbv zeta.
        erewrite bind_eq by (apply lift_ok, Hrad).
        unfold reb_add, modify. reflexivity. }
    match goal with
    | |- exists _, _ /\ for_each _ _ ?s1 = _ =>
        destruct (IH (S a) s1) as (new & Hlen & Hrun); try lia
    end.
    eexists (_ :: new). split; [simpl; lia|].
    rewrite Hrun. simpl. rewrite <- app_assoc. reflexivity.
Qed.

Lemma star_disrupt_short_spectrum (E : externals) (u : units) (d : draws)
      (time : R) (s : state) (NRGs : list R) :
  (u1 d ^ 2 <= 1)%R ->
  dmde_energy_spread E (beta_dist E (xbeta d)) (Nfrag s) = Val NRGs ->
  len NRGs < Nfrag s ->
  (forall nrg, In nrg NRGs -> (0 <= radicand E u d nrg)%R) ->
  exists s',
    star_disrupt E u d time s = (Exc IndexError, s') /\
    sfindices s' = sfindices s /\
    N s' = N s + len NRGs.
Proof.
  intros Hu1 Hspread Hlen Hrad.
  assert (Hnf : 0 <= Nfrag s) by (pose proof (len_nonneg NRGs); lia).
  unfold star_disrupt. cbv zeta.
  erewrite bind_eq by reflexivity.
  erewrite bind_eq by reflexivity.
  erewrite bind_eq by reflexivity.
  cbn [Nfrag set_star_radii set_star_masses].
  rewrite (range_succ _ Hnf). cbn [map].
  erewrite bind_eq by (apply lift_ok, pop_0). cbn [snd].
  erewrite bind_eq by reflexivity.
  erewrite bind_eq by reflexivity.
  erewrite bind_eq by (apply lift_ok, math_sqrt_ok; lra).
  erewrite bind_eq by (apply lift_ok, Hspread).
  erewrite bind_eq.
  2:{ apply lift_ok, mapM_ok. intros g Hg. apply math_sqrt_ok.
      apply in_map_iff in Hg as (nrg & <- & Hin). apply (Hrad nrg Hin). }
  erewrite bind_eq.
  2:{ apply lift_ok, math_sqrt_ok. unfold norm.
      match goal with
      | |- (0 <= 2.0 - 2.0 * ?z / sqrt (?x ^ 2 + ?y ^ 2 + ?z ^ 2))%R =>
          pose proof (ratio_le_1 x y z) as Hz
      end.
      unfold Rdiv in *. lra. }
  unfold range at 1.
  match goal with
  | |- exists _, bind (for_each _ (add_fragment ?a ?b ?c ?e ?f)) _ ?st = _ /\ _ =>
      destruct (add_fragments_short a b c e f (Z.to_nat (Nfrag s)) 0%nat st)
        as (new & Hnew & Hrun)
  end.
  - lia.
  - rewrite !length_map. unfold len in Hlen. lia.
  - rewrite !length_map, length_range. lia.
  - erewrite bind_raise_eq by exact Hrun.
    eexists. split; [reflexivity|]. split; [reflexivity|].
    unfold N, len. cbn [particles set_particles set_orbital_vels
                         set_tidal_radii set_star_radii set_star_masses].
    rewrite length_app, Hnew, !length_map. lia.
Qed.

(** ** The book-keeping when disruptions return *)

(** The lemmas of this section hold for every sampler; their sample runs
    use [sample_externals], whose sampler hands back [Nfrag] energies, so
    that a disruption returns.  Part IV has the sampler of the
    repository. *)

Lemma sample_reachable :
  exists s,
    reachable sample_externals sample_units 1 1 s /\ sfindices s = [0; 0].
Proof.
  destruct sample_run as (s1 & s2 & Hd & Hrm & _ & Hsf & _).
  exists s2. split; [|assumption].
  apply (reach_remove _ _ _ _ s1 s2 1); [|lia|assumption].
  apply (reach_disrupt _ _ _ _ fresh_1_1 s1 sample_draws 0%R);
    [apply reach_init | assumption].
Qed.

(** Were a disruption to return, strictness would be lost: after the only
    fragment of a star is removed the boundary of the star equals its
    predecessor. *)
Lemma sfindices_not_strictly_increasing :
  exists s,
    reachable sample_externals sample_units 1 1 s /\
    sfindices s = [0; 0] /\
    ~ strictly_increasing (sfindices s).
Proof.
  destruct sample_reachable as (s & Hr & Hsf).
  exists s. repeat split; try assumption.
  rewrite Hsf. intros H.
  specialize (H 0%nat 1%nat 0 0 eq_refl eq_refl ltac:(lia)). lia.
Qed.

(** Whatever the sampler, in every reachable state [sfindices] is
    non-decreasing, starts with [0], and has one entry more than there are
    disrupted stars. *)
Lemma sfindices_invariant (E : externals) (u : units)
        (Nstars0 Nfrag0 : Z) (s : state) :
  reachable E u Nstars0 Nfrag0 s ->
  non_decreasing (sfindices s) /\
  nth_error (sfindices s) 0 = Some 0 /\
  len (sfindices s) = 1 + len (star_masses s) /\
  len (sfindices s) = 1 + len (orbital_vels s).
Proof.
  intros Hr. apply reachable_sf_invariant in Hr
    as ((Hnd & H0 & Hlen & Hov) & Hb).
  unfold len. repeat split; try assumption; lia.
Qed.

Lemma sfindices_invariant_witness :
  exists s,
    reachable sample_externals sample_units 1 1 s /\
    non_decreasing (sfindices s) /\
    nth_error (sfindices s) 0 = Some 0 /\
    len (sfindices s) = 1 + len (star_masses s) /\
    len (sfindices s) = 1 + len (orbital_vels s).
Proof.
  destruct sample_reachable as (s & Hr & _).
  exists s. split; [assumption|].
  exact (sfindices_invariant sample_externals sample_units 1 1 s Hr).
Defined.

(** A round trip with a sampler that lets the disruption return: the
    boundary of the emptied star stays in [sfindices] and its row of the
    trajectory arrays stays empty. *)
Lemma disrupt_remove_does_not_restore :
  exists s1 s2,
    star_disrupt sample_externals sample_units sample_draws 0 fresh_1_1
    = (Val tt, s1) /\
    remove_fragment 1 s1 = (Val tt, s2) /\
    sfindices fresh_1_1 = [0] /\ sfindices s2 = [0; 0] /\
    shape (posx fresh_1_1) = [[0%nat]] /\ shape (posx s2) = [[]] /\
    sfindices s2 <> sfindices fresh_1_1 /\
    shape (posx s2) <> shape (posx fresh_1_1) /\
    shape (posy s2) <> shape (posy fresh_1_1) /\
    shape (posz s2) <> shape (posz fresh_1_1).
Proof.
  destruct sample_run as (s1 & s2 & Hd & Hrm & _ & Hsf & _ & Hx & Hy & Hz).
  exists s1, s2. rewrite Hsf, Hx, Hy, Hz.
  repeat split; try assumption; try reflexivity; simpl; discriminate.
Qed.



Lemma pop_record_row (pos pos' : list (list (list R))) (star k : Z) :
  pop_record pos star k = Val pos' ->
  exists (n : nat) (row row' : list (list R)),
    norm_index (len pos) star = Some n /\
    nth_error pos n = Some row /\
    nth_error pos' n = Some row' /\
    length row = S (length row') /\
    (forall m, m <> n -> nth_error pos' m = nth_error pos m).
Proof.
  intros H. apply pop_record_Val in H as (n & m & row & Hn & Hrow & Hm & Hlt & ->).
  assert (Hnl : (n < length pos)%nat) by (apply nth_error_Some; congruence).
  exists n, row, (remove_nth m row). repeat split; try assumption.
  - now apply nth_error_set_nth_eq.
  - symmetry. now apply length_remove_nth.
  - intros j Hj. rewrite nth_error_set_nth.
    destruct (Nat.eqb_spec j n); [contradiction | reflexivity].
Qed.

(** C9: [remove_fragment_record] never changes the length of
    [sfindices].  When it returns it has popped one entry from the row of
    the owning star in each trajectory array and decremented the
    boundaries from the located one on, keeping every entry; when the
    removed fragment was the last one of its star, the boundary of the star
    is still there and equals its predecessor. *)
Theorem remove_fragment_record_keeps_boundaries (pi : Z) (s s' : state)
        (r : pyres unit) :
  remove_fragment_record pi s = (r, s') ->
  length (sfindices s') = length (sfindices s) /\
  (r = Val tt ->
   exists i prev,
     owner (sfindices s) pi = Val i /\
     getitem (sfindices s) (i - 1) = Val prev /\
     (forall j v, nth_error (sfindices s) j = Some v ->
                  nth_error (sfindices s') j =
                  Some (if (j <? Z.to_nat i)%nat then v else v - 1)) /\
     (forall pos pos',
        In (pos, pos')
           [(posx s, posx s'); (posy s, posy s'); (posz s, posz s')] ->
        exists (n : nat) (row row' : list (list R)),
          norm_index (len pos) (i - 1) = Some n /\
          nth_error pos n = Some row /\
          nth_error pos' n = Some row' /\
          length row = S (length row') /\
          (forall m, m <> n -> nth_error pos' m = nth_error pos m)) /\
     (1 <= i -> pi = prev + 1 ->
      nth_error (sfindices s) (Z.to_nat i) = Some pi ->
      nth_error (sfindices s') (Z.to_nat i) = Some prev /\
      nth_error (sfindices s') (Z.to_nat (i - 1)) = Some prev)).
Proof.
  intros H. destruct r as [[]|e].
  - apply remove_fragment_record_Val in H
      as (i & prev & px & py & pz & Hown & Hprev & Hx & Hy & Hz & ->).
    simpl. split; [apply length_decrement_from|].
    intros _. exists i, prev. repeat split; try assumption.
    + intros j v Hj. rewrite nth_error_decrement_from, Hj.
      destruct (j <? Z.to_nat i)%nat; reflexivity.
    + intros pos pos' [Hp|[Hp|[Hp|[]]]]; inversion Hp; subst;
        eapply pop_record_row; eassumption.
    + rewrite nth_error_decrement_from, H1.
      destruct (Nat.ltb_spec (Z.to_nat i) (Z.to_nat i)); [lia|].
      simpl. f_equal. lia.
    + rewrite nth_error_decrement_from.
      destruct (Nat.ltb_spec (Z.to_nat (i - 1)) (Z.to_nat i)); [|lia].
      apply getitem_Val_nonneg; [lia | assumption].
  - apply remove_fragment_record_Exc in H as (_ & Hsf & _).
    split; [now rewrite Hsf | discriminate].
Qed.

Lemma remove_fragment_record_keeps_boundaries_witness :
  remove_fragment_record 1 one_fragment = (Val tt, one_fragment_removed) /\
  length (sfindices one_fragment_removed) = length (sfindices one_fragment) /\
  nth_error (sfindices one_fragment_removed) 1 = Some 0 /\
  nth_error (sfindices one_fragment_removed) 0 = Some 0.
Proof.
  assert (Hrun : remove_fragment_record 1 one_fragment
                 = (Val tt, one_fragment_removed)) by reflexivity.
  split; [exact Hrun|].
  destruct (remove_fragment_record_keeps_boundaries
              1 one_fragment one_fragment_removed (Val tt) Hrun)
    as (Hlen & Hret).
  split; [exact Hlen|].
  destruct (Hret eq_refl) as (i & prev & Hown & Hprev & _ & _ & Hlast).
  assert (Hi : i = 1) by (cbn in Hown; congruence). subst i.
  assert (Hp : prev = 0) by (cbn in Hprev; congruence). subst prev.
  apply Hlast; [lia | lia | reflexivity].
Defined.

(** ** The bound-velocity scan *)

Lemma bound_check_cases (u : units) (index : Z) (s s' : state)
      (r : pyres unit) :
  bound_check u index s = (r, s') ->
  (r = Val tt /\ s' = s) \/
  (exists e, r = Exc e /\ e <> ValueError /\ s' = s) \/
  (exists e, r = Exc e /\ e <> ValueError /\
             0 <= index < N s /\
             particles s' = remove_nth (Z.to_nat index) (particles s)).
Proof.
  unfold bound_check, bind, get, lift.
  destruct (getitem (particles s) index) as [p|e] eqn:Hp.
  2:{ intros H. inversion H; subst. right. left. exists e.
      apply getitem_Exc in Hp. subst. repeat split; discriminate. }
  destruct (owner (sfindices s) index) as [i|e] eqn:Hi.
  2:{ intros H. inversion H; subst. right. left. exists e.
      apply next_enumerate_Exc in Hi. subst. repeat split; discriminate. }
  destruct (getitem (orbital_vels s) (i - 1)) as [ov|e] eqn:Hov.
  2:{ intros H. inversion H; subst. right. left. exists e.
      apply getitem_Exc in Hov. subst. repeat split; discriminate. }
  rewrite math_sqrt_ok by (unfold velinf2; apply Rabs_pos).
  destruct (Rlt_dec _ _) as [Hslow|Hfast].
  2:{ unfold ret. intros H. inversion H; subst. left. auto. }
  destruct (reb_remove index s) as [[[]|e] s1] eqn:Hrm.
  2:{ intros H. inversion H; subst. right. left. exists e.
      apply reb_remove_Exc in Hrm as [-> ->]. repeat split; discriminate. }
  apply reb_remove_Val in Hrm as (Hrange & -> & HN).
  destruct (remove_fragment_record index _) as [[[]|e] s2] eqn:Hrec.
  - unfold raise. intros H. inversion H; subst. right. right.
    exists StopIteration.
    apply remove_fragment_record_Val in Hrec
      as (i' & prev & px & py & pz & _ & _ & _ & _ & _ & ->).
    simpl. repeat split; try discriminate; lia.
  - intros H. inversion H; subst. right. right. exists e.
    apply remove_fragment_record_Exc in Hrec as (He & _ & Hps & _).
    simpl in Hps. repeat split; try assumption; try lia.
    destruct He; subst; discriminate.
Qed.

Lemma bound_loop_at_most_one (u : units) (indices : list Z) (s s' : state)
      (r : pyres unit) :
  bound_loop u indices s = (r, s') ->
  particles s' = particles s \/
  exists index,
    In index indices /\ index <> 0 /\ 0 <= index < N s /\
    particles s' = remove_nth (Z.to_nat index) (particles s).
Proof.
  revert s. induction indices as [|index rest IH]; intros s; simpl.
  - unfold ret. intros H. inversion H; subst. left. reflexivity.
  - destruct (Z.eqb_spec index 0) as [->|Hne].
    + intros H. apply IH in H as [H|(k & Hk & H)]; [left; assumption|].
      right. exists k. split; [right; assumption | assumption].
    + destruct (bound_check u index s) as [r1 s1] eqn:Hc.
      apply bound_check_cases in Hc
        as [[-> ->]|[(e & -> & _ & ->)|(e & -> & _ & Hrange & Hps)]].
      * intros H. apply IH in H as [H|(k & Hk & H)]; [left; assumption|].
        right. exists k. split; [right; assumption | assumption].
      * intros H. left. destruct e; inversion H; subst; reflexivity.
      * intros H. right. exists index.
        assert (s' = s1) by (destruct e; inversion H; subst; reflexivity).
        subst s'. repeat split; auto; lia.
Qed.

Lemma bound_loop_break (u : units) (index : Z) (rest : list Z)
      (s s' : state) (e : exn) :
  index <> 0 ->
  bound_check u index s = (Exc e, s') ->
  bound_loop u (index :: rest) s =
  (match e with StopIteration => Val tt | _ => Exc e end, s').
Proof.
  intros Hne Hc. simpl. destruct (Z.eqb_spec index 0); [contradiction|].
  rewrite Hc. destruct e; reflexivity.
Qed.

Lemma bound_check_slow (u : units) (index i : Z) (s : state) (p : particle)
      (ov : R) :
  getitem (particles s) index = Val p ->
  owner (sfindices s) index = Val i ->
  getitem (orbital_vels s) (i - 1) = Val ov ->
  (sqrt (velinf2 p ov) < bound_vel u)%R ->
  bound_check u index s =
  bind (reb_remove index)
       (fun _ => bind (remove_fragment_record index)
                      (fun _ => raise StopIteration)) s.
Proof.
  intros Hp Hi Hov Hslow. unfold bound_check.
  erewrite bind_eq by reflexivity.
  erewrite bind_eq by (apply lift_ok, Hp).
  erewrite bind_eq by reflexivity.
  erewrite bind_eq by (apply lift_ok, Hi).
  erewrite bind_eq by reflexivity.
  erewrite bind_eq by (apply lift_ok, Hov).
  erewrite bind_eq
    by (apply lift_ok, math_sqrt_ok; unfold velinf2; apply Rabs_pos).
  destruct (Rlt_dec _ _); [reflexivity | contradiction].
Qed.

Lemma slow_at_rest (p : particle) :
  p_vx p = 0%R -> p_vy p = 0%R -> p_vz p = 0%R ->
  (sqrt (velinf2 p 0) < bound_vel sample_units)%R.
Proof.
  intros Hx Hy Hz. unfold velinf2. rewrite Hx, Hy, Hz.
  replace (0 ^ 2 + 0 ^ 2 + 0 ^ 2 - 0)%R with 0%R by ring.
  rewrite Rabs_R0, sqrt_0. unfold bound_vel, sample_units. simpl. lra.
Qed.

Lemma two_slow_fragments_scan :
  bound_scan sample_units two_slow_fragments
  = (Val tt, two_slow_fragments_scanned).
Proof.
  unfold bound_scan. erewrite bind_eq by reflexivity.
  change (range (N two_slow_fragments)) with [0; 1; 2].
  cbn [bound_loop Z.eqb].
  rewrite (bound_check_slow sample_units 1 1 two_slow_fragments slow_1 0%R);
    try reflexivity.
  apply slow_at_rest; reflexivity.
Qed.

(** C8: one pass of the bound-velocity scan removes at most one particle;
    a check that removed a particle ends by raising, and a check that
    raises ends the scan there, whatever indices remain. *)
Theorem bound_scan_removes_at_most_one (u : units) :
  (forall (s s' : state) (r : pyres unit),
     bound_scan u s = (r, s') ->
     particles s' = particles s \/
     exists index,
       1 <= index < N s /\
       particles s' = remove_nth (Z.to_nat index) (particles s)) /\
  (forall (index : Z) (s s' : state) (r : pyres unit),
     bound_check u index s = (r, s') ->
     particles s' <> particles s -> exists e, r = Exc e) /\
  (forall (index : Z) (rest : list Z) (s s' : state) (e : exn),
     index <> 0 ->
     bound_check u index s = (Exc e, s') ->
     bound_loop u (index :: rest) s =
     (match e with StopIteration => Val tt | _ => Exc e end, s')).
Proof.
  split; [|split].
  - intros s s' r H. unfold bound_scan, bind, get in H.
    apply bound_loop_at_most_one in H as [H|(k & Hk & Hne & Hrange & H)].
    + left. assumption.
    + right. exists k. split; [lia | assumption].
  - intros index s s' r H Hps.
    apply bound_check_cases in H
      as [[-> ->]|[(e & -> & _ & ->)|(e & -> & _)]]; try contradiction; eauto.
  - apply bound_loop_break.
Qed.

Lemma bound_scan_removes_at_most_one_witness :
  bound_scan sample_units two_slow_fragments
  = (Val tt, two_slow_fragments_scanned) /\
  (sqrt (velinf2 slow_2 0) < bound_vel sample_units)%R /\
  (particles two_slow_fragments_scanned = particles two_slow_fragments \/
   exists index,
     1 <= index < N two_slow_fragments /\
     particles two_slow_fragments_scanned =
     remove_nth (Z.to_nat index) (particles two_slow_fragments)).
Proof.
  split; [exact two_slow_fragments_scan|].
  split; [apply slow_at_rest; reflexivity|].
  exact (proj1 (bound_scan_removes_at_most_one sample_units)
               two_slow_fragments two_slow_fragments_scanned (Val tt)
               two_slow_fragments_scan).
Defined.


Open Scope R_scope.

(** C10: the argument handed to [math.sqrt] in the bound-velocity check is
    an absolute value, hence never negative: the square root is taken
    without [ValueError] and [velinf] is a non-negative real, whatever the
    velocity of the particle and the stored orbital value. *)
Theorem velinf_is_real (p : particle) (orbital_vel : R) :
  0 <= velinf2 p orbital_vel /\
  math_sqrt (velinf2 p orbital_vel) = Val (sqrt (velinf2 p orbital_vel)) /\
  0 <= sqrt (velinf2 p orbital_vel) /\
  (forall (u : units) (index : Z) (s s' : state) (r : pyres unit),
     bound_check u index s = (r, s') -> r <> Exc ValueError).
Proof.
  assert (H : 0 <= velinf2 p orbital_vel) by (unfold velinf2; apply Rabs_pos).
  split; [assumption|]. split; [apply math_sqrt_ok; assumption|].
  split; [apply sqrt_pos|].
  intros u index s s' r Hc.
  apply bound_check_cases in Hc
    as [[-> _]|[(e & -> & He & _)|(e & -> & He & _)]]; congruence.
Qed.

Lemma velinf_is_real_witness :
  (0 <= velinf2 slow_1 1)%R /\
  math_sqrt (velinf2 slow_1 1) = Val (sqrt (velinf2 slow_1 1)) /\
  fst (bound_check sample_units 1 two_slow_fragments) <> Exc ValueError.
Proof.
  destruct (velinf_is_real slow_1 1) as (H1 & H2 & _ & H4).
  split; [exact H1|]. split; [exact H2|].
  apply (H4 sample_units 1%Z two_slow_fragments
            (snd (bound_check sample_units 1 two_slow_fragments))).
  destruct (bound_check sample_units 1 two_slow_fragments). reflexivity.
Defined.

(* ----------------------------------------------------------------- *)
(** ** The force field *)

(** C7: for [r > 0], [halo_force] is [0] below ten cluster radii and the
    NFW expression from there on. *)
Theorem halo_force_cases (u : units) (r coord : R) :
  0 < r ->
  (r < 10 * sim_constants.rc u -> Forces.halo_force u r coord = 0) /\
  (~ r < 10 * sim_constants.rc u ->
   Forces.halo_force u r coord =
   - sim_constants.m_halo * coord *
     (ln (1 + r / sim_constants.r_halo) / r ^ 3
      - 1 / ((r + sim_constants.r_halo) * r ^ 2))).
Proof.
  intros Hr. unfold Forces.halo_force, Forces.logterm, Forces.rterm.
  split; intros H; destruct (Rlt_dec r (10 * sim_constants.rc u));
    try contradiction.
  - ring.
  - replace 1.0 with 1 by lra. ring.
Qed.

Lemma halo_force_cases_witness :
  Forces.halo_force sample_units 1 1 = 0 /\
  Forces.halo_force sample_units 1.0e10 1 =
  - sim_constants.m_halo * 1 *
    (ln (1 + 1.0e10 / sim_constants.r_halo) / 1.0e10 ^ 3
     - 1 / ((1.0e10 + sim_constants.r_halo) * 1.0e10 ^ 2)).
Proof.
  split.
  - apply (halo_force_cases sample_units 1 1); [lra|].
    unfold sim_constants.rc, sample_units. simpl. lra.
  - apply (halo_force_cases sample_units 1.0e10 1); [lra|].
    unfold sim_constants.rc, sample_units. simpl. lra.
Defined.

(* ----------------------------------------------------------------- *)
(** ** The distribution sampler *)

Import dMdEdist.
Open Scope R_scope.

(** *** [argsort] *)

Lemma insert_by_perm (d : list R) (k : nat) (l : list nat) :
  Permutation (insert_by d k l) (k :: l).
Proof.
  induction l as [|h t IH]; simpl.
  - apply Permutation_refl.
  - destruct (Rle_dec (nth k d 0) (nth h d 0)).
    + apply Permutation_refl.
    + eapply perm_trans; [apply perm_skip, IH | apply perm_swap].
Qed.

Lemma insert_by_sorted (d : list R) (k : nat) (l : list nat) :
  StronglySorted (key_le d) l -> StronglySorted (key_le d) (insert_by d k l).
Proof.
  induction 1 as [|h t Hs IH Hall]; simpl.
  - constructor; constructor.
  - destruct (Rle_dec (nth k d 0) (nth h d 0)) as [Hle|Hgt].
    + constructor; [constructor; assumption|].
      constructor; [exact Hle|].
      eapply Forall_impl; [|exact Hall].
      intros a Ha. unfold key_le in *. lra.
    + constructor; [exact IH|].
      eapply Permutation_Forall; [apply Permutation_sym, insert_by_perm|].
      constructor; [unfold key_le; lra | exact Hall].
Qed.

Lemma sort_indices_perm (d : list R) (l : list nat) :
  Permutation (fold_right (insert_by d) [] l) l.
Proof.
  induction l as [|h t IH]; simpl; [constructor|].
  eapply perm_trans; [apply insert_by_perm | apply perm_skip, IH].
Qed.

Lemma sort_indices_sorted (d : list R) (l : list nat) :
  StronglySorted (key_le d) (fold_right (insert_by d) [] l).
Proof.
  induction l as [|h t IH]; simpl; [constructor|].
  apply insert_by_sorted, IH.
Qed.

Lemma argsort_perm (d : list R) :
  Permutation (argsort d) (seq 0 (length d)).
Proof. apply sort_indices_perm. Qed.

Lemma argsort_first_two (d : list R) (i j : nat) :
  firstn 2 (argsort d) = [i; j] ->
  i <> j /\ (i < length d)%nat /\ (j < length d)%nat /\
  key_le d i j /\
  (forall k, (k < length d)%nat -> key_le d i k).
Proof.
  intros H.
  pose proof (argsort_perm d) as Hperm.
  pose proof (sort_indices_sorted d (seq 0 (length d))) as Hsorted.
  fold (argsort d) in Hsorted.
  destruct (argsort d) as [|a [|b rest]]; try discriminate.
  simpl in H. inversion H; subst a b. clear H.
  assert (Hnd : NoDup (i :: j :: rest)).
  { eapply Permutation_NoDup; [apply Permutation_sym, Hperm|].
    apply seq_NoDup. }
  assert (Hin : forall k, In k (i :: j :: rest) <-> (k < length d)%nat).
  { intros k. split; intros Hk.
    - apply (Permutation_in _ Hperm) in Hk. apply in_seq in Hk. lia.
    - apply (Permutation_in _ (Permutation_sym Hperm)). apply in_seq. lia. }
  inversion Hsorted as [|? ? Hs' Hall]; subst.
  inversion Hnd as [|? ? Hni Hnd']; subst.
  repeat split.
  - intros ->. apply Hni. left. reflexivity.
  - apply Hin. left. reflexivity.
  - apply Hin. right. left. reflexivity.
  - inversion Hall; assumption.
  - intros k Hk. apply Hin in Hk as [<-|Hk].
    + unfold key_le. lra.
    + rewrite Forall_forall in Hall. apply Hall. assumption.
Qed.

Lemma argsort_first_two_exists (d : list R) :
  (2 <= length d)%nat -> exists i j, firstn 2 (argsort d) = [i; j].
Proof.
  intros H. pose proof (Permutation_length (argsort_perm d)) as Hlen.
  rewrite length_seq in Hlen.
  destruct (argsort d) as [|a [|b rest]]; simpl in Hlen; try lia.
  exists a, b. reflexivity.
Qed.

(** ** The blend of [beta_interp] *)

Lemma getitem_nth_error {A : Type} (l : list A) (k : nat) (a : A) :
  nth_error l k = Some a -> getitem l (Z.of_nat k) = Val a.
Proof.
  intros H. apply getitem_nonneg; [lia|]. now rewrite Nat2Z.id.
Qed.

Lemma call_ok (f : interp1d) (xs : list R) :
  (forall x, In x xs -> in_bounds f x = true) ->
  call f xs = Val (map (interp f) xs).
Proof.
  intros H. unfold call. apply mapM_ok. intros x Hx. now rewrite (H x Hx).
Qed.

Lemma mapM_length {A B : Type} (f : A -> pyres B) (l : list A)
      (bs : list B) :
  mapM f l = Val bs -> length bs = length l.
Proof.
  revert bs. induction l as [|h t IH]; intros bs; simpl.
  - intros H. inversion H. reflexivity.
  - destruct (f h) as [b|e]; simpl; [|discriminate].
    destruct (mapM f t) as [bs'|e]; simpl; [|discriminate].
    intros H. inversion H; subst. simpl. f_equal. now apply IH.
Qed.

Lemma blend_exact (v1 v2 : list R) :
  length v1 = length v2 ->
  map (fun ab => 1 * fst ab + 0 * snd ab) (combine v1 v2) = v1.
Proof.
  revert v2. induction v1 as [|a t IH]; intros [|b t2] H; simpl in *;
    try discriminate; [reflexivity|].
  f_equal; [lra | apply IH; congruence].
Qed.

Lemma f_new_exact (bl : blend) (xs : list R) :
  bl_p1 bl = 1 -> bl_p2 bl = 0 ->
  (forall x, In x xs -> in_bounds (bl_f2 bl) x = true) ->
  f_new bl xs = call (bl_f1 bl) xs.
Proof.
  intros Hp1 Hp2 Hin. unfold f_new. rewrite Hp1, Hp2.
  rewrite (call_ok (bl_f2 bl) xs Hin).
  destruct (call (bl_f1 bl) xs) as [v1|e] eqn:Hv1; simpl; [|reflexivity].
  f_equal. apply blend_exact.
  apply mapM_length in Hv1. now rewrite length_map.
Qed.

Lemma Rabs_zero (x : R) : Rabs x = 0 -> x = 0.
Proof.
  intros H. destruct (Req_dec x 0) as [|Hne]; [assumption|].
  apply Rabs_no_R0 in Hne. contradiction.
Qed.

Lemma beta_locals_spec (T : dMdEdist_init) (beta : R) :
  (2 <= length (betas T))%nat ->
  length (functions T) = length (betas T) ->
  exists (i j : nat) (x1 x2 : R) (f1 f2 : interp1d),
    i <> j /\
    nth_error (betas T) i = Some x1 /\
    nth_error (betas T) j = Some x2 /\
    nth_error (functions T) i = Some f1 /\
    nth_error (functions T) j = Some f2 /\
    Rabs (x1 - beta) <= Rabs (x2 - beta) /\
    (forall k b, nth_error (betas T) k = Some b ->
                 Rabs (x1 - beta) <= Rabs (b - beta)) /\
    beta_locals T beta =
    Val (mkBlend x1 x2 f1 f2 (Rabs (x1 - beta)) (Rabs (x2 - beta))
                 (Rabs (x2 - beta) / (Rabs (x1 - beta) + Rabs (x2 - beta)))
                 (Rabs (x1 - beta) / (Rabs (x1 - beta) + Rabs (x2 - beta)))).
Proof.
  intros Hlen Hfun. unfold beta_locals.
  set (diffs := map (fun b => Rabs (b - beta)) (betas T)).
  assert (Hdl : length diffs = length (betas T))
    by (unfold diffs; apply length_map).
  destruct (argsort_first_two_exists diffs) as (i & j & Hij); [lia|].
  rewrite Hij.
  apply argsort_first_two in Hij as (Hne & Hi & Hj & Hle & Hmin).
  rewrite Hdl in Hi, Hj.
  destruct (nth_error (betas T) i) as [x1|] eqn:Hx1;
    [|apply nth_error_None in Hx1; lia].
  destruct (nth_error (betas T) j) as [x2|] eqn:Hx2;
    [|apply nth_error_None in Hx2; lia].
  destruct (nth_error (functions T) i) as [f1|] eqn:Hf1;
    [|apply nth_error_None in Hf1; lia].
  destruct (nth_error (functions T) j) as [f2|] eqn:Hf2;
    [|apply nth_error_None in Hf2; lia].
  assert (Hkey : forall k b, nth_error (betas T) k = Some b ->
                             nth k diffs 0 = Rabs (b - beta)).
  { intros k b Hk. apply nth_error_nth. unfold diffs.
    rewrite nth_error_map, Hk. reflexivity. }
  assert (Hd1 : nth_error diffs i = Some (Rabs (x1 - beta)))
    by (unfold diffs; rewrite nth_error_map, Hx1; reflexivity).
  assert (Hd2 : nth_error diffs j = Some (Rabs (x2 - beta)))
    by (unfold diffs; rewrite nth_error_map, Hx2; reflexivity).
  exists i, j, x1, x2, f1, f2. repeat split; try assumption; try reflexivity.
  - unfold key_le in Hle.
    now rewrite (Hkey i x1 Hx1), (Hkey j x2 Hx2) in Hle.
  - intros k b Hk.
    assert (Hkl : (k < length diffs)%nat).
    { rewrite Hdl. apply nth_error_Some. congruence. }
    specialize (Hmin k Hkl). unfold key_le in Hmin.
    now rewrite (Hkey i x1 Hx1), (Hkey k b Hk) in Hmin.
  - rewrite (getitem_nth_error _ _ _ Hx1), (getitem_nth_error _ _ _ Hx2),
      (getitem_nth_error _ _ _ Hf1), (getitem_nth_error _ _ _ Hf2),
      (getitem_nth_error _ _ _ Hd1), (getitem_nth_error _ _ _ Hd2).
    reflexivity.
Qed.

(** C6: with two or more tables for distinct values of beta, the weights
    [p1] and [p2] of [beta_interp] are non-negative, sum to 1 and are
    inversely proportional to the distances, so that the nearer table has
    the larger weight; when [beta] is the value of a table, that table is
    the first of the two, its weight is 1, the other weight is 0, and the
    blend is that table's interpolant wherever the second interpolant is
    defined. *)
Theorem beta_interp_weights (T : dMdEdist_init) (beta : R) :
  (2 <= length (betas T))%nat ->
  length (functions T) = length (betas T) ->
  NoDup (betas T) ->
  exists bl,
    beta_locals T beta = Val bl /\
    beta_interp T beta = Val (f_new bl, bl_x1 bl, bl_x2 bl) /\
    In (bl_x1 bl) (betas T) /\ In (bl_x2 bl) (betas T) /\
    bl_d1 bl = Rabs (bl_x1 bl - beta) /\
    bl_d2 bl = Rabs (bl_x2 bl - beta) /\
    0 <= bl_p1 bl /\ 0 <= bl_p2 bl /\
    bl_p1 bl + bl_p2 bl = 1 /\
    bl_p1 bl * bl_d1 bl = bl_p2 bl * bl_d2 bl /\
    (bl_d1 bl < bl_d2 bl -> bl_p2 bl < bl_p1 bl) /\
    (bl_d2 bl < bl_d1 bl -> bl_p1 bl < bl_p2 bl) /\
    (forall (k : nat) (f : interp1d),
       nth_error (betas T) k = Some beta ->
       nth_error (functions T) k = Some f ->
       bl_x1 bl = beta /\ bl_f1 bl = f /\
       bl_p1 bl = 1 /\ bl_p2 bl = 0 /\
       (forall xs,
          (forall x, In x xs -> in_bounds (bl_f2 bl) x = true) ->
          f_new bl xs = call f xs)).
Proof.
  intros Hlen Hfun Hnd.
  destruct (beta_locals_spec T beta Hlen Hfun)
    as (i & j & x1 & x2 & f1 & f2 & Hne & Hx1 & Hx2 & Hf1 & Hf2 & Hle
        & Hmin & Hbl).
  set (d1 := Rabs (x1 - beta)) in *. set (d2 := Rabs (x2 - beta)) in *.
  assert (Hd1 : 0 <= d1) by apply Rabs_pos.
  assert (Hd2 : 0 <= d2) by apply Rabs_pos.
  assert (Hx12 : x1 <> x2).
  { intros ->. apply Hne.
    apply (proj1 (NoDup_nth_error (betas T)) Hnd i j).
    - apply nth_error_Some. congruence.
    - congruence. }
  assert (Hd : 0 < d1 + d2).
  { destruct (Req_dec d1 0) as [H1|H1]; destruct (Req_dec d2 0) as [H2|H2];
      try lra.
    exfalso. apply Hx12. unfold d1, d2 in *.
    apply Rabs_zero in H1, H2. lra. }
  eexists. split; [exact Hbl|]. unfold beta_interp. rewrite Hbl. simpl.
  split; [reflexivity|].
  split; [eapply nth_error_In; eassumption|].
  split; [eapply nth_error_In; eassumption|].
  split; [reflexivity|]. split; [reflexivity|].
  split; [apply Rmult_le_pos; [lra | left; apply Rinv_0_lt_compat; lra]|].
  split; [apply Rmult_le_pos; [lra | left; apply Rinv_0_lt_compat; lra]|].
  split; [field; lra|].
  split; [field; lra|].
  split.
  { intros Hlt. unfold Rdiv. apply Rmult_lt_compat_r;
      [apply Rinv_0_lt_compat; lra | assumption]. }
  split; [intros Hlt; lra|].
  intros k f Hk Hf.
  assert (Hz : d1 = 0).
  { specialize (Hmin k beta Hk).
    replace (beta - beta) with 0 in Hmin by ring. rewrite Rabs_R0 in Hmin.
    fold d1 in Hmin. lra. }
  assert (Hxb : x1 = beta).
  { unfold d1 in Hz. apply Rabs_zero in Hz. lra. }
  assert (Hik : i = k).
  { apply (proj1 (NoDup_nth_error (betas T)) Hnd i k).
    - apply nth_error_Some. congruence.
    - congruence. }
  subst k.
  assert (Hp1 : d2 / (d1 + d2) = 1) by (rewrite Hz; field; lra).
  assert (Hp2 : d1 / (d1 + d2) = 0) by (rewrite Hz; field; lra).
  split; [assumption|]. split; [congruence|].
  split; [assumption|]. split; [assumption|].
  intros xs Hin. replace f with f1 by congruence.
  apply (f_new_exact (mkBlend x1 x2 f1 f2 d1 d2 _ _) xs Hp1 Hp2 Hin).
Qed.

Lemma beta_interp_weights_witness :
  exists bl,
    beta_locals sample_tables 0.5 = Val bl /\
    bl_p1 bl + bl_p2 bl = 1 /\
    bl_x1 bl = 0.5 /\ bl_p1 bl = 1 /\ bl_p2 bl = 0.
Proof.
  assert (Hnd : NoDup (betas sample_tables)).
  { simpl. constructor.
    - intros [H|[]]. lra.
    - constructor; [intros [] | constructor]. }
  destruct (beta_interp_weights sample_tables 0.5
              ltac:(simpl; lia) eq_refl Hnd)
    as (bl & Hbl & _ & _ & _ & _ & _ & _ & _ & Hsum & _ & _ & _ & Hexact).
  destruct (Hexact 0%nat (mkInterp 0 1 (fun x => x)) eq_refl eq_refl)
    as (Hx1 & _ & Hp1 & Hp2 & _).
  exists bl. repeat split; assumption.
Defined.

(** *** [energy_spread] *)

Lemma in_bounds_true (f : interp1d) (x : R) :
  x_lo f <= x -> x <= x_hi f -> in_bounds f x = true.
Proof.
  intros H1 H2. unfold in_bounds.
  destruct (Rle_dec (x_lo f) x); [|contradiction].
  destruct (Rle_dec x (x_hi f)); [reflexivity | contradiction].
Qed.

Lemma linspace_point_bounds (h : R) (k m : Z) :
  0 <= h <= 1 / 2 -> (0 <= k <= m)%Z -> (0 < m)%Z ->
  h <= h + IZR k * ((1.0 - h - h) / IZR m) <= 1 - h.
Proof.
  intros Hh Hk Hm.
  assert (Hm' : 0 < IZR m) by (apply IZR_lt; assumption).
  assert (Hk0 : 0 <= IZR k) by (apply IZR_le; lia).
  assert (Hkm : IZR k <= IZR m) by (apply IZR_le; lia).
  set (q := IZR k / IZR m).
  assert (Hq : 0 <= q <= 1).
  { unfold q. split.
    - apply Rmult_le_pos; [assumption | left; apply Rinv_0_lt_compat; lra].
    - apply (Rmult_le_reg_r (IZR m)); [assumption|].
      unfold Rdiv. rewrite Rmult_assoc, Rinv_l by lra. lra. }
  replace 1.0 with 1 by lra.
  replace (IZR k * ((1 - h - h) / IZR m)) with (q * (1 - 2 * h))
    by (unfold q; field; lra).
  nra.
Qed.

Lemma x_set_spec (nfrag : Z) :
  (1 <= nfrag)%Z ->
  exists xs,
    x_set nfrag = Val xs /\
    len xs = (nfrag - 1)%Z /\
    (forall x, In x xs ->
       1 / (2 * IZR nfrag) <= x <= 1 - 1 / (2 * IZR nfrag)).
Proof.
  intros Hn.
  assert (Hn' : 1 <= IZR nfrag) by (apply IZR_le; assumption).
  unfold x_set, py_div.
  destruct (Z.eqb_spec nfrag 0) as [|_]; [lia|]. simpl pbind.
  set (half := 1.0 / IZR nfrag * 0.5).
  assert (Hhalf : half = 1 / (2 * IZR nfrag)).
  { unfold half. replace 1.0 with 1 by lra. replace 0.5 with (1 / 2) by lra.
    field. lra. }
  assert (Hh : 0 <= half <= 1 / 2).
  { rewrite Hhalf. split.
    - apply Rmult_le_pos; [lra | left; apply Rinv_0_lt_compat; lra].
    - apply (Rmult_le_reg_r (2 * IZR nfrag)); [lra|].
      unfold Rdiv. rewrite Rmult_assoc, Rinv_l by lra. lra. }
  unfold linspace.
  destruct (Z.ltb_spec (nfrag - 1) 0) as [|_]; [lia|].
  destruct (Z.eqb_spec (nfrag - 1) 1) as [H1|H1].
  - eexists. split; [reflexivity|]. split.
    + unfold len. simpl. lia.
    + intros x [<-|[]]. rewrite <- Hhalf. lra.
  - eexists. split; [reflexivity|]. split.
    + rewrite length_len_map, len_range; lia.
    + intros x Hx. apply in_map_iff in Hx as (k & <- & Hk).
      apply In_range in Hk. rewrite <- Hhalf.
      apply linspace_point_bounds; [assumption | lia | lia].
Qed.

Lemma x_set_points (nfrag : Z) (xs : list R) :
  (1 <= nfrag)%Z -> x_set nfrag = Val xs ->
  forall (k : nat) (x : R),
    nth_error xs k = Some x ->
    x = 1 / (2 * IZR nfrag)
        + IZR (Z.of_nat k) * ((1 - 1 / IZR nfrag) / IZR (nfrag - 2)).
Proof.
  intros Hn Hxs k x Hk.
  assert (Hn' : 1 <= IZR nfrag) by (apply IZR_le; assumption).
  unfold x_set, py_div in Hxs.
  destruct (Z.eqb_spec nfrag 0) as [|_]; [lia|]. simpl pbind in Hxs.
  unfold linspace in Hxs.
  destruct (Z.ltb_spec (nfrag - 1) 0) as [|_]; [lia|].
  destruct (Z.eqb_spec (nfrag - 1) 1) as [H1|H1].
  - inversion Hxs; subst xs. destruct k as [|k]; [|destruct k; discriminate].
    simpl in Hk. inversion Hk. cbn [Z.of_nat].
    rewrite Rmult_0_l, Rplus_0_r.
    replace 1.0 with 1 by lra. replace 0.5 with (1 / 2) by lra.
    field. lra.
  - inversion Hxs; subst xs. rewrite nth_error_map in Hk.
    unfold range in Hk. rewrite nth_error_map in Hk.
    destruct (nth_error (seq 0 (Z.to_nat (nfrag - 1))) k) as [m|] eqn:Hm;
      [|discriminate].
    assert (Hlt : (k < Z.to_nat (nfrag - 1))%nat).
    { rewrite <- (length_seq (Z.to_nat (nfrag - 1)) 0).
      apply nth_error_Some. congruence. }
    assert (Hmk : nth_error (seq 0 (Z.to_nat (nfrag - 1))) k = Some k).
    { rewrite (nth_error_nth' _ 0%nat) by (rewrite length_seq; exact Hlt).
      rewrite seq_nth by exact Hlt. reflexivity. }
    rewrite Hmk in Hm. inversion Hm; subst m.
    simpl in Hk. inversion Hk.
    replace (nfrag - 1 - 1)%Z with (nfrag - 2)%Z by lia.
    assert (Hne : IZR (nfrag - 2) <> 0) by (apply not_0_IZR; lia).
    replace 1.0 with 1 by lra. replace 0.5 with (1 / 2) by lra.
    field. lra.
Qed.

Lemma map_blend (p1 p2 : R) (g1 g2 : R -> R) (xs : list R) :
  map (fun ab => p1 * fst ab + p2 * snd ab) (combine (map g1 xs) (map g2 xs))
  = map (fun x => p1 * g1 x + p2 * g2 x) xs.
Proof. induction xs as [|x xs IH]; simpl; [reflexivity | now rewrite IH]. Qed.

(** C3: when the blend is defined and the two interpolants it uses span
    the unit interval, [energy_spread] returns, for [nfrag >= 1], exactly
    [nfrag - 1] values: the blend [p1 * f1(x) + p2 * f2(x)] at the
    [nfrag - 1] points [x = 1/(2 nfrag) + k (1 - 1/nfrag)/(nfrag - 2)],
    every one of which lies in the domain of both interpolants. *)
Theorem energy_spread_count (T : dMdEdist_init) (beta : R) (nfrag : Z)
        (bl : blend) :
  beta_locals T beta = Val bl ->
  covers_unit_interval (bl_f1 bl) ->
  covers_unit_interval (bl_f2 bl) ->
  (1 <= nfrag)%Z ->
  exists xs vals,
    x_set nfrag = Val xs /\
    energy_spread T beta nfrag = Val vals /\
    len vals = (nfrag - 1)%Z /\
    len xs = (nfrag - 1)%Z /\
    (forall x, In x xs ->
       in_bounds (bl_f1 bl) x = true /\ in_bounds (bl_f2 bl) x = true) /\
    vals = map (fun x => bl_p1 bl * interp (bl_f1 bl) x
                         + bl_p2 bl * interp (bl_f2 bl) x) xs /\
    (forall (k : nat) (x : R),
       nth_error xs k = Some x ->
       x = 1 / (2 * IZR nfrag)
           + IZR (Z.of_nat k) * ((1 - 1 / IZR nfrag) / IZR (nfrag - 2)) /\
       1 / (2 * IZR nfrag) <= x <= 1 - 1 / (2 * IZR nfrag)).
Proof.
  intros Hbl [Hlo1 Hhi1] [Hlo2 Hhi2] Hn.
  destruct (x_set_spec nfrag Hn) as (xs & Hxs & Hlen & Hrange).
  assert (Hn' : 1 <= IZR nfrag) by (apply IZR_le; assumption).
  assert (Hpos : 0 < 1 / (2 * IZR nfrag)).
  { unfold Rdiv. rewrite Rmult_1_l. apply Rinv_0_lt_compat. lra. }
  assert (Hin : forall x, In x xs ->
             in_bounds (bl_f1 bl) x = true /\ in_bounds (bl_f2 bl) x = true).
  { intros x Hx. specialize (Hrange x Hx).
    split; apply in_bounds_true; lra. }
  exists xs.
  exists (map (fun x => bl_p1 bl * interp (bl_f1 bl) x
                        + bl_p2 bl * interp (bl_f2 bl) x) xs).
  split; [assumption|]. split.
  { unfold energy_spread, beta_interp. rewrite Hbl. simpl pbind.
    rewrite Hxs. simpl pbind. unfold f_new.
    rewrite (call_ok (bl_f1 bl) xs) by (intros x Hx; apply Hin; assumption).
    rewrite (call_ok (bl_f2 bl) xs) by (intros x Hx; apply Hin; assumption).
    simpl pbind. now rewrite map_blend. }
  split; [unfold len in *; now rewrite length_map|].
  split; [assumption|]. split; [assumption|]. split; [reflexivity|].
  intros k x Hk. split.
  - exact (x_set_points nfrag xs Hn Hxs k x Hk).
  - apply Hrange. eapply nth_error_In. exact Hk.
Qed.

Lemma sample_blend :
  beta_locals sample_tables 0.7
  = Val (mkBlend 0.5 1.5 (mkInterp 0 1 (fun x => x))
                 (mkInterp 0 1 (fun x => 2 * x))
                 (Rabs (0.5 - 0.7)) (Rabs (1.5 - 0.7))
                 (Rabs (1.5 - 0.7) / (Rabs (0.5 - 0.7) + Rabs (1.5 - 0.7)))
                 (Rabs (0.5 - 0.7) / (Rabs (0.5 - 0.7) + Rabs (1.5 - 0.7)))).
Proof.
  destruct (beta_locals_spec sample_tables 0.7)
    as (i & j & x1 & x2 & f1 & f2 & Hij & Hx1 & Hx2 & Hf1 & Hf2 & Hle & Hmin
        & Hbl);
    [simpl; lia | reflexivity |].
  assert (Hi : i = 0%nat).
  { destruct i as [|[|i]]; [reflexivity | exfalso | destruct i; discriminate].
    simpl in Hx1. inversion Hx1; subst x1.
    specialize (Hmin 0%nat 0.5 eq_refl).
    unfold Rabs in Hmin.
    destruct (Rcase_abs (1.5 - 0.7)); destruct (Rcase_abs (0.5 - 0.7)); lra. }
  subst i.
  assert (Hj : j = 1%nat).
  { destruct j as [|[|j]]; [congruence | reflexivity |].
    destruct j; discriminate. }
  subst j. simpl in Hx1, Hx2, Hf1, Hf2.
  inversion Hx1; inversion Hx2; inversion Hf1; inversion Hf2; subst.
  exact Hbl.
Qed.

Lemma energy_spread_count_witness :
  exists xs vals,
    x_set 5 = Val xs /\
    energy_spread sample_tables 0.7 5 = Val vals /\
    len vals = 4%Z /\ len xs = 4%Z /\
    (forall x, nth_error xs 1 = Some x -> x = 11 / 30) /\
    (forall v, nth_error vals 1 = Some v -> v = 44 / 100).
Proof.
  destruct (energy_spread_count sample_tables 0.7 5 _ sample_blend)
    as (xs & vals & Hxs & Hvals & Hlv & Hlx & _ & Heq & Hpts).
  - unfold covers_unit_interval. simpl. lra.
  - unfold covers_unit_interval. simpl. lra.
  - lia.
  - exists xs, vals. repeat (split; [assumption|]).
    assert (Hx : forall x, nth_error xs 1 = Some x -> x = 11 / 30).
    { intros x Hx. destruct (Hpts 1%nat x Hx) as [-> _]. simpl. lra. }
    split; [exact Hx|].
    intros v Hv. rewrite Heq, nth_error_map in Hv.
    destruct (nth_error xs 1) as [x|] eqn:Hx1; [|discriminate].
    rewrite (Hx x eq_refl) in Hv. simpl in Hv. inversion Hv.
    assert (Ha : Rabs (0.5 - 0.7) = 0.2)
      by (unfold Rabs; destruct (Rcase_abs (0.5 - 0.7)); lra).
    assert (Hb : Rabs (1.5 - 0.7) = 0.8)
      by (unfold Rabs; destruct (Rcase_abs (1.5 - 0.7)); lra).
    rewrite Ha, Hb. replace (0.2 + 0.8) with 1 by lra. lra.
Defined.


(** C5 (evaluation at the failing inputs): for three fragments the sample
    points are 1/6 and 5/6, which are 2/3 apart, not 1/3; for five
    fragments the second point is 11/30, not the bin midpoint 3/10. *)
Theorem x_set_not_bin_midpoints :
  (exists a b,
     x_set 3 = Val [a; b] /\ a = 1 / 6 /\ b = 5 / 6 /\ b - a <> 1 / 3) /\
  (exists a b c e,
     x_set 5 = Val [a; b; c; e] /\
     a = 1 / 10 /\ b = 11 / 30 /\ c = 19 / 30 /\ e = 9 / 10 /\
     b <> 3 / 10).
Proof.
  split.
  - eexists. eexists. split; [reflexivity|]. simpl. repeat split; lra.
  - do 4 eexists. split; [reflexivity|]. simpl. repeat split; lra.
Qed.

(** C4 (evaluation at the failing input): the coarse point of a block of
    ten samples is the sum of its first nine divided by ten. *)
Theorem block_sum_drops_last_sample :
  coarsen [1; 2; 3; 4; 5; 6; 7; 8; 9; 10] = [45 / 10] /\
  45 / 10 <> (1 + 2 + 3 + 4 + 5 + 6 + 7 + 8 + 9 + 10) / 10.
Proof.
  split; [|lra].
  unfold coarsen, s_point, slice, sum, step. simpl. f_equal. lra.
Qed.

(** *** What the two off-by-one slips do in general *)

Lemma block_slice_length (x : list R) (i : nat) :
  (step * i + step <= length x)%nat ->
  length (slice x (step * i) ((step * i) + step - 1)) = 9%nat.
Proof.
  intros H. unfold slice, step in *.
  rewrite length_firstn, length_skipn. lia.
Qed.

Lemma x_set_spacing (nfrag : Z) :
  (3 <= nfrag)%Z ->
  exists xs,
    x_set nfrag = Val xs /\
    nth 0 xs 0 = 1 / (2 * IZR nfrag) /\
    nth 1 xs 0 - nth 0 xs 0 = (1 - 1 / IZR nfrag) / IZR (nfrag - 2) /\
    nth 1 xs 0 - nth 0 xs 0 <> 1 / IZR nfrag.
Proof.
  intros Hn.
  assert (Hn' : 3 <= IZR nfrag) by (apply IZR_le; assumption).
  assert (Hm : IZR (nfrag - 2) = IZR nfrag - 2) by (rewrite minus_IZR; lra).
  unfold x_set, py_div.
  destruct (Z.eqb_spec nfrag 0) as [|_]; [lia|]. simpl pbind.
  unfold linspace.
  destruct (Z.ltb_spec (nfrag - 1) 0) as [|_]; [lia|].
  destruct (Z.eqb_spec (nfrag - 1) 1) as [|_]; [lia|].
  eexists. split; [reflexivity|].
  replace (nfrag - 1)%Z with ((nfrag - 3) + 1 + 1)%Z by lia.
  rewrite (range_succ (nfrag - 3 + 1)) by lia.
  rewrite (range_succ (nfrag - 3)) by lia.
  cbn [map nth Z.add].
  replace (nfrag - 3 + 1 + 1 - 1)%Z with (nfrag - 2)%Z by lia.
  rewrite Hm. clear Hm.
  replace 1.0 with 1 by lra. replace 0.5 with (1 / 2) by lra.
  generalize dependent (IZR nfrag). intros n Hn'.
  assert (Hstep : 1 / n * (1 / 2) +
                  1 * ((1 - 1 / n * (1 / 2) - 1 / n * (1 / 2)) / (n - 2)) -
                  (1 / n * (1 / 2) +
                   0 * ((1 - 1 / n * (1 / 2) - 1 / n * (1 / 2)) / (n - 2)))
                  = (1 - 1 / n) / (n - 2)) by (field; lra).
  repeat split.
  - field. lra.
  - exact Hstep.
  - rewrite Hstep. intros H.
    apply (f_equal (fun v => v * (n * (n - 2)))) in H.
    field_simplify in H; lra.
Qed.

(** *** The knots of a table span the unit interval *)

Lemma fold_left_Rmax_ge (t : list R) (h : R) :
  h <= fold_left Rmax t h /\ (forall v, In v t -> v <= fold_left Rmax t h).
Proof.
  revert h. induction t as [|a t IH]; intros h; simpl.
  - split; [lra | intros v []].
  - destruct (IH (Rmax h a)) as [H1 H2].
    pose proof (Rmax_l h a). pose proof (Rmax_r h a).
    split; [lra|]. intros v [<-|Hv]; [lra | auto].
Qed.

Lemma fold_left_Rmax_In (t : list R) (h : R) :
  fold_left Rmax t h = h \/ In (fold_left Rmax t h) t.
Proof.
  revert h. induction t as [|a t IH]; intros h; simpl; [left; reflexivity|].
  destruct (IH (Rmax h a)) as [H|H]; [|right; right; assumption].
  rewrite H. unfold Rmax. destruct (Rle_dec h a); [right; left|left];
    reflexivity.
Qed.

Lemma fold_left_Rmin_le (t : list R) (h : R) :
  fold_left Rmin t h <= h.
Proof.
  revert h. induction t as [|a t IH]; intros h; simpl; [lra|].
  pose proof (IH (Rmin h a)). pose proof (Rmin_l h a). lra.
Qed.

Lemma list_max_ge (l : list R) (v : R) : In v l -> v <= list_max l.
Proof.
  destruct l as [|h t]; [intros []|]. simpl.
  destruct (fold_left_Rmax_ge t h) as [H1 H2].
  intros [<-|Hv]; auto.
Qed.

Lemma list_max_In (l : list R) : l <> [] -> In (list_max l) l.
Proof.
  destruct l as [|h t]; [congruence|]. intros _. simpl.
  destruct (fold_left_Rmax_In t h) as [->|H]; auto.
Qed.

Lemma curve_spans_unit_interval (a b x y : list R) (values : R -> R) :
  retain a 0%Z b [] [] = Val (x, y) ->
  0 < list_max (cumsum (rev (coarsen y ++ [0.0]))) ->
  exists CDE s,
    curve a b = Val (CDE, s) /\
    covers_unit_interval (interp1d_of CDE s values).
Proof.
  intros Hret Hpos. unfold curve. rewrite Hret. simpl pbind.
  eexists. eexists. split; [reflexivity|].
  set (cs := cumsum (rev (coarsen y ++ [0.0]))) in *.
  assert (Hcs : exists t, cs = 0 :: t).
  { unfold cs. rewrite rev_unit. unfold cumsum. simpl.
    eexists. f_equal. lra. }
  destruct Hcs as [t Hcs].
  unfold covers_unit_interval, interp1d_of. simpl x_lo. simpl x_hi. split.
  - rewrite Hcs. cbn [map list_min].
    eapply Rle_trans; [apply fold_left_Rmin_le|].
    unfold Rdiv. rewrite Rmult_0_l. lra.
  - apply list_max_ge. apply in_map_iff. exists (list_max cs). split.
    + unfold Rdiv. apply Rinv_r. lra.
    + apply list_max_In. rewrite Hcs. discriminate.
Qed.

(* ================================================================= *)
(** * Part III: the code beyond the claims                            *)
(* ================================================================= *)

(** ** The force field *)

Lemma m_bulge_pos : 0 < sim_constants.m_bulge.
Proof. unfold sim_constants.m_bulge. lra. Qed.

(** X1: the bulge pulls towards the centre: for [r > 0] the force on a
    positive coordinate is negative, and the force is odd in the
    coordinate. *)
Theorem bulge_force_attracts (r coord : R) :
  0 < r ->
  (0 < coord -> Forces.bulge_force r coord < 0) /\
  Forces.bulge_force r (- coord) = - Forces.bulge_force r coord.
Proof.
  intros Hr. unfold Forces.bulge_force.
  assert (Hden : 0 < r ^ 2 * (sim_constants.ab + r)).
  { unfold sim_constants.ab. apply Rmult_lt_0_compat;
      [apply pow_lt; lra | lra]. }
  split.
  - intros Hc. unfold Rdiv.
    assert (0 < / (r ^ 2 * (sim_constants.ab + r)))
      by (apply Rinv_0_lt_compat; assumption).
    pose proof m_bulge_pos as Hm.
    assert (Hmc : 0 < sim_constants.m_bulge * coord)
      by (apply Rmult_lt_0_compat; assumption).
    assert (0 < sim_constants.m_bulge * coord
                * / (r ^ 2 * (sim_constants.ab + r)))
      by (apply Rmult_lt_0_compat; assumption).
    lra.
  - unfold sim_constants.ab in *. field. lra.
Qed.

Lemma bulge_force_attracts_witness :
  Forces.bulge_force 1 2 < 0.
Proof. apply (bulge_force_attracts 1 2); lra. Defined.

(** X2: the disk pulls towards the centre whatever [r] is handed in: with
    [rho2 >= 0] and [zbd >= 0] the force on a positive coordinate is
    negative, and the force is odd in the coordinate. *)
Theorem disk_force_attracts (r coord rho2 zbd : R) :
  0 <= rho2 -> 0 <= zbd ->
  (0 < coord -> Forces.disk_force r coord rho2 zbd < 0) /\
  Forces.disk_force r (- coord) rho2 zbd = - Forces.disk_force r coord rho2 zbd.
Proof.
  intros _ _. unfold Forces.disk_force.
  assert (Hp : 0 < Rpower (rho2 + (sim_constants.ad + zbd) ^ 2) 1.5)
    by (unfold Rpower; apply exp_pos).
  split.
  - intros Hc. unfold Rdiv.
    assert (0 < / Rpower (rho2 + (sim_constants.ad + zbd) ^ 2) 1.5)
      by (apply Rinv_0_lt_compat; assumption).
    assert (Hm : 0 < sim_constants.m_disk)
      by (unfold sim_constants.m_disk; lra).
    assert (Hmc : 0 < sim_constants.m_disk * coord)
      by (apply Rmult_lt_0_compat; assumption).
    assert (0 < sim_constants.m_disk * coord
                * / Rpower (rho2 + (sim_constants.ad + zbd) ^ 2) 1.5)
      by (apply Rmult_lt_0_compat; assumption).
    lra.
  - field. lra.
Qed.

Lemma disk_force_attracts_witness :
  Forces.disk_force 1 2 1 1 < 0.
Proof. apply (disk_force_attracts 1 2 1 1); lra. Defined.

Lemma ln_lower_bound (x : R) : 0 < x -> x / (1 + x) < ln (1 + x).
Proof.
  intros Hx.
  assert (H1 : 0 < 1 + x) by lra.
  assert (Hne : - x / (1 + x) <> 0).
  { unfold Rdiv. apply Rmult_integral_contrapositive_currified; [lra|].
    apply Rinv_neq_0_compat. lra. }
  pose proof (exp_ineq1 _ Hne) as He.
  replace (1 + - x / (1 + x)) with (/ (1 + x)) in He by (field; lra).
  assert (Hl : ln (/ (1 + x)) < - x / (1 + x)).
  { rewrite <- (ln_exp (- x / (1 + x))).
    apply ln_increasing; [apply Rinv_0_lt_compat; lra | assumption]. }
  rewrite ln_Rinv in Hl by lra.
  unfold Rdiv in *. lra.
Qed.

(** X3: from ten cluster radii on the halo pulls towards the centre: for
    [r > 0] not below [10 * rc] the force on a positive coordinate is
    negative. *)
Theorem halo_force_attracts (u : units) (r coord : R) :
  0 < r -> ~ r < 10 * sim_constants.rc u -> 0 < coord ->
  Forces.halo_force u r coord < 0.
Proof.
  intros Hr Hfar Hc. unfold Forces.halo_force, Forces.logterm, Forces.rterm.
  destruct (Rlt_dec r (10 * sim_constants.rc u)); [contradiction|].
  assert (Hh : 0 < sim_constants.r_halo) by (unfold sim_constants.r_halo; lra).
  assert (Hm : 0 < sim_constants.m_halo) by (unfold sim_constants.m_halo; lra).
  set (x := r / sim_constants.r_halo).
  assert (Hx : 0 < x) by (unfold x; apply Rdiv_lt_0_compat; assumption).
  pose proof (ln_lower_bound x Hx) as Hln.
  replace (1.0 + x) with (1 + x) by lra.
  assert (Hdiff : ln (1 + x) / r ^ 3
                  - 1.0 / ((r + sim_constants.r_halo) * r ^ 2)
                  = (ln (1 + x) - x / (1 + x)) / r ^ 3).
  { unfold x. replace 1.0 with 1 by lra. field. lra. }
  rewrite Hdiff.
  assert (Hr3 : 0 < / r ^ 3)
    by (apply Rinv_0_lt_compat, pow_lt; assumption).
  unfold Rdiv at 1.
  assert (0 < (ln (1 + x) - x / (1 + x)) * / r ^ 3)
    by (apply Rmult_lt_0_compat; lra).
  assert (Hmc : 0 < sim_constants.m_halo * coord)
    by (apply Rmult_lt_0_compat; assumption).
  assert (0 < sim_constants.m_halo * coord
              * ((ln (1 + x) - x / (1 + x)) * / r ^ 3))
    by (apply Rmult_lt_0_compat; assumption).
  lra.
Qed.

Lemma halo_force_attracts_witness :
  Forces.halo_force sample_units 1.0e10 1 < 0.
Proof.
  apply (halo_force_attracts sample_units 1.0e10 1); try lra.
  unfold sim_constants.rc, sample_units. simpl. lra.
Defined.

(** X4: [smoothing_func] takes its values strictly between 0 and 1, is
    one half at [sf1], and increases with [r]. *)
Theorem smoothing_func_range (r r' : R) :
  0 < Forces.smoothing_func r < 1 /\
  Forces.smoothing_func sim_constants.sf1 = 0.5 /\
  (r < r' -> Forces.smoothing_func r < Forces.smoothing_func r').
Proof.
  unfold Forces.smoothing_func.
  assert (Hpi : 0 < PI) by apply PI_RGT_0.
  assert (Hipi : 0 < 1.0 / PI).
  { unfold Rdiv. apply Rmult_lt_0_compat; [lra|].
    apply Rinv_0_lt_compat. assumption. }
  assert (Hscale : forall a, (1.0 / PI) * a = a / PI)
    by (intros a; replace 1.0 with 1 by lra; field; lra).
  split; [|split].
  - pose proof (atan_bound ((r - sim_constants.sf1) / sim_constants.sf2))
      as [Hlo Hhi].
    rewrite Hscale.
    set (a := atan ((r - sim_constants.sf1) / sim_constants.sf2)) in *.
    assert (H1 : - (1 / 2) < a / PI).
    { apply (Rmult_lt_reg_r PI); [assumption|].
      unfold Rdiv. rewrite Rmult_assoc, Rinv_l by lra. lra. }
    assert (H2 : a / PI < 1 / 2).
    { apply (Rmult_lt_reg_r PI); [assumption|].
      unfold Rdiv at 1. rewrite Rmult_assoc, Rinv_l by lra. lra. }
    lra.
  - replace ((sim_constants.sf1 - sim_constants.sf1) / sim_constants.sf2)
      with 0 by (unfold Rdiv; ring).
    rewrite atan_0. lra.
  - intros Hlt.
    assert (Harg : (r - sim_constants.sf1) / sim_constants.sf2
                   < (r' - sim_constants.sf1) / sim_constants.sf2).
    { unfold Rdiv. apply Rmult_lt_compat_r; [|lra].
      apply Rinv_0_lt_compat. unfold sim_constants.sf2. lra. }
    apply atan_increasing in Harg. nra.
Qed.

Lemma smoothing_func_range_witness :
  Forces.smoothing_func 0 < Forces.smoothing_func 1.
Proof. apply (smoothing_func_range 0 1). lra. Defined.

(** ** Python's float arithmetic in the force field *)

Lemma py_fdiv_ok (a b : R) : b <> 0 -> ForcesPy.py_fdiv a b = Val (a / b).
Proof.
  intros H. unfold ForcesPy.py_fdiv.
  destruct (Req_dec_T b 0); [contradiction | reflexivity].
Qed.

Lemma py_fdiv_zero (a : R) : ForcesPy.py_fdiv a 0 = Exc ZeroDivisionError.
Proof.
  unfold ForcesPy.py_fdiv. destruct (Req_dec_T 0 0); [reflexivity | lra].
Qed.

Lemma bulge_den_pos (r : R) : 0 < r -> 0 < r ^ 2 * (sim_constants.ab + r).
Proof.
  intros Hr. unfold sim_constants.ab.
  apply Rmult_lt_0_compat; [apply pow_lt; lra | lra].
Qed.

Lemma rterm_pos (r : R) : 0 < r -> 0 < Forces.rterm r.
Proof.
  intros Hr. unfold Forces.rterm, sim_constants.r_halo.
  apply Rmult_lt_0_compat; [lra | apply pow_lt; lra].
Qed.

Lemma bulge_force_py_ok (r coord : R) :
  0 < r -> ForcesPy.bulge_force r coord = Val (Forces.bulge_force r coord).
Proof.
  intros Hr. unfold ForcesPy.bulge_force, Forces.bulge_force.
  apply py_fdiv_ok. pose proof (bulge_den_pos r Hr). lra.
Qed.

Lemma disk_force_py_ok (r coord rho2 zbd : R) :
  0 <= rho2 -> 0 <= zbd ->
  ForcesPy.disk_force r coord rho2 zbd
  = Val (Forces.disk_force r coord rho2 zbd).
Proof.
  intros Hrho Hz. unfold ForcesPy.disk_force, Forces.disk_force.
  set (b := rho2 + (sim_constants.ad + zbd) ^ 2).
  assert (Hb : 0 < b).
  { unfold b, sim_constants.ad.
    assert (0 < (5.7e8 + zbd) ^ 2) by (apply pow_lt; lra). lra. }
  unfold ForcesPy.py_pow_1_5.
  destruct (Rlt_dec b 0); [lra|].
  destruct (Req_dec_T b 0); [lra|]. simpl pbind.
  apply py_fdiv_ok. unfold Rpower. pose proof (exp_pos (1.5 * ln b)). lra.
Qed.

Lemma halo_force_py_ok (u : units) (r coord : R) :
  0 < r -> ForcesPy.halo_force u r coord = Val (Forces.halo_force u r coord).
Proof.
  intros Hr. unfold ForcesPy.halo_force, Forces.halo_force.
  rewrite py_fdiv_ok by (pose proof (rterm_pos r Hr); lra).
  reflexivity.
Qed.

(** X5: at [r = 0] the Python float divisions of [bulge_force] and of
    [halo_force] raise [ZeroDivisionError], whatever the coordinate;
    [halo_force] does so although [r = 0] is inside its cut-off, where
    [halo_scale] would make the result zero. *)
Theorem forces_raise_at_zero (u : units) (coord : R) :
  ForcesPy.bulge_force 0 coord = Exc ZeroDivisionError /\
  ForcesPy.halo_force u 0 coord = Exc ZeroDivisionError.
Proof.
  split.
  - unfold ForcesPy.bulge_force.
    replace (0 ^ 2 * (sim_constants.ab + 0)) with 0 by ring.
    apply py_fdiv_zero.
  - unfold ForcesPy.halo_force, Forces.rterm.
    replace ((0 + sim_constants.r_halo) * 0 ^ 2) with 0 by ring.
    rewrite py_fdiv_zero. reflexivity.
Qed.


(** ** [migrationAccel] *)

Lemma radius_pos (b : particle) :
  ~ Accel.at_origin b -> 0 < sqrt (p_x b ^ 2 + p_y b ^ 2 + p_z b ^ 2).
Proof.
  intros H. apply sqrt_lt_R0.
  destruct (Req_dec (p_x b) 0) as [Hx|Hx];
    destruct (Req_dec (p_y b) 0) as [Hy|Hy];
    destruct (Req_dec (p_z b) 0) as [Hz|Hz];
    try (exfalso; apply H; repeat split; assumption); nra.
Qed.

Lemma force_sum_ok (u : units) (r coord rho2 zbd : R) :
  0 < r -> 0 <= rho2 -> 0 <= zbd ->
  Accel.force_sum u r coord rho2 zbd =
  Val (Forces.cluster_force r coord + Forces.bulge_force r coord
       + Forces.disk_force r coord rho2 zbd + Forces.halo_force u r coord).
Proof.
  intros Hr Hrho Hz. unfold Accel.force_sum, ForcesPy.cluster_force.
  rewrite bulge_force_py_ok, disk_force_py_ok, halo_force_py_ok
    by assumption.
  reflexivity.
Qed.

Lemma accelerate_ok (u : units) (p : forced) :
  ~ Accel.at_origin (body p) ->
  Accel.accelerate u p = Val (Accel.accelerated u p).
Proof.
  intros H. pose proof (radius_pos _ H) as Hr.
  unfold Accel.accelerate, Accel.accelerated, Accel.field.
  rewrite math_sqrt_ok by nra. simpl pbind.
  rewrite math_sqrt_ok by nra. simpl pbind.
  rewrite !force_sum_ok; try assumption; try nra; try apply sqrt_pos.
  reflexivity.
Qed.

Lemma accelerate_at_origin (u : units) (p : forced) :
  Accel.at_origin (body p) ->
  Accel.accelerate u p = Exc ZeroDivisionError.
Proof.
  intros (Hx & Hy & Hz). unfold Accel.accelerate.
  rewrite Hx, Hy, Hz.
  replace (0 ^ 2 + 0 ^ 2 + 0 ^ 2) with 0 by ring.
  rewrite math_sqrt_ok by lra. simpl pbind. rewrite sqrt_0.
  rewrite math_sqrt_ok by nra. simpl pbind.
  unfold Accel.force_sum, ForcesPy.cluster_force. simpl pbind.
  unfold ForcesPy.bulge_force.
  replace (0 ^ 2 * (sim_constants.ab + 0)) with 0 by ring.
  rewrite py_fdiv_zero. reflexivity.
Qed.

Lemma accelerate_all_ok (u : units) (ps : list forced) :
  Forall (fun p => ~ Accel.at_origin (body p)) ps ->
  Accel.accelerate_all u ps = (Val tt, map (Accel.accelerated u) ps).
Proof.
  induction 1 as [|p rest Hp Hrest IH]; simpl; [reflexivity|].
  rewrite (accelerate_ok u p Hp), IH. reflexivity.
Qed.

(** X6: when no fragment sits at the origin, [migrationAccel] returns; it
    leaves the first particle (the central body) as it is, and adds to
    the acceleration of every other particle, axis by axis, the sum of
    the four force terms at its place, without touching its position. *)
Theorem migrationAccel_accumulates (u : units) (central : forced)
        (fragments : list forced) :
  Forall (fun p => ~ Accel.at_origin (body p)) fragments ->
  Accel.migrationAccel u (central :: fragments)
  = (Val tt, central :: map (Accel.accelerated u) fragments) /\
  (forall (k : nat) (p : forced),
     nth_error fragments k = Some p ->
     exists p',
       nth_error (map (Accel.accelerated u) fragments) k = Some p' /\
       body p' = body p /\
       f_ax p' - f_ax p = Accel.field u (body p) (p_x (body p)) /\
       f_ay p' - f_ay p = Accel.field u (body p) (p_y (body p)) /\
       f_az p' - f_az p = Accel.field u (body p) (p_z (body p))).
Proof.
  intros H. split.
  - unfold Accel.migrationAccel. now rewrite (accelerate_all_ok u _ H).
  - intros k p Hk. exists (Accel.accelerated u p).
    rewrite nth_error_map, Hk. unfold Accel.accelerated. simpl.
    repeat split; ring.
Qed.

Lemma migrationAccel_accumulates_witness :
  Accel.migrationAccel sample_units
    [mkForced hole 0 0 0; mkForced slow_1 0 0 0]
  = (Val tt, [mkForced hole 0 0 0;
              Accel.accelerated sample_units (mkForced slow_1 0 0 0)]).
Proof.
  apply (migrationAccel_accumulates sample_units (mkForced hole 0 0 0)
                                    [mkForced slow_1 0 0 0]).
  constructor; [|constructor].
  intros (Hx & _). simpl in Hx. lra.
Defined.

(** X7: a fragment at the origin makes [migrationAccel] raise
    [ZeroDivisionError]; the fragments before it have been accelerated,
    that one and those after it are as they were. *)
Theorem migrationAccel_at_origin (u : units) (central p0 : forced)
        (before after : list forced) :
  Forall (fun p => ~ Accel.at_origin (body p)) before ->
  Accel.at_origin (body p0) ->
  Accel.migrationAccel u (central :: before ++ p0 :: after)
  = (Exc ZeroDivisionError,
     central :: map (Accel.accelerated u) before ++ p0 :: after).
Proof.
  intros Hb H0. unfold Accel.migrationAccel.
  assert (Hall : Accel.accelerate_all u (before ++ p0 :: after)
                 = (Exc ZeroDivisionError,
                    map (Accel.accelerated u) before ++ p0 :: after)).
  { induction Hb as [|p rest Hp Hrest IH]; simpl.
    - now rewrite (accelerate_at_origin u p0 H0).
    - rewrite (accelerate_ok u p Hp), IH. reflexivity. }
  now rewrite Hall.
Qed.

Lemma migrationAccel_at_origin_witness :
  Accel.migrationAccel sample_units
    [mkForced hole 0 0 0; mkForced slow_1 0 0 0; mkForced hole 0 0 0]
  = (Exc ZeroDivisionError,
     [mkForced hole 0 0 0;
      Accel.accelerated sample_units (mkForced slow_1 0 0 0);
      mkForced hole 0 0 0]).
Proof.
  apply (migrationAccel_at_origin sample_units (mkForced hole 0 0 0)
           (mkForced hole 0 0 0) [mkForced slow_1 0 0 0] []).
  - constructor; [|constructor]. intros (Hx & _). simpl in Hx. lra.
  - repeat split.
Defined.

Close Scope R_scope.

(** ** From a particle index to its star *)

Lemma next_enumerate_first (P : Z -> bool) (l : list Z) (n : nat) (v k0 : Z) :
  (forall m w, (m < n)%nat -> nth_error l m = Some w -> P w = false) ->
  nth_error l n = Some v -> P v = true ->
  next_enumerate P l k0 = Val (k0 + Z.of_nat n).
Proof.
  revert n k0. induction l as [|h t IH]; intros n k0 Hbefore Hn Hv.
  - destruct n; discriminate.
  - destruct n as [|n]; simpl in *.
    + inversion Hn; subst. rewrite Hv. f_equal. lia.
    + rewrite (Hbefore 0%nat h) by (simpl; auto; lia).
      rewrite (IH n (k0 + 1) ); [f_equal; lia| |assumption|assumption].
      intros m w Hm Hw. apply (Hbefore (S m) w); [lia | assumption].
Qed.

Lemma owner_first (sf : list Z) (pi v : Z) (n : nat) :
  (forall m w, (m < n)%nat -> nth_error sf m = Some w -> w < pi) ->
  nth_error sf n = Some v -> pi <= v ->
  owner sf pi = Val (Z.of_nat n).
Proof.
  intros Hbefore Hn Hv. unfold owner.
  rewrite (next_enumerate_first _ sf n v 0); [reflexivity| |assumption|].
  - intros m w Hm Hw. specialize (Hbefore m w Hm Hw).
    apply orb_false_intro; lia.
  - apply orb_true_intro. destruct (Z.eq_dec v pi); [right|left]; lia.
Qed.

(** X8: in an ordered boundary list the particle index [pi] belongs to
    star [k + 1] exactly when it lies in the half-open interval
    [(sfindices[k], sfindices[k+1]]]. *)
Theorem owner_interval (sf : list Z) (pi : Z) (k : nat) :
  non_decreasing sf ->
  (owner sf pi = Val (Z.of_nat (S k)) <->
   exists a b,
     nth_error sf k = Some a /\ nth_error sf (S k) = Some b /\ a < pi <= b).
Proof.
  intros Hsf. split.
  - intros H. apply owner_Val in H as (_ & (b & Hb & Hpb) & Hbefore).
    rewrite Nat2Z.id in *.
    destruct (nth_error sf k) as [a|] eqn:Ha.
    + exists a, b. repeat split; try assumption.
      apply (Hbefore k a); [lia | assumption].
    + apply nth_error_None in Ha.
      assert (S k < length sf)%nat by (apply nth_error_Some; congruence).
      lia.
  - intros (a & b & Ha & Hb & Hlo & Hhi).
    apply (owner_first sf pi b (S k)); try assumption.
    intros m w Hm Hw.
    destruct (Nat.eq_dec m k) as [->|Hne].
    + assert (w = a) by congruence. lia.
    + assert (w <= a) by (apply (Hsf m k w a); auto; lia). lia.
Qed.

Lemma owner_interval_witness :
  owner [0; 2; 5] 4 = Val 2.
Proof.
  apply (owner_interval [0; 2; 5] 4 1).
  - intros [|[|[|i]]] [|[|[|j]]] a b Ha Hb Hij; simpl in *;
      try lia; try discriminate;
      try (inversion Ha; inversion Hb; subst; lia);
      destruct j; discriminate.
  - exists 2, 5. repeat split; lia.
Defined.

(** ** The book-keeping stays in step with the simulation *)

Lemma set_nth_length {A : Type} (k : nat) (a : A) (l : list A) :
  length (set_nth k a l) = length l.
Proof.
  revert k. induction l as [|h t IH]; intros [|k]; simpl; auto.
Qed.

Lemma next_enumerate_none (P : Z -> bool) (l : list Z) (k : Z) (e : exn) :
  next_enumerate P l k = Exc e -> forall v, In v l -> P v = false.
Proof.
  revert k. induction l as [|h t IH]; intros k H v Hv; [destruct Hv|].
  simpl in H. destruct (P h) eqn:Ph; [discriminate|].
  destruct Hv as [<-|Hv]; [assumption | eauto].
Qed.

Lemma owner_exists (sf : list Z) (pi v : Z) :
  In v sf -> pi <= v -> exists i, owner sf pi = Val i.
Proof.
  intros Hin Hv. destruct (owner sf pi) as [i|e] eqn:Ho; [eauto|].
  unfold owner in Ho.
  pose proof (next_enumerate_none _ _ _ _ Ho v Hin) as Hf.
  apply orb_false_elim in Hf. lia.
Qed.

Lemma rows_match_same_length (nfrag : Z) (sf : list Z)
      (pos : list (list (list R))) (k : nat) (row row' : list (list R)) :
  rows_match nfrag sf pos -> nth_error pos k = Some row ->
  length row' = length row ->
  rows_match nfrag sf (set_nth k row' pos).
Proof.
  intros Hm Hrow Hlen j r Hj. rewrite nth_error_set_nth in Hj.
  destruct (Nat.eqb_spec j k) as [->|Hne].
  - assert (Hk : (k < length pos)%nat) by (apply nth_error_Some; congruence).
    rewrite (proj2 (Nat.ltb_lt _ _) Hk) in Hj. inversion Hj; subst r.
    specialize (Hm k row Hrow). unfold len in *. rewrite Hlen. exact Hm.
  - exact (Hm j r Hj).
Qed.

Lemma rows_match_remove (nfrag : Z) (sf : list Z)
      (pos : list (list (list R))) (k m : nat) (row : list (list R))
      (a b : Z) :
  rows_match nfrag sf pos -> nth_error pos k = Some row ->
  (m < length row)%nat ->
  nth_error sf k = Some a -> nth_error sf (S k) = Some b ->
  rows_match nfrag (decrement_from (Z.of_nat (S k)) sf)
             (set_nth k (remove_nth m row) pos).
Proof.
  intros Hm Hrow Hlt Ha Hb j r Hj.
  rewrite nth_error_set_nth in Hj.
  rewrite !nth_error_decrement_from, Nat2Z.id.
  destruct (Nat.eqb_spec j k) as [->|Hne].
  - assert (Hk : (k < length pos)%nat) by (apply nth_error_Some; congruence).
    rewrite (proj2 (Nat.ltb_lt _ _) Hk) in Hj. inversion Hj; subst r.
    destruct (Nat.ltb_spec k (S k)); [|lia].
    destruct (Nat.ltb_spec (S k) (S k)); [lia|].
    rewrite Ha, Hb. simpl.
    specialize (Hm k row Hrow). rewrite Ha, Hb in Hm.
    pose proof (length_remove_nth m row Hlt). unfold len in *. lia.
  - specialize (Hm j r Hj).
    destruct (Nat.ltb_spec j (S k)) as [Hj1|Hj1];
      destruct (Nat.ltb_spec (S j) (S k)) as [Hj2|Hj2]; try lia.
    + exact Hm.
    + destruct (nth_error sf j) as [a'|]; destruct (nth_error sf (S j)) as [b'|];
        simpl; try exact Hm. lia.
Qed.

Lemma rows_match_app (nfrag x y : Z) (sf : list Z)
      (pos : list (list (list R))) :
  rows_match nfrag sf pos ->
  nth_error sf (length sf - 1) = Some x -> y - x = nfrag ->
  rows_match nfrag (sf ++ [y]) pos.
Proof.
  intros Hm Hlast Hy j r Hj. specialize (Hm j r Hj).
  assert (Hne : (0 < length sf)%nat).
  { destruct sf; [|simpl; lia]. simpl in Hlast. discriminate. }
  destruct (Nat.lt_ge_cases (S j) (length sf)) as [H1|H1].
  - rewrite !nth_error_app1 by lia. exact Hm.
  - destruct (Nat.eq_dec (S j) (length sf)) as [Heq|Hgt].
    + rewrite nth_error_app1 by lia.
      rewrite nth_error_app2, Heq, Nat.sub_diag by lia. simpl.
      replace j with (length sf - 1)%nat in * by lia.
      rewrite Hlast in *.
      rewrite (proj2 (nth_error_None sf (S (length sf - 1)))) in Hm by lia.
      lia.
    + assert (Hn2 : nth_error (sf ++ [y]) (S j) = None).
      { apply nth_error_None. rewrite length_app. simpl. lia. }
      rewrite Hn2.
      rewrite (proj2 (nth_error_None sf (S j))) in Hm by lia.
      destruct (nth_error sf j), (nth_error (sf ++ [y]) j); exact Hm.
Qed.

Lemma nth_error_nested (Nstars0 Nfrag0 : Z) (k : nat)
      (row : list (list R)) :
  0 <= Nfrag0 -> nth_error (nested Nstars0 Nfrag0) k = Some row ->
  len row = Nfrag0.
Proof.
  intros Hf H. unfold nested in H. rewrite nth_error_map in H.
  destruct (nth_error (range Nstars0) k); [|discriminate].
  simpl in H. inversion H; subst.
  rewrite length_len_map, len_range; auto.
Qed.

Lemma kept_init (Nstars0 Nfrag0 : Z) :
  0 <= Nfrag0 -> kept (sim_setup (init Nstars0 Nfrag0)).
Proof.
  intros Hf. destruct (sf_invariant_init Nstars0 Nfrag0) as [Hcore _].
  unfold kept. split; [exact Hcore|].
  unfold next_star, sim_setup, init, N, len. simpl.
  split; [reflexivity|]. split.
  { exists hole. split; [reflexivity|]. repeat split. }
  split; [assumption|]. split; [lia|].
  intros pos Hpos.
  assert (Hpos' : pos = nested Nstars0 Nfrag0)
    by (destruct Hpos as [<-|[<-|[<-|[]]]]; reflexivity).
  subst pos. split.
  - unfold nested. now rewrite length_map, length_range.
  - intros k row Hrow. apply nth_error_nested in Hrow; [|assumption].
    destruct k as [|k]; simpl; [exact Hrow|].
    destruct k; simpl; exact Hrow.
Qed.

Lemma kept_disrupt (E : externals) (u : units) (d : draws) (time : R)
      (s s' : state) :
  kept s -> (next_star s < Z.to_nat (Nstars s))%nat ->
  star_disrupt E u d time s = (Val tt, s') ->
  kept s' /\ next_star s' = S (next_star s) /\ Nstars s' = Nstars s.
Proof.
  intros (Hcore & Hlast & (p0 & Hp0 & Horig) & Hnf & Hbudget & Hrows)
         Hroom Hd.
  assert (Hinv : sf_invariant s).
  { split; [exact Hcore|]. intros v Hv.
    destruct Hcore as (Hnd & _).
    apply In_nth_error in Hv as [m Hm].
    assert (Hml : (m < length (sfindices s))%nat)
      by (apply nth_error_Some; congruence).
    destruct (Nat.eq_dec m (next_star s)) as [->|Hne].
    - assert (v = N s - 1) by congruence. lia.
    - apply (Hnd m (next_star s) v (N s - 1)); auto.
      unfold next_star in *. lia. }
  pose proof (sf_invariant_disrupt E u d time s s' Hinv Hd) as [Hcore' _].
  apply star_disrupt_Val in Hd
    as (m_star & r_star & r_t & ov & new & _ & Hnew & ->).
  assert (Hne : (0 < length (sfindices s))%nat)
    by (destruct Hcore as (_ & _ & Hl & _); lia).
  unfold next_star in Hlast, Hbudget, Hroom.
  split; [|split; [|reflexivity]].
  2:{ unfold next_star. cbn [sfindices]. rewrite length_app.
      cbn [length]. lia. }
  unfold kept, next_star.
  cbn [sfindices particles Nfrag Nstars posx posy posz].
  rewrite length_app. cbn [length].
  split; [exact Hcore'|]. split.
  { replace (length (sfindices s) + 1 - 1)%nat with (length (sfindices s))
      by lia.
    rewrite nth_error_app2, Nat.sub_diag by lia. cbn [nth_error]. f_equal.
    unfold N, len in *. cbn [particles]. rewrite length_app. lia. }
  split.
  { exists p0. split; [|assumption].
    rewrite nth_error_app1; [assumption|].
    apply nth_error_Some. congruence. }
  split; [assumption|]. split; [lia|].
  intros pos Hpos. destruct (Hrows pos Hpos) as [Hlen Hmatch].
  split; [assumption|].
  apply (rows_match_app (Nfrag s) (N s - 1)); [assumption|assumption|lia].
Qed.

Lemma kept_locate (s : state) (index : Z) :
  kept s -> 1 <= index < N s ->
  exists (k : nat) (prev b : Z),
    owner (sfindices s) index = Val (Z.of_nat (S k)) /\
    nth_error (sfindices s) k = Some prev /\
    nth_error (sfindices s) (S k) = Some b /\
    prev < index <= b /\
    (S k <= next_star s)%nat /\
    (k < length (orbital_vels s))%nat /\
    (forall pos, In pos [posx s; posy s; posz s] ->
       exists row, nth_error pos k = Some row /\ len row = b - prev).
Proof.
  intros ((Hnd & H0 & Hlen & Hov) & Hlast & _ & Hnf & Hbudget & Hrows) Hidx.
  destruct (owner_exists (sfindices s) index (N s - 1)) as [i Hown];
    [eapply nth_error_In; eassumption | lia |].
  pose proof (owner_Val _ _ _ Hown) as (Hi & (b & Hb & Hpb) & Hbefore).
  assert (Hi1 : 1 <= i).
  { destruct (Z.eq_dec i 0) as [->|]; [|lia].
    change (Z.to_nat 0) with 0%nat in Hb. assert (b = 0) by congruence. lia. }
  assert (Hile : (Z.to_nat i <= next_star s)%nat).
  { destruct (Nat.le_gt_cases (Z.to_nat i) (next_star s)); [assumption|].
    specialize (Hbefore (next_star s) (N s - 1) H Hlast). lia. }
  set (k := (Z.to_nat i - 1)%nat).
  assert (Hk : Z.to_nat i = S k) by (unfold k; lia).
  assert (Hik : i = Z.of_nat (S k)) by lia.
  rewrite Hk in *.
  destruct (nth_error (sfindices s) k) as [prev|] eqn:Hprev.
  2:{ apply nth_error_None in Hprev.
      assert (S k < length (sfindices s))%nat
        by (apply nth_error_Some; congruence). lia. }
  pose proof (Hbefore k prev ltac:(lia) Hprev) as Hlo.
  exists k, prev, b. rewrite <- Hik.
  split; [assumption|]. split; [assumption|]. split; [assumption|].
  split; [lia|].
  split; [assumption|].
  split; [unfold next_star in *; lia|].
  intros pos Hpos. destruct (Hrows pos Hpos) as [Hl Hm].
  destruct (nth_error pos k) as [row|] eqn:Hrow.
  - exists row. split; [reflexivity|].
    specialize (Hm k row Hrow). now rewrite Hprev, Hb in Hm.
  - apply nth_error_None in Hrow. lia.
Qed.

Lemma nth_error_remove_nth_0 {A : Type} (n : nat) (l : list A) :
  (1 <= n)%nat -> nth_error (remove_nth n l) 0 = nth_error l 0.
Proof.
  intros Hn. unfold remove_nth. destruct n as [|n]; [lia|].
  destruct l as [|h t]; reflexivity.
Qed.

Lemma kept_remove (s : state) (index : Z) :
  kept s -> 1 <= index < N s ->
  exists s',
    remove_fragment index s = (Val tt, s') /\ kept s' /\
    N s' = N s - 1 /\ next_star s' = next_star s /\
    Nstars s' = Nstars s /\
    particles s' = remove_nth (Z.to_nat index) (particles s).
Proof.
  intros Hkept Hidx.
  destruct (kept_locate s index Hkept Hidx)
    as (k & prev & b & Hown & Hprev & Hb & Hrange & Hk & _ & Hrow).
  destruct Hkept
    as (Hcore & Hlast & (p0 & Hp0 & Horig) & Hnf & Hbudget & Hrows).
  destruct (Hrow (posx s)) as (rx & Hrx & Hlx); [simpl; auto|].
  destruct (Hrow (posy s)) as (ry & Hry & Hly); [simpl; auto|].
  destruct (Hrow (posz s)) as (rz & Hrz & Hlz); [simpl; auto|].
  assert (Hget : getitem (sfindices s) (Z.of_nat (S k) - 1) = Val prev).
  { apply getitem_nonneg; [lia|].
    replace (Z.to_nat (Z.of_nat (S k) - 1)) with k by lia. assumption. }
  assert (Hpop : forall pos row,
             nth_error pos k = Some row -> len row = b - prev ->
             pop_record pos (Z.of_nat (S k) - 1) (index - (prev + 1))
             = Val (set_nth k
                      (remove_nth (Z.to_nat (index - (prev + 1))) row) pos)).
  { intros pos row Hr Hl.
    replace (Z.of_nat (S k) - 1) with (Z.of_nat k) by lia.
    apply pop_record_ok; [assumption | lia]. }
  pose proof (remove_fragment_ok index _ prev s _ _ _
                ltac:(lia) Hown Hget
                (Hpop _ _ Hrx Hlx) (Hpop _ _ Hry Hly) (Hpop _ _ Hrz Hlz))
    as Hrun.
  eexists. split; [exact Hrun|].
  assert (HN : len (remove_nth (Z.to_nat index) (particles s)) = N s - 1).
  { unfold N, len in *.
    assert (Hl : (Z.to_nat index < length (particles s))%nat) by lia.
    apply length_remove_nth in Hl. lia. }
  assert (Hns : (length (decrement_from (Z.of_nat (S k)) (sfindices s)) - 1
                 = next_star s)%nat)
    by (rewrite length_decrement_from; reflexivity).
  split; [|split; [exact HN|split; [exact Hns|split; reflexivity]]].
  unfold kept, next_star.
  cbn [sfindices particles Nfrag Nstars posx posy posz].
  unfold next_star in *. rewrite Hns.
  split.
  { destruct Hcore as (Hnd & H0 & Hlen & Hov).
    unfold sf_core. cbn [sfindices star_masses orbital_vels].
    split; [eapply decrement_from_non_decreasing; eassumption|].
    split; [eapply (decrement_from_head _ index); [lia|assumption|eassumption]|].
    split; [rewrite length_decrement_from; assumption | assumption]. }
  split.
  { rewrite nth_error_decrement_from, Nat2Z.id.
    destruct (Nat.ltb_spec (length (sfindices s) - 1) (S k)); [lia|].
    rewrite Hlast. cbn [option_map]. f_equal.
    unfold N at 2. cbn [particles]. lia. }
  split.
  { exists p0. split; [|assumption].
    rewrite nth_error_remove_nth_0 by lia. assumption. }
  split; [assumption|]. split; [assumption|].
  intros pos Hpos.
  assert (Hcase : exists pos0 row,
             In pos0 [posx s; posy s; posz s] /\
             nth_error pos0 k = Some row /\ len row = b - prev /\
             pos = set_nth k
                     (remove_nth (Z.to_nat (index - (prev + 1))) row) pos0).
  { destruct Hpos as [<-|[<-|[<-|[]]]].
    - exists (posx s), rx. simpl. auto.
    - exists (posy s), ry. simpl. auto 6.
    - exists (posz s), rz. simpl. auto 6. }
  destruct Hcase as (pos0 & row & Hin & Hr & Hl & ->).
  destruct (Hrows pos0 Hin) as [Hlen0 Hm0].
  split; [rewrite set_nth_length; assumption|].
  apply (rows_match_remove _ _ _ _ _ _ prev b); try assumption.
  unfold len in Hl. lia.
Qed.

(** ** [record_fragment_positions] *)

Lemma record_fragment_positions_loop (u : units) (s : state) :
  record_fragment_positions u s
  = for_each (combine (range (len (particles s))) (particles s))
             (record_one u) s.
Proof. reflexivity. Qed.

Lemma append_record_ok (pos : list (list (list R))) (k f : nat)
      (row : list (list R)) (track : list R) (v : R) :
  nth_error pos k = Some row -> nth_error row f = Some track ->
  append_record pos (Z.of_nat k) (Z.of_nat f) v
  = Val (set_nth k (set_nth f (track ++ [v]) row) pos).
Proof.
  intros Hrow Htrack. unfold append_record, pbind.
  rewrite (getitem_nth_error _ _ _ Hrow), (getitem_nth_error _ _ _ Htrack).
  assert (Hf : (f < length row)%nat) by (apply nth_error_Some; congruence).
  assert (Hk : (k < length pos)%nat) by (apply nth_error_Some; congruence).
  unfold setitem.
  rewrite norm_index_nonneg by (unfold len; lia).
  rewrite norm_index_nonneg by (unfold len; lia).
  now rewrite !Nat2Z.id.
Qed.

Lemma list_sum_set_nth {A : Type} (g : A -> nat) (k : nat) (a old : A)
      (l : list A) :
  nth_error l k = Some old ->
  (list_sum (map g (set_nth k a l)) + g old
   = list_sum (map g l) + g a)%nat.
Proof.
  revert k. induction l as [|h t IH]; intros [|k] H; simpl in *;
    try discriminate.
  - inversion H; subst. lia.
  - specialize (IH k H). lia.
Qed.

Lemma samples_append (pos : list (list (list R))) (k f : nat)
      (row : list (list R)) (track : list R) (v : R) :
  nth_error pos k = Some row -> nth_error row f = Some track ->
  samples (set_nth k (set_nth f (track ++ [v]) row) pos) = S (samples pos).
Proof.
  intros Hrow Htrack. unfold samples.
  pose proof (list_sum_set_nth
                (fun r => list_sum (map (@length R) r)) k
                (set_nth f (track ++ [v]) row) row pos Hrow) as H1.
  pose proof (list_sum_set_nth (@length R) f (track ++ [v]) track row Htrack)
    as H2.
  cbv beta in H1. rewrite length_app in H2. simpl in H2. lia.
Qed.

Lemma record_one_kept (u : units) (pi : Z) (p : particle) (s : state) :
  kept s -> 0 <= pi < N s ->
  exists s',
    record_one u (pi, p) s = (Val tt, s') /\ kept s' /\
    sfindices s' = sfindices s /\ particles s' = particles s /\
    star_masses s' = star_masses s /\ Nstars s' = Nstars s /\
    samples (posx s') = (samples (posx s) + if (pi =? 0)%Z then 0 else 1)%nat /\
    samples (posy s') = (samples (posy s) + if (pi =? 0)%Z then 0 else 1)%nat /\
    samples (posz s') = (samples (posz s) + if (pi =? 0)%Z then 0 else 1)%nat.
Proof.
  intros Hkept Hpi. unfold record_one.
  destruct (Z.eqb_spec pi 0) as [->|Hne].
  { exists s. split; [reflexivity|]. split; [assumption|].
    cbn [Z.eqb]. rewrite !Nat.add_0_r. repeat split. }
  destruct (kept_locate s pi Hkept ltac:(lia))
    as (k & prev & b & Hown & Hprev & Hb & Hrange & Hk & _ & Hrow).
  destruct Hkept
    as (Hcore & Hlast & Horig & Hnf & Hbudget & Hrows).
  assert (Hget : getitem (sfindices s) (Z.of_nat (S k) - 1) = Val prev).
  { apply getitem_nonneg; [lia|].
    replace (Z.to_nat (Z.of_nat (S k) - 1)) with k by lia. assumption. }
  set (f := Z.to_nat (pi - prev - 1)).
  assert (Hf : pi - prev - 1 = Z.of_nat f) by (unfold f; lia).
  assert (Hstar : Z.of_nat (S k) - 1 = Z.of_nat k) by lia.
  assert (Happ : forall pos v,
             In pos [posx s; posy s; posz s] ->
             exists row track,
               nth_error pos k = Some row /\ nth_error row f = Some track /\
               append_record pos (Z.of_nat (S k) - 1) (pi - prev - 1) v
               = Val (set_nth k (set_nth f (track ++ [v]) row) pos)).
  { intros pos v Hpos. destruct (Hrow pos Hpos) as (row & Hr & Hl).
    destruct (nth_error row f) as [track|] eqn:Ht.
    - exists row, track. repeat split; try assumption.
      rewrite Hstar, Hf. now apply append_record_ok.
    - apply nth_error_None in Ht. unfold len in Hl. lia. }
  destruct (Happ (posx s) (p_x p / sim_constants.scale u)%R)
    as (rx & tx & Hrx & Htx & Hax); [simpl; auto|].
  destruct (Happ (posy s) (p_y p / sim_constants.scale u)%R)
    as (ry & ty & Hry & Hty & Hay); [simpl; auto|].
  destruct (Happ (posz s) (p_z p / sim_constants.scale u)%R)
    as (rz & tz & Hrz & Htz & Haz); [simpl; auto|].
  eexists. split.
  { erewrite bind_eq by reflexivity.
    erewrite bind_eq by (apply lift_ok, Hown).
    erewrite bind_eq by (apply lift_ok, Hget). cbv zeta.
    erewrite bind_eq by reflexivity.
    erewrite bind_eq by (apply lift_ok, Hax).
    erewrite bind_eq by reflexivity.
    erewrite bind_eq by reflexivity.
    erewrite bind_eq by (apply lift_ok, Hay).
    erewrite bind_eq by reflexivity.
    erewrite bind_eq by reflexivity.
    erewrite bind_eq by (apply lift_ok, Haz).
    reflexivity. }
  cbn [sfindices particles star_masses Nstars posx posy posz set_posx
       set_posy set_posz].
  split.
  { unfold kept, next_star.
    cbn [sfindices particles Nfrag Nstars posx posy posz set_posx
         set_posy set_posz].
    split; [exact Hcore|]. split; [exact Hlast|]. split; [exact Horig|].
    split; [assumption|]. split; [assumption|].
    intros pos Hpos.
    assert (Hcase : exists pos0 row track v,
               In pos0 [posx s; posy s; posz s] /\
               nth_error pos0 k = Some row /\
               pos = set_nth k (set_nth f (track ++ [v]) row) pos0).
    { destruct Hpos as [<-|[<-|[<-|[]]]].
      - exists (posx s), rx. do 2 eexists. simpl. auto.
      - exists (posy s), ry. do 2 eexists. simpl. auto 6.
      - exists (posz s), rz. do 2 eexists. simpl. auto 6. }
    destruct Hcase as (pos0 & row & track & v & Hin & Hr & ->).
    destruct (Hrows pos0 Hin) as [Hl0 Hm0].
    split; [rewrite set_nth_length; assumption|].
    apply (rows_match_same_length _ _ _ _ row); try assumption.
    apply set_nth_length. }
  rewrite (samples_append _ _ _ _ _ _ Hrx Htx),
          (samples_append _ _ _ _ _ _ Hry Hty),
          (samples_append _ _ _ _ _ _ Hrz Htz).
  repeat split; lia.
Qed.

Lemma record_loop_kept (u : units) (l : list (Z * particle)) :
  forall s,
    kept s -> (forall ip, In ip l -> 0 <= fst ip < N s) ->
    exists s',
      for_each l (record_one u) s = (Val tt, s') /\ kept s' /\
      sfindices s' = sfindices s /\ particles s' = particles s /\
      star_masses s' = star_masses s /\ Nstars s' = Nstars s /\
      let fragments :=
        length (filter (fun ip => negb (fst ip =? 0)%Z) l) in
      samples (posx s') = (samples (posx s) + fragments)%nat /\
      samples (posy s') = (samples (posy s) + fragments)%nat /\
      samples (posz s') = (samples (posz s) + fragments)%nat.
Proof.
  induction l as [|[pi p] rest IH]; intros s Hkept Hin.
  - exists s. split; [reflexivity|]. split; [assumption|].
    cbn [filter length]. rewrite !Nat.add_0_r. repeat split.
  - destruct (record_one_kept u pi p s Hkept (Hin (pi, p) (or_introl eq_refl)))
      as (s1 & Hrun1 & Hkept1 & Hsf1 & Hps1 & Hsm1 & Hns1 & Hx1 & Hy1 & Hz1).
    destruct (IH s1 Hkept1) as (s' & Hrun & Hkept' & Hsf & Hps & Hsm & Hns & Hx & Hy & Hz).
    { intros ip Hip. unfold N in *. rewrite Hps1. apply Hin. right. exact Hip. }
    exists s'. split.
    { simpl for_each. erewrite bind_eq by exact Hrun1. exact Hrun. }
    split; [assumption|].
    split; [congruence|]. split; [congruence|].
    split; [congruence|]. split; [congruence|].
    cbn [filter fst]. cbv zeta in *.
    destruct (Z.eqb_spec pi 0); cbn [negb length]; repeat split; lia.
Qed.

Lemma combine_range_fragments (ps : list particle) :
  length (filter (fun ip : Z * particle => negb (fst ip =? 0))
                 (combine (range (len ps)) ps))
  = (length ps - 1)%nat.
Proof.
  destruct ps as [|p0 rest]; [reflexivity|].
  unfold len. cbn [length]. rewrite Nat2Z.inj_succ, <- Z.add_1_r.
  rewrite range_succ by lia. cbn [combine filter fst Z.eqb negb].
  rewrite Nat.sub_succ, Nat.sub_0_r.
  assert (H : forall l : list (Z * particle),
             (forall ip, In ip l -> fst ip <> 0) ->
             filter (fun ip : Z * particle => negb (fst ip =? 0)) l = l).
  { induction l as [|ip l IH]; intros Hl; [reflexivity|]. simpl.
    destruct (Z.eqb_spec (fst ip) 0) as [Heq|_].
    - exfalso. apply (Hl ip); [left; reflexivity | assumption].
    - simpl. f_equal. apply IH. intros q Hq. apply Hl. right. assumption. }
  rewrite H.
  - rewrite length_combine, length_map, length_range. lia.
  - intros [j q] Hin. apply in_combine_l in Hin.
    apply in_map_iff in Hin as (m & <- & Hm). apply In_range in Hm.
    simpl. lia.
Qed.

Lemma record_fragment_positions_run (u : units) (s : state) :
  kept s ->
  exists s',
    record_fragment_positions u s = (Val tt, s') /\ kept s' /\
    sfindices s' = sfindices s /\ particles s' = particles s /\
    Nstars s' = Nstars s /\
    Z.of_nat (samples (posx s')) = Z.of_nat (samples (posx s)) + (N s - 1) /\
    Z.of_nat (samples (posy s')) = Z.of_nat (samples (posy s)) + (N s - 1) /\
    Z.of_nat (samples (posz s')) = Z.of_nat (samples (posz s)) + (N s - 1).
Proof.
  intros Hkept. rewrite record_fragment_positions_loop.
  destruct (record_loop_kept u
              (combine (range (len (particles s))) (particles s)) s Hkept)
    as (s' & Hrun & Hkept' & Hsf & Hps & _ & Hns & Hx & Hy & Hz).
  { intros [j q] Hin. apply in_combine_l in Hin. apply In_range in Hin.
    simpl. unfold N. lia. }
  rewrite combine_range_fragments in Hx, Hy, Hz.
  assert (HN : 1 <= N s).
  { destruct Hkept as (_ & _ & (p0 & Hp0 & _) & _).
    unfold N, len. destruct (particles s); [discriminate | simpl; lia]. }
  exists s'. split; [assumption|]. split; [assumption|].
  split; [assumption|]. split; [assumption|]. split; [assumption|].
  unfold N, len in *. repeat split; lia.
Qed.

Lemma kept_two_slow_fragments : kept two_slow_fragments.
Proof.
  unfold kept, next_star, N, len. simpl. repeat split; try lia.
  - intros [|[|i]] [|[|j]] a b Ha Hb Hij; simpl in *;
      try lia; try discriminate;
      try (inversion Ha; inversion Hb; subst; lia);
      destruct j; discriminate.
  - exists hole. repeat split.
  - destruct H as [<-|[<-|[<-|[]]]]; reflexivity.
  - destruct H as [<-|[<-|[<-|[]]]];
      (intros [|[|k]] row Hr; simpl in *; try discriminate;
       inversion Hr; subst; reflexivity).
Qed.

(** ** Which track receives which coordinate *)

Lemma track_set_nth (pos : list (list (list R))) (k f k' f' : nat)
      (row : list (list R)) (t : list R) :
  nth_error pos k = Some row -> (f < length row)%nat ->
  track (set_nth k (set_nth f t row) pos) k' f'
  = if (Nat.eqb k' k && Nat.eqb f' f)%bool then Some t else track pos k' f'.
Proof.
  intros Hrow Hf.
  assert (Hk : (k < length pos)%nat) by (apply nth_error_Some; congruence).
  unfold track. rewrite nth_error_set_nth.
  destruct (Nat.eqb_spec k' k) as [->|Hne]; cbn [andb].
  - rewrite (proj2 (Nat.ltb_lt _ _) Hk), Hrow.
    rewrite nth_error_set_nth.
    destruct (Nat.eqb_spec f' f) as [->|Hnf].
    + now rewrite (proj2 (Nat.ltb_lt _ _) Hf).
    + reflexivity.
  - reflexivity.
Qed.

Lemma lands_at (sf : list Z) (k f k' f' : nat) (pi prev : Z) :
  pi <> 0 -> owner sf pi = Val (Z.of_nat (S k)) ->
  nth_error sf k = Some prev -> pi - prev - 1 = Z.of_nat f ->
  lands sf k' f' pi = (Nat.eqb k' k && Nat.eqb f' f)%bool.
Proof.
  intros Hpi Hown Hprev Hf. unfold lands. rewrite Hown.
  destruct (Z.eqb_spec pi 0) as [|_]; [contradiction|]. cbn [negb andb].
  destruct (Nat.eqb_spec k' k) as [->|Hne]; cbn [andb].
  - rewrite Hprev, Z.eqb_refl. cbn [andb].
    destruct (Nat.eqb_spec f' f) as [->|Hnf].
    + apply Z.eqb_eq. assumption.
    + apply Z.eqb_neq. lia.
  - destruct (nth_error sf k'); [|reflexivity].
    destruct (Z.eqb_spec (Z.of_nat (S k)) (Z.of_nat (S k'))); [lia|].
    reflexivity.
Qed.

Lemma record_one_tracks (u : units) (pi : Z) (p : particle) (s : state) :
  kept s -> 0 <= pi < N s ->
  exists s',
    record_one u (pi, p) s = (Val tt, s') /\
    forall (k f : nat),
      track (posx s') k f
      = option_map (fun t => t ++ appended p_x u (sfindices s) [(pi, p)] k f)
                   (track (posx s) k f) /\
      track (posy s') k f
      = option_map (fun t => t ++ appended p_y u (sfindices s) [(pi, p)] k f)
                   (track (posy s) k f) /\
      track (posz s') k f
      = option_map (fun t => t ++ appended p_z u (sfindices s) [(pi, p)] k f)
                   (track (posz s) k f).
Proof.
  intros Hkept Hpi. unfold record_one.
  destruct (Z.eqb_spec pi 0) as [->|Hne].
  { exists s. split; [reflexivity|]. intros k f.
    unfold appended, lands. cbn [filter fst Z.eqb negb andb map].
    repeat split; destruct (track _ k f); simpl;
      rewrite ?app_nil_r; reflexivity. }
  destruct (kept_locate s pi Hkept ltac:(lia))
    as (k & prev & b & Hown & Hprev & Hb & Hrange & Hk & _ & Hrow).
  assert (Hget : getitem (sfindices s) (Z.of_nat (S k) - 1) = Val prev).
  { apply getitem_nonneg; [lia|].
    replace (Z.to_nat (Z.of_nat (S k) - 1)) with k by lia. assumption. }
  set (f := Z.to_nat (pi - prev - 1)).
  assert (Hf : pi - prev - 1 = Z.of_nat f) by (unfold f; lia).
  assert (Hstar : Z.of_nat (S k) - 1 = Z.of_nat k) by lia.
  assert (Happ : forall pos v,
             In pos [posx s; posy s; posz s] ->
             exists row t,
               nth_error pos k = Some row /\ nth_error row f = Some t /\
               append_record pos (Z.of_nat (S k) - 1) (pi - prev - 1) v
               = Val (set_nth k (set_nth f (t ++ [v]) row) pos)).
  { intros pos v Hpos. destruct (Hrow pos Hpos) as (row & Hr & Hl).
    destruct (nth_error row f) as [t|] eqn:Ht.
    - exists row, t. repeat split; try assumption.
      rewrite Hstar, Hf. now apply append_record_ok.
    - apply nth_error_None in Ht. unfold len in Hl. lia. }
  destruct (Happ (posx s) (p_x p / sim_constants.scale u)%R)
    as (rx & tx & Hrx & Htx & Hax); [simpl; auto|].
  destruct (Happ (posy s) (p_y p / sim_constants.scale u)%R)
    as (ry & ty & Hry & Hty & Hay); [simpl; auto|].
  destruct (Happ (posz s) (p_z p / sim_constants.scale u)%R)
    as (rz & tz & Hrz & Htz & Haz); [simpl; auto|].
  eexists. split.
  { erewrite bind_eq by reflexivity.
    erewrite bind_eq by (apply lift_ok, Hown).
    erewrite bind_eq by (apply lift_ok, Hget). cbv zeta.
    erewrite bind_eq by reflexivity.
    erewrite bind_eq by (apply lift_ok, Hax).
    erewrite bind_eq by reflexivity.
    erewrite bind_eq by reflexivity.
    erewrite bind_eq by (apply lift_ok, Hay).
    erewrite bind_eq by reflexivity.
    erewrite bind_eq by reflexivity.
    erewrite bind_eq by (apply lift_ok, Haz).
    reflexivity. }
  intros k' f'.
  cbn [posx posy posz set_posx set_posy set_posz].
  unfold appended. cbn [filter fst snd].
  rewrite (lands_at (sfindices s) k f k' f' pi prev Hne Hown Hprev Hf).
  assert (Hlx : (f < length rx)%nat) by (apply nth_error_Some; congruence).
  assert (Hly : (f < length ry)%nat) by (apply nth_error_Some; congruence).
  assert (Hlz : (f < length rz)%nat) by (apply nth_error_Some; congruence).
  rewrite (track_set_nth _ k f k' f' rx _ Hrx Hlx),
          (track_set_nth _ k f k' f' ry _ Hry Hly),
          (track_set_nth _ k f k' f' rz _ Hrz Hlz).
  destruct (Nat.eqb_spec k' k) as [->|Hnk]; cbn [andb].
  - destruct (Nat.eqb_spec f' f) as [->|Hnf]; cbn [map].
    + unfold track. rewrite Hrx, Hry, Hrz, Htx, Hty, Htz. repeat split.
    + repeat split; destruct (track _ k f'); simpl; rewrite ?app_nil_r;
        reflexivity.
  - cbn [map]. repeat split; destruct (track _ k' f'); simpl;
      rewrite ?app_nil_r; reflexivity.
Qed.

Lemma appended_cons (c : particle -> R) (u : units) (sf : list Z)
      (ip : Z * particle) (l : list (Z * particle)) (k f : nat) :
  appended c u sf (ip :: l) k f
  = appended c u sf [ip] k f ++ appended c u sf l k f.
Proof.
  unfold appended. cbn [filter].
  destruct (lands sf k f (fst ip)); reflexivity.
Qed.

Lemma option_map_app (t0 : option (list R)) (a b : list R) :
  option_map (fun t => t ++ b) (option_map (fun t => t ++ a) t0)
  = option_map (fun t => t ++ a ++ b) t0.
Proof. destruct t0; simpl; [rewrite <- app_assoc|]; reflexivity. Qed.

Lemma record_loop_tracks (u : units) (l : list (Z * particle)) :
  forall s,
    kept s -> (forall ip, In ip l -> 0 <= fst ip < N s) ->
    exists s',
      for_each l (record_one u) s = (Val tt, s') /\
      forall (k f : nat),
        track (posx s') k f
        = option_map (fun t => t ++ appended p_x u (sfindices s) l k f)
                     (track (posx s) k f) /\
        track (posy s') k f
        = option_map (fun t => t ++ appended p_y u (sfindices s) l k f)
                     (track (posy s) k f) /\
        track (posz s') k f
        = option_map (fun t => t ++ appended p_z u (sfindices s) l k f)
                     (track (posz s) k f).
Proof.
  induction l as [|[pi p] rest IH]; intros s Hkept Hin.
  - exists s. split; [reflexivity|]. intros k f. unfold appended.
    cbn [filter map].
    repeat split; destruct (track _ k f); simpl; rewrite ?app_nil_r;
      reflexivity.
  - pose proof (Hin (pi, p) (or_introl eq_refl)) as Hpi. cbn [fst] in Hpi.
    destruct (record_one_kept u pi p s Hkept Hpi)
      as (s1 & Hrun1 & Hkept1 & Hsf1 & Hps1 & _).
    destruct (record_one_tracks u pi p s Hkept Hpi) as (s1' & Hrun1' & Ht1).
    assert (s1' = s1) by congruence. subst s1'.
    destruct (IH s1 Hkept1) as (s' & Hrun & Ht).
    { intros ip Hip. unfold N in *. rewrite Hps1. apply Hin. right. exact Hip. }
    exists s'. split.
    { simpl for_each. erewrite bind_eq by exact Hrun1. exact Hrun. }
    intros k f.
    destruct (Ht k f) as (Hx & Hy & Hz).
    destruct (Ht1 k f) as (Hx1 & Hy1 & Hz1).
    rewrite Hsf1 in Hx, Hy, Hz.
    rewrite Hx, Hy, Hz, Hx1, Hy1, Hz1, !option_map_app.
    rewrite (appended_cons p_x u _ (pi, p) rest),
            (appended_cons p_y u _ (pi, p) rest),
            (appended_cons p_z u _ (pi, p) rest).
    repeat split.
Qed.

Lemma lands_only (sf : list Z) (k f : nat) (pi a : Z) :
  nth_error sf k = Some a -> lands sf k f pi = true ->
  pi = a + 1 + Z.of_nat f.
Proof.
  intros Ha. unfold lands. rewrite Ha.
  destruct (negb (pi =? 0)); [|discriminate]. cbn [andb].
  destruct (owner sf pi); [|discriminate].
  intros H. apply andb_true_iff in H as (_ & H). apply Z.eqb_eq in H. lia.
Qed.

Lemma filter_enumerate (g : Z -> bool) (ps : list particle) :
  forall (start : nat) (j : nat) (p : particle),
    nth_error ps j = Some p ->
    (forall i, g i = true <-> i = Z.of_nat (start + j)) ->
    filter (fun ip : Z * particle => g (fst ip))
           (combine (map Z.of_nat (seq start (length ps))) ps)
    = [(Z.of_nat (start + j), p)].
Proof.
  assert (Hnone : forall (qs : list particle) (start : nat),
             (forall i : nat, (start <= i)%nat -> g (Z.of_nat i) = false) ->
             filter (fun ip : Z * particle => g (fst ip))
                    (combine (map Z.of_nat (seq start (length qs))) qs) = []).
  { induction qs as [|q qs IHq]; intros start Hg; [reflexivity|].
    cbn [length seq map combine filter fst].
    rewrite (Hg start (Nat.le_refl _)). apply IHq.
    intros i Hi. apply Hg. lia. }
  induction ps as [|q ps IH]; intros start j p Hj Hg.
  - destruct j; discriminate.
  - cbn [length seq map combine filter fst]. destruct j as [|j].
    + injection Hj as ->. rewrite Nat.add_0_r in *.
      rewrite (proj2 (Hg (Z.of_nat start)) eq_refl). f_equal.
      apply Hnone. intros i Hi.
      destruct (g (Z.of_nat i)) eqn:E; [|reflexivity].
      apply Hg in E. lia.
    + destruct (g (Z.of_nat start)) eqn:E.
      * apply Hg in E. lia.
      * replace (start + S j)%nat with (S start + j)%nat in * by lia.
        apply IH; assumption.
Qed.

Lemma appended_own (c : particle -> R) (u : units) (sf : list Z)
      (ps : list particle) (k : nat) (pi a : Z) (p : particle) :
  1 <= pi -> nth_error ps (Z.to_nat pi) = Some p ->
  owner sf pi = Val (Z.of_nat (S k)) -> nth_error sf k = Some a ->
  a < pi ->
  appended c u sf (combine (range (len ps)) ps) k (Z.to_nat (pi - a - 1))
  = [(c p / sim_constants.scale u)%R].
Proof.
  intros Hpi Hp Hown Ha Hlt. unfold appended, range, len.
  rewrite Nat2Z.id.
  rewrite (filter_enumerate (lands sf k (Z.to_nat (pi - a - 1))) ps
             0 (Z.to_nat pi) p Hp).
  - reflexivity.
  - intros i. cbn [Nat.add]. rewrite Z2Nat.id by lia. split.
    + intros H. apply (lands_only sf k _ i a Ha) in H. lia.
    + intros ->.
      rewrite (lands_at sf k (Z.to_nat (pi - a - 1)) k _ pi a);
        [now rewrite !Nat.eqb_refl | lia | assumption | assumption | lia].
Qed.

Lemma appended_none (c : particle -> R) (u : units) (sf : list Z)
      (l : list (Z * particle)) (k f : nat) :
  (forall ip, In ip l -> lands sf k f (fst ip) = false) ->
  appended c u sf l k f = [].
Proof.
  intros H. unfold appended.
  induction l as [|ip l IH]; [reflexivity|]. cbn [filter].
  rewrite (H ip (or_introl eq_refl)). apply IH.
  intros q Hq. apply H. right. assumption.
Qed.

Lemma lands_zero (sf : list Z) (k f : nat) : lands sf k f 0 = false.
Proof. reflexivity. Qed.

(** X9: in a state whose book-keeping is in step with the simulation,
    [record_fragment_positions] returns; it leaves the boundaries and the
    particles as they are, keeps the book-keeping in step, and adds to
    each of [posx], [posy] and [posz] exactly one position per fragment.
    The particle of index [pi >= 1], which [sfindices] gives to the star
    of row [k] (the boundary before it being [a]), has its scaled
    coordinates appended to the tracks [posx[k][pi - a - 1]],
    [posy[k][pi - a - 1]] and [posz[k][pi - a - 1]]; a track that is no
    particle's is left as it is. *)
Theorem record_fragment_positions_kept (u : units) (s : state) :
  kept s ->
  exists s',
    record_fragment_positions u s = (Val tt, s') /\ kept s' /\
    sfindices s' = sfindices s /\ particles s' = particles s /\
    Z.of_nat (samples (posx s')) = Z.of_nat (samples (posx s)) + (N s - 1) /\
    Z.of_nat (samples (posy s')) = Z.of_nat (samples (posy s)) + (N s - 1) /\
    Z.of_nat (samples (posz s')) = Z.of_nat (samples (posz s)) + (N s - 1) /\
    (forall (pi : Z) (p : particle),
       1 <= pi -> nth_error (particles s) (Z.to_nat pi) = Some p ->
       exists (k : nat) (a : Z) (tx ty tz : list R),
         owner (sfindices s) pi = Val (Z.of_nat (S k)) /\
         nth_error (sfindices s) k = Some a /\ a < pi /\
         let f := Z.to_nat (pi - a - 1) in
         track (posx s) k f = Some tx /\
         track (posy s) k f = Some ty /\
         track (posz s) k f = Some tz /\
         track (posx s') k f
         = Some (tx ++ [(p_x p / sim_constants.scale u)%R]) /\
         track (posy s') k f
         = Some (ty ++ [(p_y p / sim_constants.scale u)%R]) /\
         track (posz s') k f
         = Some (tz ++ [(p_z p / sim_constants.scale u)%R])) /\
    (forall (k f : nat),
       (forall pi, 1 <= pi < N s -> lands (sfindices s) k f pi = false) ->
       track (posx s') k f = track (posx s) k f /\
       track (posy s') k f = track (posy s) k f /\
       track (posz s') k f = track (posz s) k f).
Proof.
  intros Hkept.
  destruct (record_fragment_positions_run u s Hkept)
    as (s' & Hrun & Hkept' & Hsf & Hps & _ & Hx & Hy & Hz).
  exists s'. do 7 (split; [assumption|]).
  rewrite record_fragment_positions_loop in Hrun.
  destruct (record_loop_tracks u
              (combine (range (len (particles s))) (particles s)) s Hkept)
    as (s2 & Hrun2 & Ht).
  { intros [j q] Hin. apply in_combine_l in Hin. apply In_range in Hin.
    simpl. unfold N. lia. }
  assert (s2 = s') by congruence. subst s2. split.
  - intros pi p Hpi Hp.
    assert (HN : 1 <= pi < N s).
    { split; [assumption|]. unfold N, len.
      assert (Z.to_nat pi < length (particles s))%nat
        by (apply nth_error_Some; congruence). lia. }
    destruct (kept_locate s pi Hkept HN)
      as (k & a & b & Hown & Ha & Hb & Hrange & _ & _ & Hrow).
    destruct (Ht k (Z.to_nat (pi - a - 1))) as (Htx & Hty & Htz).
    rewrite (appended_own p_x u _ _ k pi a p Hpi Hp Hown Ha) in Htx by lia.
    rewrite (appended_own p_y u _ _ k pi a p Hpi Hp Hown Ha) in Hty by lia.
    rewrite (appended_own p_z u _ _ k pi a p Hpi Hp Hown Ha) in Htz by lia.
    assert (Hex : forall pos, In pos [posx s; posy s; posz s] ->
               exists t, track pos k (Z.to_nat (pi - a - 1)) = Some t).
    { intros pos Hpos. destruct (Hrow pos Hpos) as (row & Hr & Hl).
      unfold track. rewrite Hr.
      destruct (nth_error row (Z.to_nat (pi - a - 1))) as [t|] eqn:E;
        [now exists t|].
      apply nth_error_None in E. unfold len in Hl. lia. }
    destruct (Hex (posx s)) as (tx & Hx0); [simpl; auto|].
    destruct (Hex (posy s)) as (ty & Hy0); [simpl; auto|].
    destruct (Hex (posz s)) as (tz & Hz0); [simpl; auto|].
    exists k, a, tx, ty, tz. cbv zeta.
    rewrite Htx, Hty, Htz, Hx0, Hy0, Hz0.
    split; [assumption|]. split; [assumption|]. split; [lia|].
    repeat split.
  - intros k f Hnone.
    destruct (Ht k f) as (Htx & Hty & Htz).
    assert (Hl : forall ip,
               In ip (combine (range (len (particles s))) (particles s)) ->
               lands (sfindices s) k f (fst ip) = false).
    { intros [j q] Hin. apply in_combine_l in Hin. apply In_range in Hin.
      cbn [fst]. destruct (Z.eq_dec j 0) as [->|Hj];
        [apply lands_zero | apply Hnone; unfold N; lia]. }
    rewrite (appended_none p_x u _ _ k f Hl) in Htx.
    rewrite (appended_none p_y u _ _ k f Hl) in Hty.
    rewrite (appended_none p_z u _ _ k f Hl) in Htz.
    rewrite Htx, Hty, Htz.
    assert (Hid : forall t0 : option (list R),
               option_map (fun t => t ++ []) t0 = t0).
    { intros [t|]; simpl; [rewrite app_nil_r|]; reflexivity. }
    rewrite !Hid. repeat split.
Qed.

Lemma record_fragment_positions_kept_witness :
  exists s',
    record_fragment_positions sample_units two_slow_fragments = (Val tt, s') /\
    Z.of_nat (samples (posx s'))
    = Z.of_nat (samples (posx two_slow_fragments)) + 2 /\
    track (posx s') 0 1 = Some [(2 / sim_constants.scale sample_units)%R] /\
    track (posy s') 0 1 = Some [(0 / sim_constants.scale sample_units)%R].
Proof.
  destruct (record_fragment_positions_kept sample_units _
              kept_two_slow_fragments)
    as (s' & Hrun & _ & _ & _ & Hx & _ & _ & Hown & _).
  exists s'. split; [exact Hrun|]. split; [exact Hx|].
  destruct (Hown 2 slow_2) as (k & a & tx & ty & tz & Ho & Ha & _ & H);
    [lia | reflexivity |].
  assert (Ho' : owner (sfindices two_slow_fragments) 2 = Val 1)
    by reflexivity.
  rewrite Ho' in Ho. injection Ho as Hk.
  assert (k = 0%nat) by lia. subst k.
  cbn in Ha. injection Ha as <-.
  cbv zeta in H. destruct H as (Hx0 & Hy0 & _ & Hx1 & Hy1 & _).
  change (Z.to_nat (2 - 0 - 1)) with 1%nat in *.
  unfold track in Hx0, Hy0. cbn in Hx0, Hy0.
  injection Hx0 as <-. injection Hy0 as <-.
  split; [exact Hx1 | exact Hy1].
Defined.


(** ** The two scans of [sim_integrate] *)

Lemma remove_then_raise (index : Z) (s s' : state) :
  remove_fragment index s = (Val tt, s') ->
  bind (reb_remove index)
       (fun _ => bind (remove_fragment_record index)
                      (fun _ => raise StopIteration)) s
  = (@Exc unit StopIteration, s').
Proof.
  intros H. unfold remove_fragment in H.
  apply bind_Val in H as ([] & s1 & H1 & H2).
  erewrite bind_eq by exact H1. erewrite bind_eq by exact H2. reflexivity.
Qed.

Lemma bound_check_kept (u : units) (index : Z) (s : state) :
  kept s -> 1 <= index < N s ->
  bound_check u index s = (Val tt, s) \/
  exists s',
    bound_check u index s = (Exc StopIteration, s') /\
    remove_fragment index s = (Val tt, s').
Proof.
  intros Hkept Hidx.
  destruct (kept_locate s index Hkept Hidx)
    as (k & prev & b & Hown & _ & _ & _ & _ & Hk & _).
  destruct (getitem_in_range (particles s) index) as [p Hp];
    [unfold N in Hidx; lia|].
  destruct (nth_error (orbital_vels s) k) as [ov|] eqn:Hov;
    [|apply nth_error_None in Hov; lia].
  assert (Hgov : getitem (orbital_vels s) (Z.of_nat (S k) - 1) = Val ov).
  { replace (Z.of_nat (S k) - 1) with (Z.of_nat k) by lia.
    now apply getitem_nth_error. }
  destruct (Rlt_dec (sqrt (velinf2 p ov)) (bound_vel u)) as [Hslow|Hfast].
  - right. destruct (kept_remove s index Hkept Hidx) as (s' & Hrm & _).
    exists s'. split; [|exact Hrm].
    rewrite (bound_check_slow u index _ s p ov Hp Hown Hgov Hslow).
    now apply remove_then_raise.
  - left. unfold bound_check.
    erewrite bind_eq by reflexivity.
    erewrite bind_eq by (apply lift_ok, Hp).
    erewrite bind_eq by reflexivity.
    erewrite bind_eq by (apply lift_ok, Hown).
    erewrite bind_eq by reflexivity.
    erewrite bind_eq by (apply lift_ok, Hgov).
    erewrite bind_eq
      by (apply lift_ok, math_sqrt_ok; unfold velinf2; apply Rabs_pos).
    destruct (Rlt_dec _ _); [contradiction | reflexivity].
Qed.

Lemma bound_loop_kept (u : units) (indices : list Z) (s : state) :
  kept s -> (forall index, In index indices -> 0 <= index < N s) ->
  bound_loop u indices s = (Val tt, s) \/
  exists index s',
    In index indices /\ 1 <= index /\
    bound_loop u indices s = (Val tt, s') /\
    remove_fragment index s = (Val tt, s').
Proof.
  intros Hkept. induction indices as [|index rest IH]; intros Hin.
  - left. reflexivity.
  - simpl. destruct (Z.eqb_spec index 0) as [->|Hne].
    + destruct IH as [H|(j & s' & Hj & Hj1 & Hrun & Hrm)];
        [intros; apply Hin; right; assumption | left; assumption |].
      right. exists j, s'. repeat split; auto using in_cons.
    + assert (Hidx : 1 <= index < N s)
        by (specialize (Hin index (or_introl eq_refl)); lia).
      destruct (bound_check_kept u index s Hkept Hidx)
        as [Hc|(s' & Hc & Hrm)]; rewrite Hc.
      * destruct IH as [H|(j & s' & Hj & Hj1 & Hrun & Hrm)];
          [intros; apply Hin; right; assumption | left; assumption |].
        right. exists j, s'. repeat split; auto using in_cons.
      * right. exists index, s'. repeat split; auto using in_eq; lia.
Qed.

Lemma bound_scan_run (u : units) (s : state) :
  kept s ->
  exists s',
    bound_scan u s = (Val tt, s') /\ kept s' /\
    next_star s' = next_star s /\ Nstars s' = Nstars s /\
    (s' = s \/
     exists index,
       1 <= index < N s /\ remove_fragment index s = (Val tt, s')).
Proof.
  intros Hkept. unfold bound_scan. erewrite bind_eq by reflexivity.
  destruct (bound_loop_kept u (range (N s)) s Hkept)
    as [H|(index & s' & Hin & H1 & Hrun & Hrm)].
  - intros index Hin. now apply In_range in Hin.
  - exists s. repeat (split; [assumption || reflexivity|]).
    left. reflexivity.
  - apply In_range in Hin.
    destruct (kept_remove s index Hkept ltac:(lia))
      as (s2 & Hrm2 & Hk2 & _ & Hn2 & Hs2 & _).
    assert (s2 = s') by congruence. subst s2.
    exists s'. repeat (split; [assumption|]).
    right. exists index. split; [lia | assumption].
Qed.

(** X10: in a state whose book-keeping is in step with the simulation the
    bound-velocity scan returns normally, none of its look-ups fails: it
    leaves the state as it is, or it has removed one fragment by
    [reb_sim.remove] and [remove_fragment_record], and the book-keeping is
    still in step. *)
Theorem bound_scan_kept (u : units) (s : state) :
  kept s ->
  exists s',
    bound_scan u s = (Val tt, s') /\ kept s' /\
    (s' = s \/
     exists index,
       1 <= index < N s /\ remove_fragment index s = (Val tt, s')).
Proof.
  intros Hkept.
  destruct (bound_scan_run u s Hkept) as (s' & Hrun & Hk & _ & _ & Hcases).
  exists s'. split; [assumption|]. split; assumption.
Qed.

Lemma bound_scan_kept_witness :
  exists s',
    bound_scan sample_units two_slow_fragments = (Val tt, s') /\ kept s'.
Proof.
  destruct (bound_scan_kept sample_units _ kept_two_slow_fragments)
    as (s' & Hrun & Hk & _).
  exists s'. split; assumption.
Defined.

Open Scope R_scope.

Lemma escape_check_inside (u : units) (j : Z) (s : state) (p : particle) :
  getitem (particles s) j = Val p ->
  ~ SimIntegrate.exit_max_distance u ^ 2
    < p_x p * p_x p + p_y p * p_y p + p_z p * p_z p ->
  SimIntegrate.escape_check u j s = (Val tt, s).
Proof.
  intros Hp Hin. unfold SimIntegrate.escape_check.
  erewrite bind_eq by reflexivity.
  erewrite bind_eq by (apply lift_ok, Hp). cbv zeta.
  destruct (Rlt_dec _ _); [contradiction | reflexivity].
Qed.

Lemma escape_check_outside (u : units) (j : Z) (s : state) (p : particle) :
  getitem (particles s) j = Val p ->
  SimIntegrate.exit_max_distance u ^ 2
  < p_x p * p_x p + p_y p * p_y p + p_z p * p_z p ->
  SimIntegrate.escape_check u j s
  = bind (reb_remove j)
         (fun _ => bind (remove_fragment_record j)
                        (fun _ => raise StopIteration)) s.
Proof.
  intros Hp Hout. unfold SimIntegrate.escape_check.
  erewrite bind_eq by reflexivity.
  erewrite bind_eq by (apply lift_ok, Hp). cbv zeta.
  destruct (Rlt_dec _ _); [reflexivity | contradiction].
Qed.

Close Scope R_scope.

Lemma escape_check_kept (u : units) (j : Z) (s : state) :
  kept s -> 0 <= j < N s ->
  SimIntegrate.escape_check u j s = (Val tt, s) \/
  exists s',
    1 <= j /\
    SimIntegrate.escape_check u j s = (Exc StopIteration, s') /\
    remove_fragment j s = (Val tt, s').
Proof.
  intros Hkept Hj.
  destruct (getitem_in_range (particles s) j) as [p Hp];
    [unfold N in Hj; lia|].
  destruct (Rlt_dec (SimIntegrate.exit_max_distance u ^ 2)
                    (p_x p * p_x p + p_y p * p_y p + p_z p * p_z p))
    as [Hout|Hin].
  - right.
    assert (Hj1 : 1 <= j).
    { destruct (Z.eq_dec j 0) as [->|]; [|lia]. exfalso.
      destruct Hkept as (_ & _ & (p0 & Hp0 & (Hx & Hy & Hz)) & _).
      assert (p = p0).
      { apply getitem_Val_nonneg in Hp; [|lia].
        change (Z.to_nat 0) with 0%nat in Hp. congruence. }
      subst p0. rewrite Hx, Hy, Hz in Hout.
      pose proof (pow2_ge_0 (SimIntegrate.exit_max_distance u)). lra. }
    destruct (kept_remove s j Hkept ltac:(lia)) as (s' & Hrm & _).
    exists s'. split; [assumption|]. split; [|assumption].
    rewrite (escape_check_outside u j s p Hp Hout).
    now apply remove_then_raise.
  - left. now apply (escape_check_inside u j s p).
Qed.

Lemma escape_loop_kept (u : units) (indices : list Z) (s : state) :
  kept s -> (forall j, In j indices -> 0 <= j < N s) ->
  SimIntegrate.escape_loop u indices s = (Val tt, s) \/
  exists j s',
    In j indices /\ 1 <= j /\
    SimIntegrate.escape_loop u indices s = (Val tt, s') /\
    remove_fragment j s = (Val tt, s').
Proof.
  intros Hkept. induction indices as [|j rest IH]; intros Hin.
  - left. reflexivity.
  - simpl.
    destruct (escape_check_kept u j s Hkept (Hin j (or_introl eq_refl)))
      as [Hc|(s' & Hj1 & Hc & Hrm)]; rewrite Hc.
    + destruct IH as [H|(i & s' & Hi & Hi1 & Hrun & Hrm)];
        [intros; apply Hin; right; assumption | left; assumption |].
      right. exists i, s'. repeat split; auto using in_cons.
    + right. exists j, s'. repeat split; auto using in_eq.
Qed.

Lemma escape_scan_run (u : units) (s : state) :
  kept s ->
  exists s',
    SimIntegrate.escape_scan u s = (Val tt, s') /\ kept s' /\
    next_star s' = next_star s /\ Nstars s' = Nstars s /\
    (s' = s \/
     exists j, 1 <= j < N s /\ remove_fragment j s = (Val tt, s')).
Proof.
  intros Hkept. unfold SimIntegrate.escape_scan.
  erewrite bind_eq by reflexivity.
  destruct (escape_loop_kept u (range (N s)) s Hkept)
    as [H|(j & s' & Hin & H1 & Hrun & Hrm)].
  - intros j Hin. now apply In_range in Hin.
  - exists s. repeat (split; [assumption || reflexivity|]).
    left. reflexivity.
  - apply In_range in Hin.
    destruct (kept_remove s j Hkept ltac:(lia))
      as (s2 & Hrm2 & Hk2 & _ & Hn2 & Hs2 & _).
    assert (s2 = s') by congruence. subst s2.
    exists s'. repeat (split; [assumption|]).
    right. exists j. split; [lia | assumption].
Qed.

(** X11: in a state whose book-keeping is in step with the simulation the
    scan of the [rebound.Escape] handler returns normally: it leaves the
    state as it is, or it has removed one fragment, never the central
    body, and the book-keeping is still in step. *)
Theorem escape_scan_kept (u : units) (s : state) :
  kept s ->
  exists s',
    SimIntegrate.escape_scan u s = (Val tt, s') /\ kept s' /\
    (s' = s \/
     exists j, 1 <= j < N s /\ remove_fragment j s = (Val tt, s')).
Proof.
  intros Hkept.
  destruct (escape_scan_run u s Hkept) as (s' & Hrun & Hk & _ & _ & Hcases).
  exists s'. split; [assumption|]. split; assumption.
Qed.

Lemma escape_scan_kept_witness :
  exists s',
    SimIntegrate.escape_scan sample_units two_slow_fragments = (Val tt, s')
    /\ kept s'.
Proof.
  destruct (escape_scan_kept sample_units _ kept_two_slow_fragments)
    as (s' & Hrun & Hk & _).
  exists s'. split; assumption.
Defined.

(** ** The loop of [sim_integrate] *)

Lemma kept_set_particles (ps : list particle) (s : state) :
  kept s -> length ps = length (particles s) ->
  nth_error ps 0 = nth_error (particles s) 0 ->
  kept (set_particles ps s).
Proof.
  intros (Hcore & Hlast & Horig & Hnf & Hbudget & Hrows) Hlen H0.
  unfold kept, next_star, N, len in *.
  cbn [set_particles sfindices particles Nfrag Nstars posx posy posz].
  split; [exact Hcore|]. rewrite Hlen, H0.
  repeat (split; [assumption|]). assumption.
Qed.

Lemma disruption_due_budget (time : R) (star_count nstars : Z) :
  SimIntegrate.disruption_due time star_count nstars = true ->
  star_count <> nstars /\ (SimIntegrate.interval < time)%R.
Proof.
  unfold SimIntegrate.disruption_due. intros H.
  apply andb_prop in H as [H Hne]. apply andb_prop in H as [_ Hlate].
  split.
  - apply negb_true_iff in Hne. lia.
  - destruct (Rlt_dec _ _); [assumption | discriminate].
Qed.

Lemma scan_then_record (u : units) (scan : M unit) (sc : Z) (s : state) :
  (exists s1,
     scan s = (Val tt, s1) /\ kept s1 /\
     next_star s1 = next_star s /\ Nstars s1 = Nstars s) ->
  exists s',
    bind scan (fun _ => bind (record_fragment_positions u)
                             (fun _ => ret sc)) s = (Val sc, s') /\
    kept s' /\ next_star s' = next_star s /\ Nstars s' = Nstars s.
Proof.
  intros (s1 & Hscan & Hk1 & Hn1 & Hs1).
  destruct (record_fragment_positions_run u s1 Hk1)
    as (s' & Hrec & Hk' & Hsf & _ & Hns & _).
  exists s'. split.
  { erewrite bind_eq by exact Hscan. erewrite bind_eq by exact Hrec.
    reflexivity. }
  split; [assumption|]. unfold next_star in *. split; congruence.
Qed.

Lemma iteration_run (E : externals) (u : units)
      (integrate : R -> list particle -> advance) (d : draws) (time : R)
      (s : state) :
  integrator_ok integrate -> kept s -> 0 <= Nstars s ->
  (exists sc' s',
     SimIntegrate.iteration E u integrate d time (Z.of_nat (next_star s)) s
     = (Val sc', s') /\
     kept s' /\ sc' = Z.of_nat (next_star s') /\ Nstars s' = Nstars s /\
     (next_star s <= next_star s' <= S (next_star s))%nat) \/
  (exists e s' ps,
     SimIntegrate.iteration E u integrate d time (Z.of_nat (next_star s)) s
     = (Exc e, s') /\
     integrate time (particles s) = Advanced ps /\
     SimIntegrate.disruption_due time (Z.of_nat (next_star s)) (Nstars s)
     = true /\
     star_disrupt E u d time (set_particles ps s) = (Exc e, s')).
Proof.
  intros Hint Hkept Hpos.
  destruct (Hint time (particles s)) as [Hlen H0].
  unfold SimIntegrate.iteration.
  destruct (integrate time (particles s)) as [ps|ps] eqn:Hadv;
    cbn [moved] in Hlen, H0;
    pose proof (kept_set_particles ps s Hkept Hlen H0) as Hk0;
    set (s0 := set_particles ps s) in *;
    assert (Hn0 : next_star s0 = next_star s) by reflexivity;
    assert (Hs0 : Nstars s0 = Nstars s) by reflexivity.
  - destruct (SimIntegrate.disruption_due time (Z.of_nat (next_star s))
                                           (Nstars s)) eqn:Hdue.
    + pose proof Hdue as Hdue'.
      apply disruption_due_budget in Hdue' as [Hne _].
      assert (Hroom : (next_star s0 < Z.to_nat (Nstars s0))%nat).
      { destruct Hkept as (_ & _ & _ & _ & Hbudget & _).
        rewrite Hn0, Hs0. lia. }
      destruct (star_disrupt E u d time s0) as [[[]|e] s1] eqn:Hd.
      * destruct (kept_disrupt E u d time s0 s1 Hk0 Hroom Hd)
          as (Hk1 & Hn1 & Hs1).
        destruct (bound_scan_run u s1 Hk1) as (s2 & Hb & Hk2 & Hn2 & Hs2 & _).
        destruct (scan_then_record u (bound_scan u)
                    (Z.of_nat (next_star s) + 1) s1)
          as (s' & Hrun & Hk' & Hn' & Hs').
        { exists s2. repeat (split; [assumption|]). assumption. }
        left. exists (Z.of_nat (next_star s) + 1), s'. split.
        { erewrite bind_eq; [exact Hrun|].
          erewrite bind_eq by exact Hd. reflexivity. }
        split; [assumption|]. split; [lia|]. split; [congruence|]. lia.
      * right. exists e, s1, ps.
        split; [|split; [reflexivity | split; [reflexivity | exact Hd]]].
        apply bind_raise_eq. apply bind_raise_eq. exact Hd.
    + destruct (bound_scan_run u s0 Hk0) as (s2 & Hb & Hk2 & Hn2 & Hs2 & _).
      destruct (scan_then_record u (bound_scan u) (Z.of_nat (next_star s)) s0)
        as (s' & Hrun & Hk' & Hn' & Hs').
      { exists s2. repeat (split; [assumption|]). assumption. }
      left. exists (Z.of_nat (next_star s)), s'. split.
      { erewrite bind_eq; [exact Hrun | reflexivity]. }
      split; [assumption|]. split; [lia|]. split; [congruence|]. lia.
  - destruct (escape_scan_run u s0 Hk0) as (s2 & Hb & Hk2 & Hn2 & Hs2 & _).
    destruct (scan_then_record u (SimIntegrate.escape_scan u)
                (Z.of_nat (next_star s)) s0)
      as (s' & Hrun & Hk' & Hn' & Hs').
    { exists s2. repeat (split; [assumption|]). assumption. }
    left. exists (Z.of_nat (next_star s)), s'. split; [exact Hrun|].
    split; [assumption|]. split; [lia|]. split; [congruence|]. lia.
Qed.

(** X12: one pass of the loop of [sim_integrate], started with the
    book-keeping in step with the simulation and [star_count] equal to
    the number of stars disrupted so far, either ends normally, with the
    book-keeping and [star_count] still so and at most one more star
    disrupted, or raises the exception its call of [star_disrupt] raised:
    the two scans and [record_fragment_positions] never fail. *)
Theorem iteration_kept (E : externals) (u : units)
        (integrate : R -> list particle -> advance) (d : draws) (time : R)
        (s : state) :
  integrator_ok integrate -> kept s -> 0 <= Nstars s ->
  (exists sc' s',
     SimIntegrate.iteration E u integrate d time (Z.of_nat (next_star s)) s
     = (Val sc', s') /\
     kept s' /\ sc' = Z.of_nat (next_star s') /\
     (next_star s <= next_star s' <= S (next_star s))%nat) \/
  (exists e s' ps,
     SimIntegrate.iteration E u integrate d time (Z.of_nat (next_star s)) s
     = (Exc e, s') /\
     integrate time (particles s) = Advanced ps /\
     SimIntegrate.disruption_due time (Z.of_nat (next_star s)) (Nstars s)
     = true /\
     star_disrupt E u d time (set_particles ps s) = (Exc e, s')).
Proof.
  intros Hint Hkept Hpos.
  destruct (iteration_run E u integrate d time s Hint Hkept Hpos)
    as [(sc' & s' & Hrun & Hk & Hsc & _ & Hn)|H]; [left | right; exact H].
  exists sc', s'. repeat (split; [assumption|]). assumption.
Qed.

Lemma stand_still_ok : integrator_ok stand_still.
Proof. intros t ps. split; reflexivity. Qed.

Lemma iteration_kept_witness :
  (exists sc' s',
     SimIntegrate.iteration sample_externals sample_units stand_still
       sample_draws 0%R (Z.of_nat (next_star two_slow_fragments))
       two_slow_fragments = (Val sc', s') /\
     kept s' /\ sc' = Z.of_nat (next_star s') /\
     (next_star two_slow_fragments <= next_star s'
      <= S (next_star two_slow_fragments))%nat) \/
  (exists e s' ps,
     SimIntegrate.iteration sample_externals sample_units stand_still
       sample_draws 0%R (Z.of_nat (next_star two_slow_fragments))
       two_slow_fragments = (Exc e, s') /\
     stand_still 0%R (particles two_slow_fragments) = Advanced ps /\
     SimIntegrate.disruption_due 0%R
       (Z.of_nat (next_star two_slow_fragments)) (Nstars two_slow_fragments)
     = true /\
     star_disrupt sample_externals sample_units sample_draws 0%R
       (set_particles ps two_slow_fragments) = (Exc e, s')).
Proof.
  exact (iteration_kept sample_externals sample_units stand_still
           sample_draws 0%R two_slow_fragments stand_still_ok
           kept_two_slow_fragments ltac:(simpl; lia)).
Defined.

Lemma integration_loop_run (E : externals) (u : units)
      (integrate : R -> list particle -> advance) (later : nat -> draws)
      (ts : list R) :
  integrator_ok integrate ->
  forall (ti : nat) (s : state),
    kept s -> 0 <= Nstars s ->
    (exists sc' s',
       SimIntegrate.integration_loop E u integrate later ti ts
         (Z.of_nat (next_star s)) s = (Val sc', s') /\
       kept s' /\ sc' = Z.of_nat (next_star s') /\ Nstars s' = Nstars s /\
       (next_star s <= next_star s')%nat) \/
    (exists e s' d time s1,
       SimIntegrate.integration_loop E u integrate later ti ts
         (Z.of_nat (next_star s)) s = (Exc e, s') /\
       star_disrupt E u d time s1 = (Exc e, s')).
Proof.
  intros Hint. induction ts as [|time rest IH]; intros ti s Hkept Hpos.
  - left. exists (Z.of_nat (next_star s)), s.
    split; [reflexivity|]. repeat (split; [assumption || reflexivity|]). lia.
  - cbn [SimIntegrate.integration_loop].
    destruct (iteration_run E u integrate (later ti) time s Hint Hkept Hpos)
      as [(sc1 & s1 & Hrun1 & Hk1 & Hsc1 & Hs1 & Hn1)
         |(e & s' & ps & Hrun & _ & _ & Hd)].
    + erewrite bind_eq by exact Hrun1. subst sc1.
      destruct (IH (S ti) s1 Hk1 ltac:(lia))
        as [(sc' & s' & Hrun & Hk & Hsc & Hs & Hn)
           |(e & s' & d & t & s2 & Hrun & Hd)].
      * left. exists sc', s'. split; [assumption|].
        split; [assumption|]. split; [assumption|].
        split; [congruence | lia].
      * right. exists e, s', d, t, s2. split; assumption.
    + right. exists e, s', (later ti), time, (set_particles ps s).
      split; [|assumption]. apply bind_raise_eq. exact Hrun.
Qed.

Lemma times_ok (c : SimIntegrate.config) :
  1 <= SimIntegrate.Nout c ->
  exists rest,
    SimIntegrate.times c = Val (0%R :: rest) /\
    len rest = SimIntegrate.Nout c - 1.
Proof.
  intros Hn. unfold SimIntegrate.times, linspace. cbv zeta.
  replace (SimIntegrate.Nout c - 1 <? 0) with false by lia.
  destruct (SimIntegrate.Nout c - 1 =? 1) eqn:H1.
  - eexists. split; [reflexivity|]. unfold len. simpl. lia.
  - eexists. split; [reflexivity|].
    rewrite !length_len_map. apply len_range. lia.
Qed.

(** X13: [sim_integrate], run on a freshly constructed integrator with at
    least one star, a non-negative number of fragments per star and
    [Nout >= 1], either returns, with the book-keeping in step with the
    simulation and between one and [Nstars] stars disrupted, or raises
    an exception that one of its calls of [star_disrupt] raised: the
    removal of fragments and the recording of positions never fail. *)
Theorem sim_integrate_safe (E : externals) (u : units)
        (integrate : R -> list particle -> advance) (c : SimIntegrate.config)
        (first : draws) (later : nat -> draws) (Nstars0 Nfrag0 : Z) :
  integrator_ok integrate ->
  1 <= Nstars0 -> 0 <= Nfrag0 -> 1 <= SimIntegrate.Nout c ->
  (exists s',
     SimIntegrate.sim_integrate E u integrate c first later
       (init Nstars0 Nfrag0) = (Val tt, s') /\
     kept s' /\ 1 <= Z.of_nat (next_star s') <= Nstars0) \/
  (exists e s' d time s1,
     SimIntegrate.sim_integrate E u integrate c first later
       (init Nstars0 Nfrag0) = (Exc e, s') /\
     star_disrupt E u d time s1 = (Exc e, s')).
Proof.
  intros Hint Hs Hf Hout.
  unfold SimIntegrate.sim_integrate.
  erewrite bind_eq by reflexivity.
  destruct (times_ok c Hout) as (rest & Htimes & _).
  erewrite bind_eq by (apply lift_ok, Htimes).
  pose proof (kept_init Nstars0 Nfrag0 Hf) as Hk0.
  set (s0 := sim_setup (init Nstars0 Nfrag0)) in *.
  assert (Hn0 : next_star s0 = 0%nat) by reflexivity.
  assert (Hs0 : Nstars s0 = Nstars0) by reflexivity.
  destruct (star_disrupt E u first 0 s0) as [[[]|e] s1] eqn:Hd.
  - erewrite bind_eq by exact Hd.
    destruct (kept_disrupt E u first 0%R s0 s1 Hk0 ltac:(lia) Hd)
      as (Hk1 & Hn1 & Hs1).
    assert (H1 : 1 = Z.of_nat (next_star s1)) by lia.
    rewrite H1.
    destruct (integration_loop_run E u integrate later (0%R :: rest) Hint
                0%nat s1 Hk1 ltac:(lia))
      as [(sc' & s' & Hrun & Hk & Hsc & Hns & Hn)
         |(e & s' & d & t & s2 & Hrun & Hd2)].
    + left. exists s'. split.
      { erewrite bind_eq by exact Hrun. reflexivity. }
      split; [assumption|].
      destruct Hk as (_ & _ & _ & _ & Hbudget & _). lia.
    + right. exists e, s', d, t, s2. split; [|assumption].
      apply bind_raise_eq. exact Hrun.
  - right. exists e, s1, first, 0%R, s0. split; [|assumption].
    apply bind_raise_eq. exact Hd.
Qed.

Lemma sim_integrate_safe_witness :
  (exists s',
     SimIntegrate.sim_integrate sample_externals sample_units stand_still
       (SimIntegrate.set_Nout 2 SimIntegrate.default_config)
       sample_draws (fun _ => sample_draws) (init 1 1) = (Val tt, s') /\
     kept s' /\ 1 <= Z.of_nat (next_star s') <= 1) \/
  (exists e s' d time s1,
     SimIntegrate.sim_integrate sample_externals sample_units stand_still
       (SimIntegrate.set_Nout 2 SimIntegrate.default_config)
       sample_draws (fun _ => sample_draws) (init 1 1) = (Exc e, s') /\
     star_disrupt sample_externals sample_units d time s1 = (Exc e, s')).
Proof.
  apply (sim_integrate_safe sample_externals sample_units stand_still
           (SimIntegrate.set_Nout 2 SimIntegrate.default_config)
           sample_draws (fun _ => sample_draws) 1 1 stand_still_ok);
    simpl; lia.
Defined.

(** ** The book-keeping through construction, disruption and removal *)

(** X14: right after [__init__] and the set-up of the simulation the
    book-keeping is in step with the simulation: the simulation holds the
    central body alone, [sfindices] is [[0]], and each of [posx], [posy]
    and [posz] has [Nstars] rows of [Nfrag] tracks. *)
Theorem fresh_integrator_kept (Nstars0 Nfrag0 : Z) :
  0 <= Nfrag0 ->
  let s := sim_setup (init Nstars0 Nfrag0) in
  kept s /\ N s = 1 /\ next_star s = 0%nat /\
  (forall pos row,
     In pos [posx s; posy s; posz s] -> In row pos -> len row = Nfrag0).
Proof.
  intros Hf s. split; [apply kept_init; assumption|].
  split; [reflexivity|]. split; [reflexivity|].
  intros pos row Hpos Hrow.
  assert (Hpos' : pos = nested Nstars0 Nfrag0)
    by (destruct Hpos as [<-|[<-|[<-|[]]]]; reflexivity).
  subst pos. unfold nested in Hrow.
  apply in_map_iff in Hrow as (k & <- & _).
  rewrite length_len_map. apply len_range. assumption.
Qed.

Lemma fresh_integrator_kept_witness :
  let s := sim_setup (init 2 3) in
  kept s /\ N s = 1 /\ next_star s = 0%nat /\
  (forall pos row,
     In pos [posx s; posy s; posz s] -> In row pos -> len row = 3).
Proof. apply (fresh_integrator_kept 2 3). lia. Defined.

(** X15: a disruption that returns, made while the book-keeping is in
    step and fewer than [Nstars] stars have been disrupted, leaves the
    book-keeping in step: it adds [Nfrag] particles and one boundary, the
    index of the last particle. *)
Theorem star_disrupt_kept (E : externals) (u : units) (d : draws) (time : R)
        (s s' : state) :
  kept s -> (next_star s < Z.to_nat (Nstars s))%nat ->
  star_disrupt E u d time s = (Val tt, s') ->
  kept s' /\ next_star s' = S (next_star s) /\
  N s' = N s + Nfrag s /\
  sfindices s' = sfindices s ++ [N s' - 1].
Proof.
  intros Hkept Hroom Hd.
  destruct (kept_disrupt E u d time s s' Hkept Hroom Hd) as (Hk & Hn & _).
  split; [assumption|]. split; [assumption|].
  apply star_disrupt_Val in Hd
    as (m_star & r_star & r_t & ov & new & Hnf & Hlen & ->).
  unfold N in *. cbn [particles sfindices].
  unfold len in *. rewrite length_app.
  split; [lia|]. do 2 f_equal. lia.
Qed.

Lemma star_disrupt_kept_witness :
  exists s',
    star_disrupt sample_externals sample_units sample_draws 0%R
                 (sim_setup (init 1 1)) = (Val tt, s') /\
    kept s' /\ N s' = 2 /\ sfindices s' = [0; 1].
Proof.
  destruct (sample_disrupt_ok (sim_setup (init 1 1))) as [s' Hd];
    [simpl; lia|].
  destruct (star_disrupt_kept sample_externals sample_units sample_draws 0%R
              (sim_setup (init 1 1)) s'
              (kept_init 1 1 ltac:(lia)) ltac:(unfold next_star; simpl; lia) Hd)
    as (Hk & _ & HN & Hsf).
  exists s'. split; [assumption|]. split; [assumption|].
  change (N (sim_setup (init 1 1))) with 1 in HN.
  change (Nfrag (sim_setup (init 1 1))) with 1 in HN.
  split; [lia|]. rewrite Hsf. simpl. do 2 f_equal. lia.
Defined.

(** X16: while the book-keeping is in step, the removal of any fragment,
    [reb_sim.remove(index)] followed by [remove_fragment_record(index)],
    returns; it takes that particle out of the simulation and leaves the
    book-keeping in step, with the same number of boundaries. *)
Theorem remove_fragment_kept (s : state) (index : Z) :
  kept s -> 1 <= index < N s ->
  exists s',
    remove_fragment index s = (Val tt, s') /\ kept s' /\
    N s' = N s - 1 /\
    length (sfindices s') = length (sfindices s) /\
    particles s' = remove_nth (Z.to_nat index) (particles s).
Proof.
  intros Hkept Hidx.
  destruct (kept_remove s index Hkept Hidx)
    as (s' & Hrm & Hk & HN & Hn & _ & Hps).
  exists s'. repeat (split; [assumption|]).
  split; [|assumption].
  destruct Hkept as ((_ & H0 & _) & _). destruct Hk as ((_ & H0' & _) & _).
  unfold next_star in Hn.
  destruct (sfindices s); [discriminate|].
  destruct (sfindices s'); [discriminate|].
  simpl in *. lia.
Qed.

Lemma remove_fragment_kept_witness :
  exists s',
    remove_fragment 2 two_slow_fragments = (Val tt, s') /\ kept s' /\
    N s' = 2.
Proof.
  destruct (remove_fragment_kept two_slow_fragments 2 kept_two_slow_fragments)
    as (s' & Hrm & Hk & HN & _); [unfold N, len; simpl; lia|].
  exists s'. split; [assumption|]. split; [assumption|].
  rewrite HN. reflexivity.
Defined.

(** ** More on the scan of the [rebound.Escape] handler *)

Open Scope R_scope.

(** [d2 > reb_sim.exit_max_distance**2] *)
Lemma escape_loop_inside (u : units) (indices : list Z) (s : state) :
  (forall j, In j indices ->
     exists p, getitem (particles s) j = Val p /\ beyond u p = false) ->
  SimIntegrate.escape_loop u indices s = (Val tt, s).
Proof.
  induction indices as [|j rest IH]; intros H; [reflexivity|].
  simpl. destruct (H j (or_introl eq_refl)) as (p & Hp & Hin).
  rewrite (escape_check_inside u j s p Hp).
  - apply IH. intros i Hi. apply H. right. exact Hi.
  - unfold beyond in Hin. destruct (Rlt_dec _ _); [discriminate | assumption].
Qed.

Lemma escape_loop_app (u : units) (l1 l2 : list Z) (s : state) :
  SimIntegrate.escape_loop u l1 s = (Val tt, s) ->
  (forall j, In j l1 -> SimIntegrate.escape_check u j s = (Val tt, s)) ->
  SimIntegrate.escape_loop u (l1 ++ l2) s = SimIntegrate.escape_loop u l2 s.
Proof.
  intros _. induction l1 as [|j rest IH]; intros H; [reflexivity|].
  simpl. rewrite (H j (or_introl eq_refl)).
  apply IH. intros i Hi. apply H. right. exact Hi.
Qed.

Close Scope R_scope.

Lemma range_split (n : Z) (j : nat) :
  Z.of_nat j < n ->
  exists rest, range n = range (Z.of_nat j) ++ Z.of_nat j :: rest.
Proof.
  intros H. unfold range.
  replace (Z.to_nat n) with (j + S (Z.to_nat n - S j))%nat by lia.
  rewrite seq_app, map_app, Nat2Z.id. simpl.
  eexists. reflexivity.
Qed.

(** X17: when no particle of the simulation is farther from the origin
    than [exit_max_distance], the scan of the [rebound.Escape] handler
    removes nothing and returns, whatever the book-keeping holds. *)
Theorem escape_scan_nothing_beyond (u : units) (s : state) :
  (forall p, In p (particles s) -> beyond u p = false) ->
  SimIntegrate.escape_scan u s = (Val tt, s).
Proof.
  intros H. unfold SimIntegrate.escape_scan.
  erewrite bind_eq by reflexivity.
  apply escape_loop_inside. intros j Hj. apply In_range in Hj.
  destruct (getitem_in_range (particles s) j Hj) as [p Hp].
  exists p. split; [assumption|]. apply H.
  apply getitem_Val_nonneg in Hp; [|lia].
  eapply nth_error_In. exact Hp.
Qed.

Lemma escape_scan_nothing_beyond_witness :
  SimIntegrate.escape_scan sample_units two_slow_fragments
  = (Val tt, two_slow_fragments).
Proof.
  apply escape_scan_nothing_beyond.
  intros p Hp. unfold beyond.
  destruct (Rlt_dec _ _) as [Hlt|]; [exfalso | reflexivity].
  simpl in Hp. destruct Hp as [<-|[<-|[<-|[]]]];
    unfold SimIntegrate.exit_max_distance, sim_constants.scale in Hlt;
    simpl in Hlt; lra.
Defined.

(** X18: while the book-keeping is in step, the scan of the
    [rebound.Escape] handler removes the particle of lowest index that is
    farther from the origin than [exit_max_distance], and that one
    only. *)
Theorem escape_scan_first_beyond (u : units) (s : state) (j : nat)
        (p : particle) :
  kept s ->
  nth_error (particles s) j = Some p -> beyond u p = true ->
  (forall i q, (i < j)%nat -> nth_error (particles s) i = Some q ->
               beyond u q = false) ->
  exists s',
    SimIntegrate.escape_scan u s = (Val tt, s') /\
    remove_fragment (Z.of_nat j) s = (Val tt, s') /\
    particles s' = remove_nth j (particles s).
Proof.
  intros Hkept Hp Hout Hbefore.
  assert (Hj : Z.of_nat j < N s).
  { unfold N, len. apply Nat2Z.inj_lt. apply nth_error_Some. congruence. }
  assert (Hgp : getitem (particles s) (Z.of_nat j) = Val p)
    by now apply getitem_nth_error.
  assert (Hout' : (SimIntegrate.exit_max_distance u ^ 2
                   < p_x p * p_x p + p_y p * p_y p + p_z p * p_z p)%R).
  { unfold beyond in Hout. destruct (Rlt_dec _ _); [assumption|discriminate]. }
  destruct (escape_check_kept u (Z.of_nat j) s Hkept ltac:(lia))
    as [Hc|(s' & Hj1 & Hc & Hrm)].
  { rewrite (escape_check_outside u _ s p Hgp Hout') in Hc.
    exfalso.
    assert (Hj1 : 1 <= Z.of_nat j).
    { destruct j; [|lia]. exfalso.
      destruct Hkept as (_ & _ & (p0 & Hp0 & (Hx & Hy & Hz)) & _).
      assert (p = p0) by congruence. subst p0.
      rewrite Hx, Hy, Hz in Hout'.
      pose proof (pow2_ge_0 (SimIntegrate.exit_max_distance u)). lra. }
    destruct (kept_remove s (Z.of_nat j) Hkept ltac:(lia)) as (s' & Hrm & _).
    rewrite (remove_then_raise _ _ _ Hrm) in Hc. discriminate. }
  destruct (kept_remove s (Z.of_nat j) Hkept ltac:(lia))
    as (s2 & Hrm2 & _ & _ & _ & _ & Hps).
  assert (s2 = s') by congruence. subst s2.
  exists s'. split; [|split; [assumption|]].
  - unfold SimIntegrate.escape_scan. erewrite bind_eq by reflexivity.
    destruct (range_split (N s) j Hj) as [rest ->].
    assert (Hpre : forall i, In i (range (Z.of_nat j)) ->
              exists q, getitem (particles s) i = Val q /\ beyond u q = false).
    { intros i Hi. apply In_range in Hi.
      destruct (getitem_in_range (particles s) i) as [q Hq];
        [unfold N in Hj; lia|].
      exists q. split; [assumption|].
      apply getitem_Val_nonneg in Hq; [|lia].
      apply (Hbefore (Z.to_nat i) q); [lia | assumption]. }
    rewrite escape_loop_app.
    + simpl. rewrite Hc. reflexivity.
    + now apply escape_loop_inside.
    + intros i Hi. destruct (Hpre i Hi) as (q & Hq & Hin).
      apply (escape_check_inside u i s q Hq).
      unfold beyond in Hin. destruct (Rlt_dec _ _); [discriminate|assumption].
  - rewrite Hps, Nat2Z.id. reflexivity.
Qed.

Lemma kept_one_escaped : kept one_escaped.
Proof.
  apply kept_set_particles;
    [exact kept_two_slow_fragments | reflexivity | reflexivity].
Qed.

Lemma escape_scan_first_beyond_witness :
  exists s',
    SimIntegrate.escape_scan sample_units one_escaped = (Val tt, s') /\
    particles s' = [hole; slow_1].
Proof.
  destruct (escape_scan_first_beyond sample_units one_escaped 2 far_away
              kept_one_escaped eq_refl)
    as (s' & Hrun & _ & Hps).
  - unfold beyond. destruct (Rlt_dec _ _) as [|Hn]; [reflexivity|].
    exfalso. apply Hn.
    unfold SimIntegrate.exit_max_distance, sim_constants.scale.
    simpl. lra.
  - intros [|[|i]] q Hi Hq; [| |lia]; simpl in Hq; inversion Hq; subst q;
      unfold beyond; (destruct (Rlt_dec _ _) as [Hlt|]; [exfalso|reflexivity]);
      unfold SimIntegrate.exit_max_distance, sim_constants.scale in Hlt;
      simpl in Hlt; lra.
  - exists s'. split; [assumption|]. rewrite Hps. reflexivity.
Defined.

(** ** The budget of stars *)

Lemma disruption_due_exhausted (time : R) (nstars : Z) :
  SimIntegrate.disruption_due time nstars nstars = false.
Proof.
  unfold SimIntegrate.disruption_due. rewrite Z.eqb_refl.
  apply andb_false_r.
Qed.

Lemma integration_loop_exhausted (E : externals) (u : units)
      (integrate : R -> list particle -> advance) (later : nat -> draws)
      (ts : list R) :
  integrator_ok integrate ->
  forall (ti : nat) (s : state),
    kept s -> Z.of_nat (next_star s) = Nstars s ->
    exists s',
      SimIntegrate.integration_loop E u integrate later ti ts (Nstars s) s
      = (Val (Nstars s), s') /\
      kept s' /\ next_star s' = next_star s /\ Nstars s' = Nstars s.
Proof.
  intros Hint. induction ts as [|time rest IH]; intros ti s Hkept Hfull.
  - exists s. split; [reflexivity|]. split; [assumption|].
    split; reflexivity.
  - cbn [SimIntegrate.integration_loop].
    destruct (iteration_run E u integrate (later ti) time s Hint Hkept
                ltac:(lia))
      as [(sc1 & s1 & Hrun1 & Hk1 & Hsc1 & Hs1 & Hn1)
         |(e & s' & ps & _ & _ & Hdue & _)].
    + assert (Hsame : next_star s1 = next_star s).
      { destruct Hk1 as (_ & _ & _ & _ & Hbudget & _). lia. }
      rewrite Hfull in Hrun1.
      erewrite bind_eq by exact Hrun1.
      assert (Hsc : sc1 = Nstars s1) by lia. rewrite Hsc.
      destruct (IH (S ti) s1 Hk1 ltac:(lia)) as (s' & Hrun & Hk & Hn & Hs).
      exists s'. rewrite <- Hs1.
      split; [exact Hrun|]. split; [assumption|]. split; congruence.
    + rewrite Hfull, disruption_due_exhausted in Hdue. discriminate.
Qed.

(** X19: once [star_count] has reached [Nstars] the loop of
    [sim_integrate] disrupts no further star and cannot fail: started
    with the book-keeping in step and all [Nstars] stars disrupted, it
    runs through every scheduled time and returns, with no boundary
    added. *)
Theorem integration_loop_after_last_star (E : externals) (u : units)
        (integrate : R -> list particle -> advance) (later : nat -> draws)
        (ts : list R) (ti : nat) (s : state) :
  integrator_ok integrate ->
  kept s -> Z.of_nat (next_star s) = Nstars s ->
  exists s',
    SimIntegrate.integration_loop E u integrate later ti ts (Nstars s) s
    = (Val (Nstars s), s') /\
    kept s' /\ length (sfindices s') = length (sfindices s).
Proof.
  intros Hint Hkept Hfull.
  destruct (integration_loop_exhausted E u integrate later ts Hint ti s
              Hkept Hfull) as (s' & Hrun & Hk & Hn & _).
  exists s'. split; [assumption|]. split; [assumption|].
  destruct Hkept as ((_ & H0 & _) & _). destruct Hk as ((_ & H0' & _) & _).
  unfold next_star in Hn.
  destruct (sfindices s); [discriminate|].
  destruct (sfindices s'); [discriminate|].
  simpl in *. lia.
Qed.

Lemma integration_loop_after_last_star_witness :
  exists s',
    SimIntegrate.integration_loop sample_externals sample_units stand_still
      (fun _ => sample_draws) 0 [0%R; 1%R] (Nstars two_slow_fragments)
      two_slow_fragments = (Val (Nstars two_slow_fragments), s') /\
    kept s' /\ length (sfindices s') = length (sfindices two_slow_fragments).
Proof.
  exact (integration_loop_after_last_star sample_externals sample_units
           stand_still (fun _ => sample_draws) [0%R; 1%R] 0%nat
           two_slow_fragments stand_still_ok kept_two_slow_fragments
           eq_refl).
Defined.

(** ** The fragments [star_disrupt] creates *)

Open Scope R_scope.

Lemma add_fragments_content (vels rads : list R) (r_t : R) (sd vd : vec)
      (frags : list Z) :
  forall (s s' : state),
    for_each frags (add_fragment vels rads r_t sd vd) s = (Val tt, s') ->
    exists new,
      s' = set_particles (particles s ++ new) s /\
      length new = length frags /\
      forall (k : nat) (frag : Z) (p : particle),
        nth_error frags k = Some frag -> nth_error new k = Some p ->
        exists vel rad,
          getitem vels frag = Val vel /\ getitem rads frag = Val rad /\
          p = mkParticle 0.0
                ((r_t + rad) * v0 sd) ((r_t + rad) * v1 sd)
                ((r_t + rad) * v2 sd)
                (vel * v0 vd) (vel * v1 vd) (vel * v2 vd).
Proof.
  induction frags as [|frag rest IH]; intros s s' H.
  - simpl in H. unfold ret in H. inversion H; subst. exists []. split.
    + rewrite app_nil_r. destruct s'; reflexivity.
    + split; [reflexivity|]. intros [|k] f p Hf; discriminate.
  - simpl in H. apply bind_Val in H as ([] & s1 & H1 & H).
    unfold add_fragment, reb_add in H1. minv.
    match goal with Hv : getitem vels frag = Val ?v |- _ => rename v into vel; rename Hv into Hvel end.
    match goal with Hr : getitem rads frag = Val ?r |- _ => rename r into rad; rename Hr into Hrad end.
    apply IH in H as (new & -> & Hlen & Hnew).
    eexists (_ :: new). split.
    + cbn [particles set_particles]. rewrite <- app_assoc. reflexivity.
    + split; [simpl; congruence|]. intros [|k] f p Hf Hp.
      * simpl in Hf, Hp. inversion Hf; inversion Hp; subst.
        exists vel, rad. repeat split; assumption.
      * simpl in Hf, Hp. apply (Hnew k f p Hf Hp).
Qed.












Close Scope R_scope.

(** ** When [star_disrupt] fails *)

(** X21: with a negative [Nfrag], [star_disrupt] raises [IndexError] at
    [rads.pop(0)]; by then it has appended to [star_masses] and
    [star_radii], and to nothing else. *)
Theorem star_disrupt_negative_Nfrag (E : externals) (u : units) (d : draws)
        (time : R) (s : state) :
  Nfrag s < 0 ->
  let m_star := mstar_dist E (xstar d) in
  let r_star := (rstar_func E m_star * sim_constants.RsuntoAU u)%R in
  star_disrupt E u d time s
  = (Exc IndexError,
     set_star_radii (star_radii s ++ [r_star])
                    (set_star_masses (star_masses s ++ [m_star]) s)).
Proof.
  intros Hneg. cbv zeta. unfold star_disrupt. cbv zeta.
  erewrite bind_eq by reflexivity.
  erewrite bind_eq by reflexivity.
  erewrite bind_eq by reflexivity.
  cbn [Nfrag set_star_radii set_star_masses].
  apply bind_raise_eq.
  unfold range. replace (Z.to_nat (Nfrag s + 1)) with 0%nat by lia.
  reflexivity.
Qed.

Lemma star_disrupt_negative_Nfrag_witness :
  fst (star_disrupt sample_externals sample_units sample_draws 0%R
                    (sim_setup (init 1 (-1))))
  = Exc IndexError.
Proof.
  rewrite (star_disrupt_negative_Nfrag sample_externals sample_units
             sample_draws 0%R (sim_setup (init 1 (-1))));
    [reflexivity | simpl; lia].
Defined.

(** X22: when the sampler hands back fewer energies than [Nfrag] (all of
    them giving real speeds), [star_disrupt] raises [IndexError] at
    [vels[frag]]: it has then added one particle per energy to the
    simulation, and no boundary to [sfindices]. *)
Theorem star_disrupt_spectrum_too_short (E : externals) (u : units)
        (d : draws) (time : R) (s : state) (NRGs : list R) :
  (u1 d ^ 2 <= 1)%R ->
  dmde_energy_spread E (beta_dist E (xbeta d)) (Nfrag s) = Val NRGs ->
  len NRGs < Nfrag s ->
  (forall nrg, In nrg NRGs -> (0 <= radicand E u d nrg)%R) ->
  exists s',
    star_disrupt E u d time s = (Exc IndexError, s') /\
    sfindices s' = sfindices s /\
    N s' = N s + len NRGs.
Proof. exact (star_disrupt_short_spectrum E u d time s NRGs). Qed.

Lemma module_spread_one (beta : R) :
  dMdEdist.energy_spread sample_tables beta 1 = Val [].
Proof.
  destruct (beta_locals_spec sample_tables beta)
    as (i & j & x1 & x2 & f1 & f2 & _ & _ & _ & _ & _ & _ & _ & Hbl);
    [simpl; lia | reflexivity |].
  unfold dMdEdist.energy_spread, dMdEdist.beta_interp.
  rewrite Hbl. reflexivity.
Qed.

Lemma star_disrupt_spectrum_too_short_witness :
  exists s',
    star_disrupt module_externals sample_units sample_draws 0%R
                 (sim_setup (init 1 1)) = (Exc IndexError, s') /\
    sfindices s' = [0] /\ N s' = 1.
Proof.
  destruct (star_disrupt_spectrum_too_short module_externals sample_units
              sample_draws 0%R (sim_setup (init 1 1)) [])
    as (s' & Hrun & Hsf & HN).
  - simpl. lra.
  - apply module_spread_one.
  - simpl. unfold len. simpl. lia.
  - intros nrg [].
  - exists s'. split; [assumption|]. split; assumption.
Defined.

Lemma f_new_length (bl : dMdEdist.blend) (xs vals : list R) :
  dMdEdist.f_new bl xs = Val vals -> length vals = length xs.
Proof.
  unfold dMdEdist.f_new.
  destruct (dMdEdist.call (dMdEdist.bl_f1 bl) xs) as [v1|] eqn:H1;
    simpl; [|discriminate].
  destruct (dMdEdist.call (dMdEdist.bl_f2 bl) xs) as [v2|] eqn:H2;
    simpl; [|discriminate].
  intros H. inversion H; subst.
  apply mapM_length in H1. apply mapM_length in H2.
  rewrite length_map, length_combine. lia.
Qed.

Lemma energy_spread_length (T : dMdEdist.dMdEdist_init) (beta : R)
      (nfrag : Z) (vals : list R) :
  dMdEdist.energy_spread T beta nfrag = Val vals ->
  1 <= nfrag -> len vals = nfrag - 1.
Proof.
  intros H Hn. unfold dMdEdist.energy_spread, dMdEdist.beta_interp in H.
  destruct (dMdEdist.beta_locals T beta) as [bl|]; simpl in H; [|discriminate].
  destruct (x_set_spec nfrag Hn) as (xs & Hxs & Hlen & _).
  rewrite Hxs in H. simpl in H.
  apply f_new_length in H. unfold len in *. lia.
Qed.

(** X23: when the energies of [star_disrupt] are those of the function
    [energy_spread] of [dMdEdist.py], no disruption with [Nfrag >= 1]
    returns: the function hands back [Nfrag - 1] energies and the loop
    over the fragments reads [vels[Nfrag - 1]]. *)
Theorem star_disrupt_with_energy_spread (E : externals) (u : units)
        (d : draws) (time : R) (s : state) (T : dMdEdist.dMdEdist_init) :
  (forall beta nfrag,
     dmde_energy_spread E beta nfrag = dMdEdist.energy_spread T beta nfrag) ->
  1 <= Nfrag s ->
  forall s', star_disrupt E u d time s <> (Val tt, s').
Proof.
  intros Hsame Hn s' Hd.
  unfold star_disrupt in Hd. cbv zeta in Hd. minv.
  repeat match goal with x : unit |- _ => destruct x end.
  match goal with
  | H : for_each _ _ _ = _ |- _ =>
      apply add_fragments_content in H;
      destruct H as (new & _ & Hnl & Hcontent)
  end.
  cbn [Nfrag set_star_radii set_star_masses] in *.
  match goal with
  | H : dmde_energy_spread _ _ _ = Val ?l |- _ =>
      rewrite Hsame in H; apply energy_spread_length in H; [|assumption];
      rename H into Hlen; rename l into NRGs
  end.
  match goal with
  | H : mapM _ _ = Val ?l |- _ =>
      apply mapM_length in H; rewrite length_map in H;
      rename H into Hvels; rename l into vels
  end.
  rewrite length_range in Hnl.
  set (k := Z.to_nat (Nfrag s - 1)).
  assert (Hfrag : nth_error (range (Nfrag s)) k = Some (Z.of_nat k)).
  { unfold range. rewrite nth_error_map.
    rewrite (nth_error_nth' _ 0%nat) by (rewrite length_seq; lia).
    rewrite seq_nth by lia. reflexivity. }
  destruct (nth_error new k) as [p|] eqn:Hp;
    [|apply nth_error_None in Hp; lia].
  destruct (Hcontent k (Z.of_nat k) p Hfrag Hp) as (vel & _ & Hvel & _).
  apply getitem_Val_nonneg in Hvel; [|lia].
  assert (Hlt : (Z.to_nat (Z.of_nat k) < length vels)%nat)
    by (apply nth_error_Some; congruence).
  unfold len in Hlen. lia.
Qed.

Lemma star_disrupt_with_energy_spread_witness :
  exists e s',
    star_disrupt module_externals sample_units sample_draws 0%R
                 (sim_setup (init 1 1)) = (Exc e, s').
Proof.
  destruct (star_disrupt module_externals sample_units sample_draws 0%R
              (sim_setup (init 1 1))) as [[[]|e] s'] eqn:Hd.
  - exfalso.
    apply (star_disrupt_with_energy_spread module_externals sample_units
             sample_draws 0%R (sim_setup (init 1 1)) sample_tables
             ltac:(reflexivity) ltac:(simpl; lia) s' Hd).
  - exists e, s'. reflexivity.
Defined.

(** ** The schedule of [sim_integrate] *)

Lemma Rpower_10_log10 (x : R) :
  (0 < x)%R -> Rpower 10 (SimIntegrate.log10 x) = x.
Proof.
  intros Hx. unfold Rpower, SimIntegrate.log10.
  assert (Hln : (0 < ln 10)%R).
  { rewrite <- ln_1. apply ln_increasing; lra. }
  replace (ln x / ln 10 * ln 10)%R with (ln x) by (field; lra).
  apply exp_ln. assumption.
Qed.

(** X24: for [Nout >= 1] the schedule [times] has [Nout] entries: [0]
    first, then positive times only; for [Nout >= 3] and a positive
    [max_time] the last of them is [max_time]. *)
Theorem times_schedule (c : SimIntegrate.config) :
  1 <= SimIntegrate.Nout c ->
  exists rest,
    SimIntegrate.times c = Val (0%R :: rest) /\
    len rest = SimIntegrate.Nout c - 1 /\
    (forall t, In t rest -> (0 < t)%R) /\
    (3 <= SimIntegrate.Nout c -> (0 < SimIntegrate.max_time c)%R ->
     nth_error rest (Z.to_nat (SimIntegrate.Nout c - 2))
     = Some (SimIntegrate.max_time c)).
Proof.
  intros Hn. unfold SimIntegrate.times, linspace. cbv zeta.
  replace (SimIntegrate.Nout c - 1 <? 0) with false by lia.
  assert (Hpos : forall (l : list R) t,
             In t (map (Rpower 10) l) -> (0 < t)%R).
  { intros l t Ht. apply in_map_iff in Ht as (e & <- & _).
    unfold Rpower. apply exp_pos. }
  destruct (Z.eqb_spec (SimIntegrate.Nout c - 1) 1) as [H1|H1].
  - eexists. split; [reflexivity|]. split; [unfold len; simpl; lia|].
    split; [apply Hpos|]. intros H3. lia.
  - eexists. split; [reflexivity|].
    split; [rewrite !length_len_map; apply len_range; lia|].
    split; [apply Hpos|]. intros H3 Hmax.
    set (n := SimIntegrate.Nout c - 1) in *.
    replace (SimIntegrate.Nout c - 2) with (n - 1) by (unfold n; lia).
    rewrite !nth_error_map. unfold range. rewrite nth_error_map.
    rewrite (nth_error_nth' _ 0%nat) by (rewrite length_seq; lia).
    rewrite seq_nth by lia. cbn [option_map]. f_equal.
    rewrite <- (Rpower_10_log10 (SimIntegrate.max_time c) Hmax) at 2.
    f_equal.
    replace (Z.of_nat (0 + Z.to_nat (n - 1))) with (n - 1) by lia.
    assert (Hne : (IZR (n - 1) <> 0)%R) by (apply not_0_IZR; lia).
    field. assumption.
Qed.

Lemma times_schedule_witness :
  exists rest,
    SimIntegrate.times SimIntegrate.default_config = Val (0%R :: rest) /\
    len rest = 9999.
Proof.
  destruct (times_schedule SimIntegrate.default_config) as (rest & H & Hl & _).
  - simpl. lia.
  - exists rest. split; [exact H | exact Hl].
Defined.

Open Scope R_scope.

(** ** The sampler beyond the claims *)

(** X25: with fewer than two tables [beta_interp] cannot unpack
    [diffs.argsort()[:2]], and [energy_spread] raises [ValueError] for
    every [beta] and [nfrag]. *)
Theorem energy_spread_needs_two_tables (T : dMdEdist_init) (beta : R)
        (nfrag : Z) :
  (length (betas T) < 2)%nat ->
  energy_spread T beta nfrag = Exc ValueError.
Proof.
  intros Hlen. unfold energy_spread, beta_interp, beta_locals.
  set (diffs := map (fun b => Rabs (b - beta)) (betas T)).
  pose proof (Permutation_length (argsort_perm diffs)) as Hperm.
  rewrite length_seq in Hperm. unfold diffs in Hperm at 2.
  rewrite length_map in Hperm.
  destruct (argsort diffs) as [|i [|j rest]]; simpl in Hperm;
    [reflexivity | reflexivity | lia].
Qed.

Lemma energy_spread_needs_two_tables_witness :
  energy_spread (mkTables [1] [0.5] [mkInterp 0 1 (fun x => x)]) 1 5
  = Exc ValueError.
Proof. apply energy_spread_needs_two_tables. simpl. lia. Defined.

(** X26: when the blend is defined, [energy_spread] raises
    [ZeroDivisionError] for [nfrag = 0], at [1.0 / nfrag], and
    [ValueError] for a negative [nfrag], at [np.linspace]. *)
Theorem energy_spread_no_fragments (T : dMdEdist_init) (beta : R)
        (nfrag : Z) (bl : blend) :
  beta_locals T beta = Val bl -> (nfrag <= 0)%Z ->
  energy_spread T beta nfrag
  = Exc (if (nfrag =? 0)%Z then ZeroDivisionError else ValueError).
Proof.
  intros Hbl Hn. unfold energy_spread, beta_interp. rewrite Hbl.
  cbn [pbind]. unfold x_set, py_div.
  destruct (Z.eqb_spec nfrag 0) as [->|Hne]; [reflexivity|].
  cbn [pbind]. unfold linspace.
  replace (nfrag - 1 <? 0)%Z with true by lia. reflexivity.
Qed.

Lemma energy_spread_no_fragments_witness :
  energy_spread sample_tables 0.7 0 = Exc ZeroDivisionError.
Proof.
  destruct (beta_locals_spec sample_tables 0.7)
    as (i & j & x1 & x2 & f1 & f2 & _ & _ & _ & _ & _ & _ & _ & Hbl);
    [simpl; lia | reflexivity |].
  apply (energy_spread_no_fragments sample_tables 0.7 0 _ Hbl). lia.
Defined.

Lemma is_positive_true (v : R) : 0 < v -> is_positive v = true.
Proof.
  intros H. unfold is_positive. destruct (Rlt_dec 0 v); [reflexivity|contradiction].
Qed.

Lemma is_positive_false (v : R) : ~ 0 < v -> is_positive v = false.
Proof.
  intros H. unfold is_positive. destruct (Rlt_dec 0 v); [contradiction|reflexivity].
Qed.

Lemma skipn_nth_error {A : Type} (i : nat) (b : list A) (bi : A) :
  nth_error b i = Some bi -> skipn i b = bi :: skipn (S i) b.
Proof.
  revert b. induction i as [|i IH]; intros [|h t] H; try discriminate.
  - simpl in H. inversion H. reflexivity.
  - simpl in H. apply IH in H. exact H.
Qed.

Lemma retain_from (b : list R) (a : list R) :
  forall (i : nat) (x y : list R),
    (i + length a <= length b)%nat ->
    retain a (Z.of_nat i) b x y
    = Val (x ++ filter is_positive a,
           y ++ map snd (filter (fun ab => is_positive (fst ab))
                                (combine a (skipn i b)))).
Proof.
  induction a as [|point a IH]; intros i x y Hlen.
  - simpl. rewrite !app_nil_r. reflexivity.
  - simpl in Hlen. cbn [retain].
    destruct (nth_error b i) as [bi|] eqn:Hbi;
      [|apply nth_error_None in Hbi; lia].
    rewrite (skipn_nth_error i b bi Hbi). cbn [combine filter fst].
    replace (Z.of_nat i + 1)%Z with (Z.of_nat (S i)) by lia.
    destruct (Rlt_dec 0 point) as [Hp|Hp].
    + rewrite (is_positive_true point Hp).
      rewrite (getitem_nth_error b i bi Hbi). cbn [pbind].
      rewrite IH by lia. cbn [map snd].
      rewrite <- !app_assoc. reflexivity.
    + rewrite (is_positive_false point Hp).
      rewrite IH by lia. reflexivity.
Qed.

Lemma filter_combine_length (a b : list R) :
  (length a <= length b)%nat ->
  length (filter (fun ab => is_positive (fst ab)) (combine a b))
  = length (filter is_positive a).
Proof.
  revert b. induction a as [|h t IH]; intros [|hb tb] Hlen;
    simpl in *; try reflexivity; try lia.
  destruct (is_positive h); simpl; rewrite IH by lia; reflexivity.
Qed.

(** X27: when row [b] of a table is at least as long as row [a], the
    filter of the class body returns: it keeps, in order, exactly the
    positive entries of [a] and the entries of [b] at the same positions,
    so [x] and [y] have the same length. *)
Theorem retain_keeps_positive (a b : list R) :
  (length a <= length b)%nat ->
  exists x y,
    retain a 0%Z b [] [] = Val (x, y) /\
    x = filter is_positive a /\
    y = map snd (filter (fun ab => is_positive (fst ab)) (combine a b)) /\
    length y = length x.
Proof.
  intros Hlen. do 2 eexists. split.
  - apply (retain_from b a 0%nat [] []). simpl. lia.
  - cbn [skipn app]. split; [reflexivity|]. split; [reflexivity|].
    rewrite length_map. now apply filter_combine_length.
Qed.

Lemma retain_keeps_positive_witness :
  exists x y,
    retain [-1; 2; 0; 3] 0%Z [10; 20; 30; 40] [] [] = Val (x, y) /\
    length y = length x.
Proof.
  destruct (retain_keeps_positive [-1; 2; 0; 3] [10; 20; 30; 40])
    as (x & y & Hr & _ & _ & Hl); [simpl; lia|].
  exists x, y. split; assumption.
Defined.

Lemma In_firstn_skipn {A : Type} (n m : nat) (l : list A) (v : A) :
  In v (firstn n (skipn m l)) -> In v l.
Proof.
  intros H.
  assert (H1 : In v (skipn m l)).
  { rewrite <- (firstn_skipn n (skipn m l)). apply in_or_app. now left. }
  rewrite <- (firstn_skipn m l). apply in_or_app. now right.
Qed.

Lemma fold_left_Rplus_acc (l : list R) (acc : R) :
  fold_left Rplus l acc = acc + fold_left Rplus l 0.
Proof.
  revert acc. induction l as [|h t IH]; intros acc; simpl; [lra|].
  rewrite (IH (acc + h)), (IH (0 + h)). lra.
Qed.

Lemma sum_nonneg (l : list R) : (forall v, In v l -> 0 <= v) -> 0 <= sum l.
Proof.
  unfold sum. induction l as [|h t IH]; intros H; simpl; [lra|].
  rewrite fold_left_Rplus_acc.
  pose proof (H h (or_introl eq_refl)).
  pose proof (IH (fun v Hv => H v (or_intror Hv))). lra.
Qed.

Lemma coarsen_length (x : list R) : length (coarsen x) = (length x / 10)%nat.
Proof. unfold coarsen. now rewrite length_map, length_seq. Qed.

Lemma coarsen_nonneg (y : list R) :
  (forall v, In v y -> 0 <= v) -> forall c, In c (coarsen y) -> 0 <= c.
Proof.
  intros Hy c Hc. unfold coarsen in Hc.
  apply in_map_iff in Hc as (i & <- & _). unfold s_point.
  apply Rmult_le_pos.
  - apply sum_nonneg. intros v Hv. apply Hy.
    unfold slice in Hv. eapply In_firstn_skipn. exact Hv.
  - left. apply Rinv_0_lt_compat. unfold step. simpl. lra.
Qed.

(** X28: the coarsened row has one entry per complete block of ten
    samples, a trailing partial block is dropped; each entry is the sum
    of the first nine samples of its block over ten. *)
Theorem coarsen_blocks (x : list R) :
  length (coarsen x) = (length x / 10)%nat /\
  forall i, (i < length x / 10)%nat ->
    nth_error (coarsen x) i
    = Some (sum (firstn 9 (skipn (10 * i) x)) / 10) /\
    length (firstn 9 (skipn (10 * i) x)) = 9%nat.
Proof.
  split; [apply coarsen_length|]. intros i Hi.
  assert (Hblock : (10 * i + 10 <= length x)%nat).
  { pose proof (Nat.div_mod_eq (length x) 10).
    pose proof (Nat.mod_upper_bound (length x) 10). nia. }
  split.
  - unfold coarsen. rewrite nth_error_map.
    rewrite (nth_error_nth' _ 0%nat) by (rewrite length_seq; exact Hi).
    rewrite seq_nth by exact Hi. cbn [option_map]. unfold s_point, slice, step.
    do 2 f_equal.
    + f_equal. f_equal. lia.
    + simpl. lra.
  - rewrite length_firstn, length_skipn. lia.
Qed.

Close Scope R_scope.

Open Scope R_scope.

Lemma cumsum_from_length (l : list R) (acc : R) :
  length (cumsum_from acc l) = length l.
Proof.
  revert acc. induction l as [|h t IH]; intros acc; simpl; [reflexivity|].
  now rewrite IH.
Qed.

Lemma cumsum_from_sorted (l : list R) :
  (forall v, In v l -> 0 <= v) ->
  forall acc, Sorted Rle (acc :: cumsum_from acc l).
Proof.
  induction l as [|h t IH]; intros Hl acc; simpl.
  - repeat constructor.
  - constructor.
    + apply IH. intros v Hv. apply Hl. right. exact Hv.
    + constructor. pose proof (Hl h (or_introl eq_refl)). lra.
Qed.

Lemma last_cons_default {A : Type} (l : list A) (a d : A) :
  last (a :: l) d = last l a.
Proof.
  revert a d. induction l as [|b l IH]; intros a d; [reflexivity|].
  change (last (a :: b :: l) d) with (last (b :: l) d).
  rewrite !IH. reflexivity.
Qed.

Lemma cumsum_from_last (l : list R) (acc : R) :
  last (cumsum_from acc l) acc = acc + sum l.
Proof.
  revert acc. unfold sum. induction l as [|h t IH]; intros acc.
  - simpl. lra.
  - cbn [cumsum_from fold_left].
    rewrite last_cons_default, IH, (fold_left_Rplus_acc t (0 + h)). lra.
Qed.

Lemma sorted_max_last (t : list R) (h : R) :
  Sorted Rle (h :: t) -> fold_left Rmax t h = last t h.
Proof.
  revert h. induction t as [|a t IH]; intros h Hs; [reflexivity|].
  inversion Hs as [|? ? Hs' Hhd]; subst. inversion Hhd; subst.
  cbn [fold_left]. rewrite Rmax_right by assumption.
  rewrite (IH a Hs'), last_cons_default. reflexivity.
Qed.

Lemma sorted_map_div (l : list R) (c : R) :
  0 < c -> Sorted Rle l -> Sorted Rle (map (fun v => v / c) l).
Proof.
  intros Hc. induction 1 as [|a l Hs IH Hhd]; simpl; constructor.
  - assumption.
  - destruct Hhd as [|b l' Hab]; simpl; constructor.
    unfold Rdiv. apply Rmult_le_compat_r; [|assumption].
    left. now apply Rinv_0_lt_compat.
Qed.

Lemma last_map {A B : Type} (f : A -> B) (l : list A) (a : A) :
  last (map f l) (f a) = f (last l a).
Proof.
  induction l as [|h t IH]; [reflexivity|].
  destruct t; [reflexivity|]. exact IH.
Qed.

Lemma sum_positive (l : list R) (c : R) :
  (forall v, In v l -> 0 <= v) -> In c l -> 0 < c -> 0 < sum l.
Proof.
  unfold sum. induction l as [|h t IH]; intros Hl Hin Hc; [destruct Hin|].
  simpl. rewrite fold_left_Rplus_acc.
  pose proof (Hl h (or_introl eq_refl)) as Hh.
  pose proof (sum_nonneg t (fun v Hv => Hl v (or_intror Hv))) as Ht.
  unfold sum in Ht.
  destruct Hin as [->|Hin]; [lra|].
  pose proof (IH (fun v Hv => Hl v (or_intror Hv)) Hin Hc). lra.
Qed.

(** X29: when the retained densities are non-negative and some block of
    them has a positive average, the knots handed to
    [interp1d(CDE, s)] are a cumulative distribution: [CDE] starts at
    [0], never decreases and ends at [1]; [s] starts at [0]; both have
    one knot per complete block of ten retained samples, and one
    more. *)
Theorem curve_is_distribution (a b x y : list R) (c : R) :
  retain a 0%Z b [] [] = Val (x, y) ->
  length y = length x ->
  (forall v, In v y -> 0 <= v) ->
  In c (coarsen y) -> 0 < c ->
  exists CDE s,
    curve a b = Val (CDE, s) /\
    length CDE = S (length x / 10) /\ length s = length CDE /\
    hd_error CDE = Some 0 /\ last CDE 0 = 1 /\ Sorted Rle CDE /\
    hd_error s = Some 0.
Proof.
  intros Hret Hlen Hy Hc Hpos.
  unfold curve. rewrite Hret. cbn [pbind].
  do 2 eexists. split; [reflexivity|].
  rewrite !rev_unit.
  set (ps := rev (coarsen y)).
  assert (Hps : forall v, In v ps -> 0 <= v).
  { intros v Hv. apply in_rev in Hv. now apply (coarsen_nonneg y Hy). }
  assert (Htot : 0 < sum ps).
  { apply (sum_positive ps c Hps); [|assumption].
    unfold ps. rewrite <- in_rev. assumption. }
  unfold cumsum. cbn [cumsum_from].
  set (z := 0 + 0.0).
  assert (Hz : z = 0) by (unfold z; lra).
  pose proof (cumsum_from_sorted ps Hps z) as Hsorted.
  assert (Hmax : list_max (z :: cumsum_from z ps) = sum ps).
  { unfold list_max. rewrite (sorted_max_last _ _ Hsorted).
    rewrite cumsum_from_last. lra. }
  rewrite Hmax.
  split.
  { cbn [map length]. rewrite length_map, cumsum_from_length.
    unfold ps. rewrite length_rev, coarsen_length. congruence. }
  split.
  { cbn [map length]. rewrite length_map, cumsum_from_length.
    unfold ps. rewrite !length_rev, !coarsen_length. congruence. }
  split.
  { cbn [map hd_error]. f_equal. rewrite Hz. unfold Rdiv. ring. }
  split.
  { cbn [map]. rewrite last_cons_default.
    rewrite (last_map (fun c0 => c0 / sum ps)).
    rewrite cumsum_from_last, Hz. field. lra. }
  split.
  { apply (sorted_map_div (z :: cumsum_from z ps) (sum ps) Htot Hsorted). }
  cbn [hd_error]. f_equal. lra.
Qed.

Lemma retain_ten_ones :
  retain [1; 1; 1; 1; 1; 1; 1; 1; 1; 1] 0%Z [1; 1; 1; 1; 1; 1; 1; 1; 1; 1]
         [] []
  = Val ([1; 1; 1; 1; 1; 1; 1; 1; 1; 1], [1; 1; 1; 1; 1; 1; 1; 1; 1; 1]).
Proof.
  rewrite (retain_from _ _ 0%nat [] []) by (simpl; lia).
  cbn [skipn app filter combine fst].
  rewrite (is_positive_true 1) by lra. reflexivity.
Qed.

Lemma curve_is_distribution_witness :
  exists CDE s,
    curve [1; 1; 1; 1; 1; 1; 1; 1; 1; 1] [1; 1; 1; 1; 1; 1; 1; 1; 1; 1]
    = Val (CDE, s) /\
    length CDE = 2%nat /\ last CDE 0 = 1.
Proof.
  destruct (curve_is_distribution _ _ _ _
              (sum [1; 1; 1; 1; 1; 1; 1; 1; 1] / 10)
              retain_ten_ones eq_refl)
    as (CDE & s & Hc & Hlc & _ & _ & Hlast & _).
  - intros v Hv. simpl in Hv.
    repeat (destruct Hv as [<-|Hv]; [lra|]). destruct Hv.
  - left. unfold s_point, slice, step. simpl. f_equal. lra.
  - unfold sum. simpl. lra.
  - exists CDE, s. split; [assumption|]. split; [|assumption].
    rewrite Hlc. reflexivity.
Defined.

Close Scope R_scope.

(* ================================================================= *)
(** * Part IV: the book-keeping with the sampler of the repository       *)
(* ================================================================= *)

(** ** [star_disrupt] changes [sfindices] in its last statement only *)









Lemma remove_fragment_keeps_on_error (index : Z) :
  keeps_sfindices_on_error (remove_fragment index).
Proof.
  intros s s' e H. unfold remove_fragment, bind in H.
  destruct (reb_remove index s) as [[[]|e0] s1] eqn:Hr.
  - apply reb_remove_Val in Hr as (_ & -> & _).
    apply remove_fragment_record_Exc in H as (_ & Hsf & _). exact Hsf.
  - inversion H; subst. apply reb_remove_Exc in Hr as [_ ->]. reflexivity.
Qed.

(** ** No disruption returns with the sampler of the repository *)




(** ** The boundaries of a visited state *)




Lemma reachable_visited (E : externals) (u : units) (Nstars0 Nfrag0 : Z)
      (s : state) :
  reachable E u Nstars0 Nfrag0 s -> visited E u Nstars0 Nfrag0 s.
Proof.
  induction 1.
  - apply visit_init.
  - eapply visit_disrupt; eassumption.
  - eapply visit_remove; eassumption.
  - eapply visit_remove_record; eassumption.
Qed.





(** ** The round trip of a disruption and the removal of its fragments *)

